(** * lokalise-sync-cli: key reconciliation, normalisation and usage scanning

    A shallow embedding of [src/lokalise.ts].

    - JavaScript strings are sequences of UTF-16 code units ([list N]).
    - A plain object ([Record<string, T>]) is the list of its own enumerable
      properties in the order [Object.keys], [Object.entries], the spread
      operator and [JSON.stringify] visit them: array-index keys first, in
      ascending numeric order, then every other key in insertion order.
      Its prototype is [Object.prototype]: reading a name that is not an own
      property finds the member of that name there, and assigning to
      [__proto__] reaches the accessor there.
    - A [Set<string>] is the list of its elements in insertion order.
    - File system, console and process exit are threaded through an explicit
      world state. *)

From Stdlib Require Import Ascii String.
From Stdlib Require Import List NArith Bool Lia Permutation Sorted PeanoNat.
Import ListNotations.

Set Implicit Arguments.

(* ================================================================== *)
(** ** JavaScript strings *)
(* ================================================================== *)

Module JsString.

Definition code_unit := N.
Definition jsstring := list code_unit.

(** String literals of the source, written as Rocq strings. *)
Definition lit (s : string) : jsstring :=
  map N_of_ascii (list_ascii_of_string s).

Definition TAB : code_unit := 9%N.
Definition SPACE : code_unit := 32%N.
Definition DOT : code_unit := 46%N.
Definition DQUOTE : code_unit := 34%N.
Definition SQUOTE : code_unit := 39%N.
Definition BACKTICK : code_unit := 96%N.
Definition BACKSLASH : code_unit := 92%N.
Definition LF : code_unit := 10%N.

(** [a === b] on strings. *)
Fixpoint eqb (a b : jsstring) : bool :=
  match a, b with
  | [], [] => true
  | x :: a', y :: b' => N.eqb x y && eqb a' b'
  | _, _ => false
  end.

(** The order of [a < b] on strings, and of [Array.prototype.sort] without
    a comparator: lexicographic on code units. *)
Fixpoint compare (a b : jsstring) : comparison :=
  match a, b with
  | [], [] => Eq
  | [], _ :: _ => Lt
  | _ :: _, [] => Gt
  | x :: a', y :: b' =>
      match N.compare x y with
      | Eq => compare a' b'
      | c => c
      end
  end.

Definition leb (a b : jsstring) : bool :=
  match compare a b with Gt => false | _ => true end.

Definition le (a b : jsstring) : Prop := leb a b = true.
Definition lt (a b : jsstring) : Prop := compare a b = Lt.

(** [s.startsWith(p)] *)
Fixpoint startsWith (s p : jsstring) {struct p} : bool :=
  match p, s with
  | [], _ => true
  | _ :: _, [] => false
  | y :: p', x :: s' => N.eqb x y && startsWith s' p'
  end.

(** [s.endsWith(p)] *)
Definition endsWith (s p : jsstring) : bool :=
  startsWith (rev s) (rev p).

(** [s.includes(sub)] *)
Fixpoint includes (s sub : jsstring) : bool :=
  startsWith s sub ||
  match s with
  | [] => false
  | _ :: s' => includes s' sub
  end.

(** [s.split(sep)] for a one-code-unit separator. The result is never
    empty: a string without separator is its own single segment. *)
Fixpoint split (sep : code_unit) (s : jsstring) : list jsstring :=
  match s with
  | [] => [[]]
  | c :: s' =>
      if N.eqb c sep then [] :: split sep s'
      else match split sep s' with
           | [] => [[c]]
           | seg :: segs => (c :: seg) :: segs
           end
  end.

(** [parts.join(sep)] *)
Fixpoint join (sep : jsstring) (parts : list jsstring) : jsstring :=
  match parts with
  | [] => []
  | [p] => p
  | p :: rest => p ++ sep ++ join sep rest
  end.

(** [arr.slice(0, -n)]: the array without its last [n] elements. *)
Definition slice_0_neg {A} (n : nat) (arr : list A) : list A :=
  firstn (length arr - n) arr.

(** The class [\s] of a regular expression: WhiteSpace and LineTerminator
    code points of ECMAScript. *)
Definition is_whitespace (c : code_unit) : bool :=
  ((9 <=? c) && (c <=? 13) || (c =? 32) || (c =? 160) || (c =? 5760)
   || (8192 <=? c) && (c <=? 8202) || (c =? 8232) || (c =? 8233)
   || (c =? 8239) || (c =? 8287) || (c =? 12288) || (c =? 65279))%N.

Fixpoint drop_while (p : code_unit -> bool) (s : jsstring) : jsstring :=
  match s with
  | [] => []
  | c :: s' => if p c then drop_while p s' else s
  end.

End JsString.
Import JsString.

(* ================================================================== *)
(** ** Plain objects and sets *)
(* ================================================================== *)

Module JsObject.

Definition obj (V : Type) := list (jsstring * V).

Definition is_digit (c : code_unit) : bool := ((48 <=? c) && (c <=? 57))%N.

Fixpoint digits_value (acc : N) (s : jsstring) : option N :=
  match s with
  | [] => Some acc
  | c :: s' =>
      if is_digit c then digits_value (acc * 10 + (c - 48))%N s' else None
  end.

(** An array index is a canonical decimal numeral below [2^32 - 1]:
    properties with such names are enumerated first, in numeric order. *)
Definition array_index (k : jsstring) : option N :=
  match k with
  | [] => None
  | c :: rest =>
      if (N.eqb c 48 && negb (match rest with [] => true | _ => false end))%bool
      then None
      else match digits_value 0 k with
           | Some n => if (n <? 4294967295)%N then Some n else None
           | None => None
           end
  end.

(** The name of the accessor property of [Object.prototype]. *)
Definition PROTO : jsstring := lit "__proto__".

(** [Object.getOwnPropertyNames(Object.prototype)]: the names every plain
    object inherits. *)
Definition object_prototype_names : list jsstring :=
  [ lit "constructor"; lit "__defineGetter__"; lit "__defineSetter__";
    lit "hasOwnProperty"; lit "__lookupGetter__"; lit "__lookupSetter__";
    lit "isPrototypeOf"; lit "propertyIsEnumerable"; lit "toString";
    lit "valueOf"; PROTO; lit "toLocaleString" ].

Definition inherited (k : jsstring) : bool :=
  existsb (eqb k) object_prototype_names.

(** What [o[k]] reads. *)
Inductive property (V : Type) :=
| own_value (v : V)        (* an own property of [o] *)
| inherited_member         (* a member of [Object.prototype]: not [null] *)
| undefined.
Arguments own_value {V} v.
Arguments inherited_member {V}.
Arguments undefined {V}.

Section Ops.
Context {V : Type}.

(** [Object.keys(o)] *)
Definition keys (o : obj V) : list jsstring := map fst o.

(** [Object.values(o)] *)
Definition values (o : obj V) : list V := map snd o.

(** The own property [k] of [o]: what [o[k]] reads when [k] is one of
    [Object.keys(o)]; [None] when [o] has no own property of this name. *)
Fixpoint get (o : obj V) (k : jsstring) : option V :=
  match o with
  | [] => None
  | (k', v) :: o' => if eqb k' k then Some v else get o' k
  end.

Definition has_own (o : obj V) (k : jsstring) : bool :=
  match get o k with Some _ => true | None => false end.

(** Overwriting an existing property keeps its position. *)
Fixpoint update (o : obj V) (k : jsstring) (v : V) : obj V :=
  match o with
  | [] => []
  | (k', v') :: o' =>
      if eqb k' k then (k', v) :: o' else (k', v') :: update o' k v
  end.

(** A new array-index property goes among the index properties. *)
Fixpoint insert_index (n : N) (k : jsstring) (v : V) (o : obj V) : obj V :=
  match o with
  | [] => [(k, v)]
  | (k', v') :: o' =>
      match array_index k' with
      | Some n' =>
          if (n' <? n)%N then (k', v') :: insert_index n k v o'
          else (k, v) :: o
      | None => (k, v) :: o
      end
  end.

(** Defining the own property [k], as [{ ...o, [k]: v }] and [JSON.parse]
    do, whatever the name. *)
Definition set (o : obj V) (k : jsstring) (v : V) : obj V :=
  if has_own o k then update o k v
  else match array_index k with
       | Some n => insert_index n k v o
       | None => o ++ [(k, v)]
       end.

(** [delete o[k]] *)
Definition delete (o : obj V) (k : jsstring) : obj V :=
  filter (fun e => negb (eqb (fst e) k)) o.

(** The object [JSON.parse] builds from members listed in this order. *)
Definition of_entries (l : list (jsstring * V)) : obj V :=
  fold_left (fun acc e => set acc (fst e) (snd e)) l [].

(** [o[k] = v] for a value [v] that is not an object. An own property is
    overwritten, a new name becomes an own property, except [__proto__]:
    when it is not an own property the assignment calls the setter of
    [Object.prototype.__proto__], which ignores such a value, and [o] is
    left as it was. *)
Definition assign (o : obj V) (k : jsstring) (v : V) : obj V :=
  if has_own o k then update o k v
  else if eqb k PROTO then o
  else set o k v.

(** [o[k]], through the prototype chain. *)
Definition lookup (o : obj V) (k : jsstring) : property V :=
  match get o k with
  | Some v => own_value v
  | None => if inherited k then inherited_member else undefined
  end.

End Ops.

End JsObject.
Import JsObject.

Module JsSet.

(** [Set<string>]: elements in insertion order. *)
Definition jsset := list jsstring.

Definition has (s : jsset) (k : jsstring) : bool :=
  existsb (eqb k) s.

Definition add (s : jsset) (k : jsstring) : jsset :=
  if has s k then s else s ++ [k].

(** [keys.forEach((key) => s.add(key))] on a fresh set. *)
Definition of_keys (ks : list jsstring) : jsset :=
  fold_left add ks [].

End JsSet.
Import JsSet.

(* ================================================================== *)
(** ** Normalizer: [cleanupJson] *)
(* ================================================================== *)

(** [keys.sort()]: insertion into an ascending list. *)
Fixpoint sort_insert (k : jsstring) (l : list jsstring) : list jsstring :=
  match l with
  | [] => [k]
  | h :: t => if leb k h then k :: l else h :: sort_insert k t
  end.

Definition sort (l : list jsstring) : list jsstring :=
  fold_right sort_insert [] l.

(** [value.replace(TAB_REGEX, by)] with [TAB_REGEX = /\t+/g]: every maximal
    run of tabs is replaced. [in_run] tells that the previous code unit was
    a tab of the run being replaced. *)
Fixpoint replace_tab_runs (in_run : bool) (by_ value : jsstring) : jsstring :=
  match value with
  | [] => []
  | c :: rest =>
      if N.eqb c TAB then
        if in_run then replace_tab_runs true by_ rest
        else by_ ++ replace_tab_runs true by_ rest
      else c :: replace_tab_runs false by_ rest
  end.

Definition replace_TAB_REGEX (value by_ : jsstring) : jsstring :=
  replace_tab_runs false by_ value.

(** [value.replace(LEADING_SPACE_REGEX, "")] with
    [LEADING_SPACE_REGEX = /^\s+/g]. *)
Definition replace_LEADING_SPACE_REGEX (value : jsstring) : jsstring :=
  drop_while is_whitespace value.

(** [value.replace(TRAILING_SPACE_REGEX, "")] with
    [TRAILING_SPACE_REGEX = /\s+$/g]. *)
Definition replace_TRAILING_SPACE_REGEX (value : jsstring) : jsstring :=
  rev (drop_while is_whitespace (rev value)).

(** The body of the reducer of [cleanupJson] between [let value] and the
    [return]. *)
Definition cleanValue (value : jsstring) : jsstring :=
  let value :=
    if includes value [TAB] then replace_TAB_REGEX value [SPACE] else value in
  let value :=
    if startsWith value [SPACE] then replace_LEADING_SPACE_REGEX value
    else value in
  let value :=
    if endsWith value [SPACE] then replace_TRAILING_SPACE_REGEX value
    else value in
  value.

Definition cleanupJson_step (json : obj jsstring) (allowedKeys : jsset)
    (acc : obj jsstring) (key : jsstring) : obj jsstring :=
  if negb (has allowedKeys key) then acc
  else match get json key with
       | Some value => set acc key (cleanValue value)
       | None => acc (* not reached: [key] comes from [Object.keys(json)] *)
       end.

Definition cleanupJson (json : obj jsstring) (allowedKeys : jsset)
    : obj jsstring :=
  let keys := sort (keys json) in
  fold_left (cleanupJson_step json allowedKeys) keys [].



(** The value clean-up as the specification words it: every run of tabs
    becomes one space, then all leading and all trailing whitespace goes. *)
Definition normalize_value_spec (value : jsstring) : jsstring :=
  replace_TRAILING_SPACE_REGEX
    (replace_LEADING_SPACE_REGEX (replace_TAB_REGEX value [SPACE])).

(** The value clean-up with the guards of the source on the two trimming
    steps: each one runs only when the value starts, respectively ends, with
    the space character U+0020. *)
Definition normalize_value_guarded (value : jsstring) : jsstring :=
  let collapsed := replace_TAB_REGEX value [SPACE] in
  let left :=
    match collapsed with
    | c :: _ => if N.eqb c SPACE then replace_LEADING_SPACE_REGEX collapsed
                else collapsed
    | [] => collapsed
    end in
  match rev left with
  | c :: _ => if N.eqb c SPACE then replace_TRAILING_SPACE_REGEX left else left
  | [] => left
  end.

(** A whitespace code unit that is neither a space nor a tab. *)
Definition is_other_whitespace (c : code_unit) : bool :=
  is_whitespace c && negb (N.eqb c SPACE) && negb (N.eqb c TAB).

Definition head_is (p : code_unit -> bool) (s : jsstring) : bool :=
  match s with c :: _ => p c | [] => false end.

(** The keys on which the reducer of [cleanupJson] changes the accumulator,
    each at its first occurrence in [l]. *)
Fixpoint effective_keys (json : obj jsstring) (allowedKeys : jsset)
    (seen l : list jsstring) : list jsstring :=
  match l with
  | [] => []
  | k :: t =>
      if has allowedKeys k && has_own json k && negb (has seen k)
      then k :: effective_keys json allowedKeys (k :: seen) t
      else effective_keys json allowedKeys seen t
  end.

(* ================================================================== *)
(** ** Reconciler: the merge inside [pullProject] *)
(* ================================================================== *)

(** [pulledLocales]: one locale map per locale code. *)
Definition bundle := obj (obj jsstring).

(** [Object.keys(localTranslations).filter((key) => !pulledKeys.has(key))] *)
Definition locallyAddedKeys (localTranslations pulledDefaultLocale : obj jsstring)
    : list jsstring :=
  let pulledKeys := of_keys (keys pulledDefaultLocale) in
  filter (fun key => negb (has pulledKeys key)) (keys localTranslations).

(** [[...pulledKeys].filter((key) => !localKeys.has(key))] *)
Definition locallyRemovedKeys (localTranslations pulledDefaultLocale : obj jsstring)
    : list jsstring :=
  let localKeys := of_keys (keys localTranslations) in
  let pulledKeys := of_keys (keys pulledDefaultLocale) in
  filter (fun key => negb (has localKeys key)) pulledKeys.

(** [pulledDefaultLocale[key] = localTranslations[key]], where
    [pulledDefaultLocale] is an own property of the bundle. The variable is
    the very object stored in [pulledLocales[defaultLocale]], so the
    assignment changes that entry of the bundle, in place. *)
Definition assign_added (defaultLocale : jsstring)
    (localTranslations : obj jsstring) (pulledLocales : bundle)
    (key : jsstring) : bundle :=
  match get pulledLocales defaultLocale, get localTranslations key with
  | Some pulledDefaultLocale, Some value =>
      update pulledLocales defaultLocale (assign pulledDefaultLocale key value)
  | _, _ => pulledLocales
  end.

(** [Object.values(pulledLocales).forEach((json) => { delete json[key] })] *)
Definition delete_everywhere (pulledLocales : bundle) (key : jsstring)
    : bundle :=
  map (fun entry => (fst entry, delete (snd entry) key)) pulledLocales.

(** Lines 171 to 191 of [pullProject], where [pulledDefaultLocale] is the
    locale map the bundle holds for the default locale. *)
Definition merge (defaultLocale : jsstring)
    (localTranslations : obj jsstring) (pulledLocales : bundle)
    (pulledDefaultLocale : obj jsstring) : bundle :=
  let added := locallyAddedKeys localTranslations pulledDefaultLocale in
  let removed := locallyRemovedKeys localTranslations pulledDefaultLocale in
  let pulledLocales :=
    fold_left (assign_added defaultLocale localTranslations)
              added pulledLocales in
  fold_left delete_everywhere removed pulledLocales.

(** The bundle after lines 158 to 191 of [pullProject], when
    [pulledLocales[project.defaultLocale]] is a locale map of the bundle.
    [None] covers the two other cases of the lookup, which [pullProject]
    tells apart: [undefined], where the function returns early, and a member
    of [Object.prototype], where it does not. *)
Definition reconcile (defaultLocale : jsstring)
    (localTranslations : obj jsstring) (pulledLocales : bundle)
    : option bundle :=
  match lookup pulledLocales defaultLocale with
  | own_value pulledDefaultLocale =>
      Some (merge defaultLocale localTranslations pulledLocales
                  pulledDefaultLocale)
  | inherited_member => None
  | undefined => None
  end.

(** The additions, seen from the default-locale map alone. *)
Definition seed_added (localTranslations json : obj jsstring)
    (key : jsstring) : obj jsstring :=
  match get localTranslations key with
  | Some value => assign json key value
  | None => json
  end.

(* ================================================================== *)
(** ** Usage scanner: [findUnusedInProject] *)
(* ================================================================== *)

(** [key.split(".").slice(0, -n).join(".") + ".${"] *)
Definition variantKey (n : nat) (key : jsstring) : jsstring :=
  join [DOT] (slice_0_neg n (split DOT key)) ++ lit ".${".

(** The predicate given to [refrenceKeys.filter]. *)
Definition is_unused (code key : jsstring) : bool :=
  (* when the last part is variable *)
  let variantKey1 := variantKey 1 key in
  (* when the 2 last parts are variable *)
  let variantKey2 := variantKey 2 key in
  negb (includes code (DQUOTE :: key ++ [DQUOTE])) &&
  negb (includes code (BACKTICK :: key ++ [BACKTICK])) &&
  negb (includes code (SQUOTE :: key ++ [SQUOTE])) &&
  negb (includes code (BACKTICK :: variantKey1)) &&
  negb (includes code (BACKTICK :: variantKey2)).

Record scan_result := {
  keptKeys : jsset;
  unusedKeys : list jsstring;
}.

(** The classification [findUnusedInProject] returns for the source text
    [code] and the keys of the reference locale. *)
Definition findUnused (code : jsstring) (refrenceKeys : list jsstring)
    : scan_result :=
  let unusedKeys := filter (is_unused code) refrenceKeys in
  {| keptKeys :=
       of_keys (filter (fun item => negb (has unusedKeys item)) refrenceKeys);
     unusedKeys := unusedKeys |}.

(** [code.includes(needle)], as a statement. *)
Definition Contains (code needle : jsstring) : Prop :=
  exists before after, code = before ++ needle ++ after.

(** A key counts as used when the source text has it between double
    quotes, backticks or single quotes, or has a backtick followed by one of
    the two suffix variants [k1], [k2] of the key. *)
Definition Used (code k k1 k2 : jsstring) : Prop :=
  Contains code (DQUOTE :: k ++ [DQUOTE]) \/
  Contains code (BACKTICK :: k ++ [BACKTICK]) \/
  Contains code (SQUOTE :: k ++ [SQUOTE]) \/
  Contains code (BACKTICK :: k1) \/
  Contains code (BACKTICK :: k2).

(* ================================================================== *)
(** ** Serialisation: [JSON.stringify(json, null, space)] *)
(* ================================================================== *)

Definition hex_digit (n : N) : code_unit :=
  (if n <? 10 then 48 + n else 87 + n)%N.

(** [\uXXXX] with lowercase hexadecimal digits. *)
Definition unicode_escape (c : code_unit) : jsstring :=
  [BACKSLASH; 117%N;
   hex_digit (c / 4096 mod 16); hex_digit (c / 256 mod 16);
   hex_digit (c / 16 mod 16); hex_digit (c mod 16)].

Definition is_high_surrogate (c : code_unit) : bool :=
  ((55296 <=? c) && (c <=? 56319))%N.

Definition is_low_surrogate (c : code_unit) : bool :=
  ((56320 <=? c) && (c <=? 57343))%N.

(** The characters of a quoted JSON string, between the quotes. *)
Fixpoint quote_units (s : jsstring) : jsstring :=
  match s with
  | [] => []
  | c :: rest =>
      if N.eqb c 8 then lit "\b" ++ quote_units rest
      else if N.eqb c 9 then lit "\t" ++ quote_units rest
      else if N.eqb c 10 then lit "\n" ++ quote_units rest
      else if N.eqb c 12 then lit "\f" ++ quote_units rest
      else if N.eqb c 13 then lit "\r" ++ quote_units rest
      else if N.eqb c DQUOTE then [BACKSLASH; DQUOTE] ++ quote_units rest
      else if N.eqb c BACKSLASH then [BACKSLASH; BACKSLASH] ++ quote_units rest
      else if (c <? 32)%N then unicode_escape c ++ quote_units rest
      else if is_high_surrogate c then
        match rest with
        | c' :: rest' =>
            if is_low_surrogate c' then c :: c' :: quote_units rest'
            else unicode_escape c ++ quote_units rest
        | [] => unicode_escape c
        end
      else if is_low_surrogate c then unicode_escape c ++ quote_units rest
      else c :: quote_units rest
  end.

Definition quote (s : jsstring) : jsstring :=
  DQUOTE :: quote_units s ++ [DQUOTE].

(** One member of the object: [ "key": "value" ]. The space after the colon
    is there when the output is indented. *)
Definition member (gap : jsstring) (entry : jsstring * jsstring) : jsstring :=
  quote (fst entry) ++ lit ":"
  ++ (match gap with [] => [] | _ => [SPACE] end) ++ quote (snd entry).

(** [JSON.stringify(json, null, space)] for a flat object of strings. *)
Definition JSON_stringify (json : obj jsstring) (space : nat) : jsstring :=
  let gap := repeat SPACE (Nat.min 10 space) in
  match json with
  | [] => lit "{}"
  | _ =>
      match gap with
      | [] => lit "{" ++ join (lit ",") (map (member gap) json) ++ lit "}"
      | _ =>
          lit "{" ++ [LF] ++ gap
          ++ join (lit "," ++ [LF] ++ gap) (map (member gap) json)
          ++ [LF] ++ lit "}"
      end
  end.

(* ================================================================== *)
(** ** Projects, platform and world *)
(* ================================================================== *)

Record Paths := { src : jsstring; locales : jsstring }.

Record Project := {
  name : jsstring;
  id : jsstring;
  defaultLocale : jsstring;
  paths : Paths;
}.

(** What the program takes from its platform and from the remote service. *)
Record Platform := {
  (** [JSON.parse] on the text of a locale file; [None] when it throws. *)
  JSON_parse : jsstring -> option (obj jsstring);
  (** [parse] of the ICU message-format parser: the error it throws, if
      any. *)
  icu_parse : jsstring -> option jsstring;
  (** The object [pulledLocales] built from the unpacked archive of
      [lokaliseApi.files().download]: one locale map per file of the
      archive, none of which is named [__proto__.json]; [None] when the
      download fails. *)
  download : Project -> option bundle;
  (** [lokaliseApi.files().upload(project.id, { filename, data })]: does it
      succeed? *)
  upload : jsstring -> jsstring -> jsstring -> bool;
  (** [os.EOL] *)
  os_EOL : jsstring;
}.

(** The lines the program prints. *)
Inductive output :=
| log_project_name (project : jsstring)      (* chalk.blue(project.name) *)
| log_separator                              (* chalk.gray("---") *)
| log_blank                                  (* console.log("") *)
| error_missing_default_locale (project : jsstring)
| log_pulled (project file : jsstring)       (* `${displayFilePath} pulled` *)
| log_cleaned (project file : jsstring)      (* `${displayFilePath} cleaned` *)
| log_errors (project file : jsstring)       (* `${filePath} errors` *)
| log_key_error (key error : jsstring)       (* `  ${key}: ${error}` *)
| log_uploaded (project localeName : jsstring).

(** The files of one directory, by name. *)
Definition directory := list (jsstring * jsstring).

(** The state outside the program. The directory
    [packages/<name>/src/locales] of the working directory is looked up by
    project name. [writes] records every call of [fs.writeFileSync]: project
    name, file name and content, oldest first. *)
Record world := {
  locale_dirs : list (jsstring * directory);
  writes : list (jsstring * jsstring * jsstring);
  console : list output;
  uploads : list (jsstring * jsstring * jsstring);
}.

(** How a computation ends: it returns, the process exits, or an exception
    escapes. [Astray] ends what is followed of a run that goes on with a
    built-in object of the runtime where the program expects a locale map:
    what such a run does next depends on the state of the built-in objects,
    which [world] does not hold. *)
Inductive outcome (A : Type) :=
| Returned (a : A) (w : world)
| Exited (code : N) (w : world)
| Thrown (w : world)
| Astray (w : world).
Arguments Returned {A} a w.
Arguments Exited {A} code w.
Arguments Thrown {A} w.
Arguments Astray {A} w.

Definition M (A : Type) := world -> outcome A.

Definition ret {A} (a : A) : M A := fun w => Returned a w.

Definition bind {A B} (m : M A) (f : A -> M B) : M B :=
  fun w =>
    match m w with
    | Returned a w' => f a w'
    | Exited code w' => Exited code w'
    | Thrown w' => Thrown w'
    | Astray w' => Astray w'
    end.

Notation "x <- m ;; k" := (bind m (fun x => k))
  (at level 61, m at next level, right associativity).
Notation "m ;; k" := (bind m (fun _ => k))
  (at level 61, right associativity).

Definition throw {A} : M A := fun w => Thrown w.

Definition astray {A} : M A := fun w => Astray w.

(** [process.exit(code)] *)
Definition process_exit {A} (code : N) : M A := fun w => Exited code w.

(** [console.log] and [console.error] *)
Definition console_log (o : output) : M unit :=
  fun w =>
    Returned tt {| locale_dirs := locale_dirs w; writes := writes w;
                   console := console w ++ [o]; uploads := uploads w |}.

(** [fs.readFileSync(path.join(localesDir, file), "utf-8")] *)
Definition readFileSync (project file : jsstring) : M jsstring :=
  fun w =>
    match get (locale_dirs w) project with
    | Some dir =>
        match get dir file with
        | Some content => Returned content w
        | None => Thrown w
        end
    | None => Thrown w
    end.

(** [fs.readdirSync(localesDir)] *)
Definition readdirSync (project : jsstring) : M (list jsstring) :=
  fun w =>
    match get (locale_dirs w) project with
    | Some dir => Returned (keys dir) w
    | None => Thrown w
    end.

Definition put_file (dir : directory) (file content : jsstring) : directory :=
  if has_own dir file then update dir file content
  else dir ++ [(file, content)].

(** [fs.writeFileSync(path.join(localesDir, file), content, "utf-8")] *)
Definition writeFileSync (project file content : jsstring) : M unit :=
  fun w =>
    match get (locale_dirs w) project with
    | Some dir =>
        Returned tt
          {| locale_dirs :=
               update (locale_dirs w) project (put_file dir file content);
             writes := writes w ++ [(project, file, content)];
             console := console w; uploads := uploads w |}
    | None => Thrown w
    end.

(** [list.forEach(f)], and [for (const x of list) { await f(x) }] *)
Fixpoint forEach {A} (l : list A) (f : A -> M unit) : M unit :=
  match l with
  | [] => ret tt
  | x :: rest => f x ;; forEach rest f
  end.

(** [path.extname(item) === ".json"] on a file name. *)
Definition has_json_extname (item : jsstring) : bool :=
  endsWith item (lit ".json") && (5 <? length item).

(** [path.basename(file, ".json")] on a file name that has this
    extension. *)
Definition basename_json (file : jsstring) : jsstring :=
  firstn (length file - 5) file.

(* ================================================================== *)
(** ** Orchestrator *)
(* ================================================================== *)

Section Program.
Variable platform : Platform.

(** [JSON.parse(text)], which throws on malformed text. *)
Definition parse_json (text : jsstring) : M (obj jsstring) :=
  match JSON_parse platform text with
  | Some json => ret json
  | None => throw
  end.

(** [JSON.stringify(json, null, 2) + os.EOL] *)
Definition serialize (json : obj jsstring) : jsstring :=
  JSON_stringify json 2 ++ os_EOL platform.

(** [lintLocalesFile]: the keys whose message does not parse, with the
    error; [None] stands for [null]. *)
Definition lintLocalesFile (json : obj jsstring)
    : option (list (jsstring * jsstring)) :=
  let errors :=
    flat_map (fun entry =>
                match icu_parse platform (snd entry) with
                | Some error => [(fst entry, error)]
                | None => []
                end) json in
  match errors with
  | [] => None
  | _ => Some errors
  end.

(** The loop of [lintProject] over the locale files, with its variable
    [isOk]. *)
Fixpoint lint_files (project : jsstring) (files : list jsstring)
    (isOk : bool) : M bool :=
  match files with
  | [] => ret isOk
  | locale :: rest =>
      text <- readFileSync project locale ;;
      locales <- parse_json text ;;
      match lintLocalesFile locales with
      | Some errors =>
          console_log (log_errors project locale) ;;
          forEach errors
            (fun e => console_log (log_key_error (fst e) (snd e))) ;;
          lint_files project rest false
      | None => lint_files project rest isOk
      end
  end.

Definition lintProject (project : Project) : M bool :=
  files <- readdirSync (name project) ;;
  lint_files (name project) (filter has_json_extname files) true.

(** The body of the loop of [cleanupProject] for one file. *)
Definition cleanup_file (project : jsstring) (allowedKeys : jsset)
    (locale : jsstring) : M unit :=
  rawFile <- readFileSync project locale ;;
  json <- parse_json rawFile ;;
  let cleanJson := cleanupJson json allowedKeys in
  console_log (log_cleaned project locale) ;;
  let nextRawFile := serialize cleanJson in
  if negb (eqb rawFile nextRawFile)
  then writeFileSync project locale (serialize cleanJson)
  else ret tt.

Definition cleanupProject (project : Project) : M unit :=
  text <- readFileSync (name project) (lit "en.json") ;;
  referenceJson <- parse_json text ;;
  let allowedKeys := of_keys (keys referenceJson) in
  files <- readdirSync (name project) ;;
  forEach (filter has_json_extname files)
          (cleanup_file (name project) allowedKeys).

(** The body of the loop of [pullProject] that writes the translation
    files. *)
Definition write_pulled (project : jsstring)
    (entry : jsstring * obj jsstring) : M unit :=
  let localeName := fst entry in
  let json := snd entry in
  console_log (log_pulled project (localeName ++ lit ".json")) ;;
  writeFileSync project (localeName ++ lit ".json") (serialize json).

Definition pullProject (project : Project) : M unit :=
  text <- readFileSync (name project) (lit "en.json") ;;
  localTranslations <- parse_json text ;;
  match download platform project with
  | None => throw
  | Some pulledLocales =>
      match lookup pulledLocales (defaultLocale project) with
      | undefined =>
          console_log (error_missing_default_locale (name project)) ;;
          ret tt
      | inherited_member =>
          (* [pulledDefaultLocale] is a function of [Object.prototype], or
             [Object.prototype] itself: it is not [null], and the run goes
             on assigning the local keys to it. *)
          astray
      | own_value pulledDefaultLocale =>
          let pulledLocales :=
            merge (defaultLocale project) localTranslations pulledLocales
                  pulledDefaultLocale in
          forEach pulledLocales (write_pulled (name project)) ;;
          console_log log_blank ;;
          cleanupProject project ;;
          console_log log_blank ;;
          isOk <- lintProject project ;;
          if negb isOk then process_exit 1 else ret tt
      end
  end.

(** The body of the upload loop of [pushProject]. *)
Definition upload_file (project : Project) (file : jsstring) : M unit :=
  let localeName := basename_json file in
  text <- readFileSync (name project) (localeName ++ lit ".json") ;;
  (fun w =>
     if upload platform (id project) (localeName ++ lit ".json") text
     then Returned tt
            {| locale_dirs := locale_dirs w; writes := writes w;
               console := console w;
               uploads := uploads w ++ [(id project, localeName, text)] |}
     else Thrown w) ;;
  console_log (log_uploaded (name project) localeName).

Definition pushProject (project : Project) : M unit :=
  cleanupProject project ;;
  console_log log_blank ;;
  isOk <- lintProject project ;;
  (if negb isOk then process_exit 1 else ret tt) ;;
  console_log log_blank ;;
  files <- readdirSync (name project) ;;
  forEach (filter has_json_extname files) (upload_file project).

(** [onlyKeepKeysInJson], on a file of the locales directory. *)
Definition onlyKeepKeysInJson (project file : jsstring) (keysToKeep : jsset)
    : M unit :=
  text <- readFileSync project file ;;
  json <- parse_json text ;;
  let jsonWithoutKeys :=
    fold_left (fun acc key =>
                 if has keysToKeep key
                 then match get json key with
                      | Some value => assign acc key value
                      | None => acc
                      end
                 else acc)
              (keys json) [] in
  writeFileSync project file (serialize jsonWithoutKeys) ;;
  console_log (log_cleaned project file).

(** The body of the loop of a command, around the work on one project. *)
Definition with_heading (work : Project -> M unit) (project : Project)
    : M unit :=
  console_log (log_project_name (name project)) ;;
  console_log log_separator ;;
  work project ;;
  console_log log_blank ;;
  console_log log_blank.

(** [lokalise pull] *)
Definition pull_command (projects : list Project) : M unit :=
  forEach projects (with_heading pullProject).

(** [lokalise push] *)
Definition push_command (projects : list Project) : M unit :=
  forEach projects (with_heading pushProject).

(** [lokalise clean] *)
Definition clean_command (projects : list Project) : M unit :=
  forEach projects (with_heading cleanupProject).

(** The loop of [lokalise lint], with its variable [hasError]. *)
Fixpoint lint_projects (projects : list Project) (hasError : bool) : M bool :=
  match projects with
  | [] => ret hasError
  | project :: rest =>
      isOk <- lintProject project ;;
      if negb isOk
      then console_log log_blank ;; console_log log_blank ;;
           lint_projects rest true
      else lint_projects rest hasError
  end.

(** [lokalise lint] *)
Definition lint_command (projects : list Project) : M unit :=
  hasError <- lint_projects projects false ;;
  if hasError then process_exit 1 else ret tt.

End Program.

(** The world a computation ends in. *)
Definition final_world {A} (o : outcome A) : world :=
  match o with
  | Returned _ w => w
  | Exited _ w => w
  | Thrown w => w
  | Astray w => w
  end.

(** Adding lines to the console. *)
Definition printed (w : world) (lines : list output) : world :=
  {| locale_dirs := locale_dirs w; writes := writes w;
     console := console w ++ lines; uploads := uploads w |}.

(* ================================================================== *)
(** ** A reader for locale files *)
(* ================================================================== *)

(** The fragment of [JSON.parse] the sample worlds below need: an object
    whose members are strings without escape sequences, with optional
    whitespace between the tokens. Everything else is refused. *)
Definition is_json_space (c : code_unit) : bool :=
  (N.eqb c 32 || N.eqb c 9 || N.eqb c 10 || N.eqb c 13)%bool.

(** The characters up to the closing quote, and what follows it. *)
Fixpoint read_string (s : jsstring) : option (jsstring * jsstring) :=
  match s with
  | [] => None
  | c :: rest =>
      if N.eqb c DQUOTE then Some ([], rest)
      else if (N.eqb c BACKSLASH || (c <? 32)%N)%bool then None
      else match read_string rest with
           | Some (str, rest') => Some (c :: str, rest')
           | None => None
           end
  end.

Definition read_quoted (s : jsstring) : option (jsstring * jsstring) :=
  match drop_while is_json_space s with
  | c :: rest => if N.eqb c DQUOTE then read_string rest else None
  | [] => None
  end.

Definition read_char (c : code_unit) (s : jsstring) : option jsstring :=
  match drop_while is_json_space s with
  | c' :: rest => if N.eqb c' c then Some rest else None
  | [] => None
  end.

Fixpoint read_members (fuel : nat) (s : jsstring) (acc : obj jsstring)
    : option (obj jsstring) :=
  match fuel with
  | O => None
  | S fuel' =>
      match read_quoted s with
      | None => None
      | Some (key, s1) =>
          match read_char 58%N s1 with
          | None => None
          | Some s2 =>
              match read_quoted s2 with
              | None => None
              | Some (value, s3) =>
                  let acc := set acc key value in
                  match read_char 44%N s3 with
                  | Some s4 => read_members fuel' s4 acc
                  | None =>
                      match read_char 125%N s3 with
                      | Some s4 =>
                          match drop_while is_json_space s4 with
                          | [] => Some acc
                          | _ => None
                          end
                      | None => None
                      end
                  end
              end
          end
      end
  end.

Definition read_flat_json (text : jsstring) : option (obj jsstring) :=
  match read_char 123%N text with
  | None => None
  | Some s1 =>
      match read_char 125%N s1 with
      | Some s2 =>
          match drop_while is_json_space s2 with
          | [] => Some []
          | _ => None
          end
      | None => read_members (length text) s1 []
      end
  end.

(* ================================================================== *)
(** ** Properties of computations *)
(* ================================================================== *)

(** The computation [m] never ends the process. *)
Definition never_exits {A} (m : M A) : Prop :=
  forall w code w', m w <> Exited code w'.

(** Whatever way [m] ends, the world it ends in is related by [R] to the
    world it started in. *)
Definition preserves (R : world -> world -> Prop) {A} (m : M A) : Prop :=
  forall w, R w (final_world (m w)).

(** The calls of [writeFileSync] made so far are still there, in order. *)
Definition grows (w w' : world) : Prop :=
  exists more, writes w' = writes w ++ more.

(** No file was written or changed. *)
Definition untouched (w w' : world) : Prop :=
  writes w' = writes w /\ locale_dirs w' = locale_dirs w.

(* ================================================================== *)
(** ** Further notions *)
(* ================================================================== *)

(** A value the normalizer has nothing to do on: no tab, no space at
    either end. *)
Definition is_clean (value : jsstring) : Prop :=
  ~ In TAB value /\
  startsWith value [SPACE] = false /\
  endsWith value [SPACE] = false.

(** The object [onlyKeepKeysInJson] builds before it writes the file. *)
Definition jsonWithoutKeys (json : obj jsstring) (keysToKeep : jsset)
    : obj jsstring :=
  fold_left (fun acc key =>
               if has keysToKeep key
               then match get json key with
                    | Some value => assign acc key value
                    | None => acc
                    end
               else acc)
            (keys json) [].

(** The text [findUnusedInProject] searches: the source files one after the
    other, each followed by [os.EOL]. *)
Definition source_text (EOL : jsstring) (files : list jsstring) : jsstring :=
  fold_left (fun acc file => acc ++ file ++ EOL) files [].

(** One locale file is there, parses, and has no message in error. *)
Definition file_lints (platform : Platform) (dir : directory)
    (file : jsstring) : bool :=
  match get dir file with
  | Some text =>
      match JSON_parse platform text with
      | Some json =>
          match lintLocalesFile platform json with
          | None => true
          | Some _ => false
          end
      | None => false
      end
  | None => false
  end.

(** Only files of the project [p] were written; the directories of the
    other projects are as they were. *)
Definition confined_to (p : jsstring) (w w' : world) : Prop :=
  (forall q, q <> p -> get (locale_dirs w') q = get (locale_dirs w) q) /\
  exists more,
    writes w' = writes w ++ more /\
    Forall (fun entry => fst (fst entry) = p) more.

(** Nothing was uploaded. *)
Definition same_uploads (w w' : world) : Prop := uploads w' = uploads w.

(** The reference map [cleanupProject] and [pullProject] start from: the
    parsed [en.json] of the project, if the file is there and parses. *)
Definition reference_of (platform : Platform) (project : Project)
    (w : world) : option (obj jsstring) :=
  match get (locale_dirs w) (name project) with
  | Some dir =>
      match get dir (lit "en.json") with
      | Some text => JSON_parse platform text
      | None => None
      end
  | None => None
  end.

(** The text of a locale file of a project, if there is one. *)
Definition file_text (w : world) (project file : jsstring) : option jsstring :=
  match get (locale_dirs w) project with
  | Some dir => get dir file
  | None => None
  end.

(** The text [cleanupProject] wants in a locale file: the serialised normal
    form of what the file holds now. *)
Definition normal_text (platform : Platform) (allowedKeys : jsset)
    (dir : directory) (file : jsstring) : option jsstring :=
  match get dir file with
  | Some text =>
      match JSON_parse platform text with
      | Some json => Some (serialize platform (cleanupJson json allowedKeys))
      | None => None
      end
  | None => None
  end.

(** On the normal form of every [.json] file of the directory, parsing
    undoes serialising. *)
Definition normal_forms_parse_back (platform : Platform)
    (allowedKeys : jsset) (dir : directory) : Prop :=
  forall file text,
    has_json_extname file = true -> get dir file = Some text ->
    exists json,
      JSON_parse platform text = Some json /\
      JSON_parse platform (serialize platform (cleanupJson json allowedKeys))
      = Some (cleanupJson json allowedKeys).

(* ================================================================== *)
(** ** Sample data *)
(* ================================================================== *)

Definition tab_hello_space_tab : jsstring :=
  TAB :: lit "Hello " ++ [TAB].

Definition newline_hello : jsstring := LF :: lit "Hello".

(** The object [{ "10": "ten", "9": "nine" }]. *)
Definition nine_and_ten : obj jsstring :=
  of_entries [(lit "10", lit "ten"); (lit "9", lit "nine")].

(** The local reference [{ "a": "A", "b": "B" }] with the remote bundle
    [{ en: { "a": "A" }, fr: { "a": "A2" } }]: the key [b] is newly born. *)
Definition added_local : obj jsstring :=
  of_entries [(lit "a", lit "A"); (lit "b", lit "B")].

Definition added_bundle : bundle :=
  of_entries [(lit "en", of_entries [(lit "a", lit "A")]);
              (lit "fr", of_entries [(lit "a", lit "A2")])].

(** The local reference [{ "a": "A", "c": "C" }] with the remote bundle
    [{ en: { "a": "A", "b": "B" }, fr: { "a": "A2", "b": "B2" } }]: the key
    [b] is retired and the key [c] is newly born. *)
Definition mixed_local : obj jsstring :=
  of_entries [(lit "a", lit "A"); (lit "c", lit "C")].

Definition mixed_bundle : bundle :=
  of_entries [(lit "en", of_entries [(lit "a", lit "A"); (lit "b", lit "B")]);
              (lit "fr", of_entries [(lit "a", lit "A2"); (lit "b", lit "B2")])].

(** The local reference parsed from [{ "a": "A", "__proto__": "P" }], where
    [__proto__] is an own property like any other, with the remote bundle
    [{ en: { "a": "A" } }]. *)
Definition proto_local : obj jsstring :=
  of_entries [(lit "a", lit "A"); (PROTO, lit "P")].

Definition proto_bundle : bundle :=
  of_entries [(lit "en", of_entries [(lit "a", lit "A")])].

(** A source text that builds a key from a template literal. *)
Definition template_code : jsstring := lit "t(`items.${field}`)".

(** A source text with a template literal that starts with an
    interpolated segment. *)
Definition bare_variant_code : jsstring := lit "const label = `.${suffix}`".

(** A platform for the sample worlds: locale files are read by
    [read_flat_json], a message with an opening brace and no closing one is
    refused, and the line terminator is the line feed. *)
Definition sample_icu_parse (message : jsstring) : option jsstring :=
  if includes message (lit "{") && negb (includes message (lit "}"))
  then Some (lit "EXPECT_ARGUMENT_CLOSING_BRACE")
  else None.

Definition web : Project :=
  {| name := lit "web"; id := lit "1234.web"; defaultLocale := lit "en";
     paths := {| src := lit "/repo/packages/web/src";
                 locales := lit "/repo/packages/web/src/locales" |} |}.

Definition admin : Project :=
  {| name := lit "admin"; id := lit "1234.admin"; defaultLocale := lit "en";
     paths := {| src := lit "/repo/packages/admin/src";
                 locales := lit "/repo/packages/admin/src/locales" |} |}.

(** [admin], set up with a default locale that is the name of a member
    of [Object.prototype]. *)
Definition admin_constructor : Project :=
  {| name := lit "admin"; id := lit "1234.admin";
     defaultLocale := lit "constructor";
     paths := {| src := lit "/repo/packages/admin/src";
                 locales := lit "/repo/packages/admin/src/locales" |} |}.

(** The remote has [{ en: { "a": "A" }, fr: { "a": "A2" } }] for [web] and
    only a French map for [admin]. *)
Definition sample_download (project : Project) : option bundle :=
  if eqb (name project) (lit "web") then Some added_bundle
  else if eqb (name project) (lit "admin")
       then Some (of_entries [(lit "fr", of_entries [(lit "a", lit "A2")])])
       else None.

Definition sample_platform : Platform :=
  {| JSON_parse := read_flat_json;
     icu_parse := sample_icu_parse;
     download := sample_download;
     upload := fun _ _ _ => true;
     os_EOL := [LF] |}.

Definition file_of (json : obj jsstring) : jsstring :=
  serialize sample_platform json.

Definition empty_world (dirs : list (jsstring * directory)) : world :=
  {| locale_dirs := dirs; writes := []; console := []; uploads := [] |}.

(** [admin] has a reference file; the remote bundle lacks its default
    locale. *)
Definition admin_world : world :=
  empty_world
    [(lit "admin", [(lit "en.json", file_of [(lit "a", lit "A")])]);
     (lit "web", [(lit "en.json", file_of [(lit "a", lit "A")])])].

(** [web] has the newly written message [b], which lacks its closing brace;
    [admin] is in order. *)
Definition broken_message_world : world :=
  empty_world
    [(lit "web",
      [(lit "en.json",
        file_of [(lit "a", lit "A"); (lit "b", lit "Hello {name")])]);
     (lit "admin", [(lit "en.json", file_of [(lit "a", lit "A")])])].

(** The French file of [web] already holds exactly what the remote has. *)
Definition up_to_date_world : world :=
  empty_world
    [(lit "web",
      [(lit "en.json", file_of [(lit "a", lit "A")]);
       (lit "fr.json", file_of [(lit "a", lit "A2")])])].

(** A map without integer-like keys, in no particular order. *)
Definition unsorted_map : obj jsstring :=
  of_entries [(lit "home.title", lit "Home"); (lit "about", lit " About ");
              (lit "home.count", lit "{n} items")].

(** [web] with a clean English file and a French file whose message [b]
    lacks its closing brace. *)
Definition french_error_world : world :=
  empty_world
    [(lit "web",
      [(lit "en.json", file_of [(lit "a", lit "A"); (lit "b", lit "{n}")]);
       (lit "fr.json",
        file_of [(lit "a", lit "A2"); (lit "b", lit "{n")]);
       (lit "notes.txt", lit "not a locale file")])].

(** [web] has no reference file; [admin] is in order. *)
Definition no_reference_world : world :=
  empty_world
    [(lit "web", [(lit "fr.json", file_of [(lit "a", lit "A2")])]);
     (lit "admin", [(lit "en.json", file_of [(lit "a", lit "A")])])].


(** A French file with a stale key and values to clean. *)
Definition untidy_world : world :=
  empty_world
    [(lit "web",
      [(lit "en.json", file_of [(lit "a", lit "A"); (lit "b", lit "B")]);
       (lit "fr.json",
        file_of [(lit "old", lit "x"); (lit "b", lit " B2 ");
                 (lit "a", lit "A2")])])].

(** [web] with a clean English and a clean French file. *)
Definition tidy_world : world :=
  empty_world
    [(lit "web",
      [(lit "en.json", file_of [(lit "a", lit "A")]);
       (lit "fr.json", file_of [(lit "a", lit "A2")]);
       (lit "README.md", lit "locale files")])].
(* ================================================================== *)
(** ** Facts about strings *)
(* ================================================================== *)

Lemma eqb_eq (a b : jsstring) : eqb a b = true <-> a = b.
Proof.
  revert b; induction a as [|x a IH]; intros [|y b]; simpl; split;
    try congruence; try reflexivity.
  - intros H. apply andb_true_iff in H as [Hx Hab].
    apply N.eqb_eq in Hx. apply IH in Hab. congruence.
  - intros H. injection H as -> ->. rewrite N.eqb_refl. simpl. now apply IH.
Qed.

Lemma eqb_refl (a : jsstring) : eqb a a = true.
Proof. now apply eqb_eq. Qed.

Lemma eqb_neq (a b : jsstring) : eqb a b = false <-> a <> b.
Proof.
  split.
  - intros H E. apply eqb_eq in E. congruence.
  - intros H. destruct (eqb a b) eqn:E; [|reflexivity].
    apply eqb_eq in E. contradiction.
Qed.

Lemma eqb_sym (a b : jsstring) : eqb a b = eqb b a.
Proof.
  destruct (eqb a b) eqn:E.
  - apply eqb_eq in E. subst. now rewrite eqb_refl.
  - symmetry. apply eqb_neq. apply eqb_neq in E. congruence.
Qed.

Lemma compare_eq (a b : jsstring) : compare a b = Eq <-> a = b.
Proof.
  revert b; induction a as [|x a IH]; intros [|y b]; simpl; split;
    try congruence; try reflexivity.
  - destruct (N.compare x y) eqn:E; try discriminate.
    apply N.compare_eq_iff in E. intros H. apply IH in H. congruence.
  - intros H. injection H as -> ->. rewrite N.compare_refl. now apply IH.
Qed.

Lemma compare_antisym (a b : jsstring) : compare b a = CompOpp (compare a b).
Proof.
  revert b; induction a as [|x a IH]; intros [|y b]; simpl; try reflexivity.
  rewrite (N.compare_antisym x y).
  destruct (N.compare x y); simpl; auto.
Qed.

Lemma compare_lt_trans (a b c : jsstring) :
  compare a b = Lt -> compare b c = Lt -> compare a c = Lt.
Proof.
  revert b c; induction a as [|x a IH]; intros [|y b] [|z c]; simpl;
    try congruence.
  destruct (N.compare x y) eqn:Exy; try discriminate;
    destruct (N.compare y z) eqn:Eyz; try discriminate; intros H1 H2.
  - apply N.compare_eq_iff in Exy, Eyz. subst. rewrite N.compare_refl. eauto.
  - apply N.compare_eq_iff in Exy. subst. now rewrite Eyz.
  - apply N.compare_eq_iff in Eyz. subst. now rewrite Exy.
  - rewrite N.compare_lt_iff in Exy, Eyz.
    assert (x < z)%N as Hlt by (eapply N.lt_trans; eassumption).
    apply N.compare_lt_iff in Hlt. now rewrite Hlt.
Qed.

Lemma le_refl (a : jsstring) : le a a.
Proof. unfold le, leb. now rewrite (proj2 (compare_eq a a) eq_refl). Qed.

Lemma le_total (a b : jsstring) : le a b \/ le b a.
Proof.
  unfold le, leb. rewrite (compare_antisym a b).
  destruct (compare a b); simpl; auto.
Qed.

Lemma leb_false_le (a b : jsstring) : leb a b = false -> le b a.
Proof.
  unfold le, leb. rewrite (compare_antisym a b).
  destruct (compare a b); simpl; congruence.
Qed.

Lemma le_antisym (a b : jsstring) : le a b -> le b a -> a = b.
Proof.
  unfold le, leb. rewrite (compare_antisym a b).
  destruct (compare a b) eqn:E; simpl; try discriminate.
  intros _ _. now apply compare_eq.
Qed.

Lemma le_lt_or_eq (a b : jsstring) : le a b <-> lt a b \/ a = b.
Proof.
  unfold le, lt, leb. split.
  - destruct (compare a b) eqn:E; try discriminate; intros _.
    + right. now apply compare_eq.
    + now left.
  - intros [H | ->].
    + now rewrite H.
    + now rewrite (proj2 (compare_eq b b) eq_refl).
Qed.

Lemma le_trans (a b c : jsstring) : le a b -> le b c -> le a c.
Proof.
  rewrite !le_lt_or_eq. intros [H1 | ->] [H2 | ->]; auto.
  left. unfold lt in *. eapply compare_lt_trans; eauto.
Qed.

Lemma lt_irrefl (a : jsstring) : ~ lt a a.
Proof.
  unfold lt. now rewrite (proj2 (compare_eq a a) eq_refl).
Qed.

Lemma lt_le (a b : jsstring) : lt a b -> le a b.
Proof. intros H. apply le_lt_or_eq. now left. Qed.

Lemma lt_not_le (a b : jsstring) : lt a b -> ~ le b a.
Proof.
  unfold lt, le, leb. rewrite (compare_antisym a b). intros ->. discriminate.
Qed.

(** *** Sorting *)

Lemma sort_insert_perm (k : jsstring) (l : list jsstring) :
  Permutation (sort_insert k l) (k :: l).
Proof.
  induction l as [|h t IH]; simpl; [reflexivity|].
  destruct (leb k h); [reflexivity|].
  rewrite IH. apply perm_swap.
Qed.

Lemma sort_perm (l : list jsstring) : Permutation (sort l) l.
Proof.
  induction l as [|h t IH]; simpl; [reflexivity|].
  rewrite sort_insert_perm. now constructor.
Qed.

Lemma sort_insert_sorted (k : jsstring) (l : list jsstring) :
  StronglySorted le l -> StronglySorted le (sort_insert k l).
Proof.
  induction 1 as [|h t Hs IH Hall]; simpl.
  - repeat constructor.
  - destruct (leb k h) eqn:E.
    + constructor; [now constructor|].
      constructor; [exact E|].
      eapply Forall_impl; [|exact Hall]. intros x Hx.
      eapply le_trans; eauto.
    + constructor; [exact IH|].
      eapply Permutation_Forall; [symmetry; apply sort_insert_perm|].
      constructor; [now apply leb_false_le | exact Hall].
Qed.

Lemma sort_sorted (l : list jsstring) : StronglySorted le (sort l).
Proof.
  induction l as [|h t IH]; simpl; [constructor|].
  now apply sort_insert_sorted.
Qed.

(** An ascending list is determined by its elements. *)
Lemma sorted_perm_unique (l1 l2 : list jsstring) :
  StronglySorted le l1 -> StronglySorted le l2 -> Permutation l1 l2 ->
  l1 = l2.
Proof.
  intros H1; revert l2; induction H1 as [|a l1 Hs1 IH Hall1];
    intros l2 H2 HP.
  - apply Permutation_nil in HP. now subst.
  - destruct H2 as [|b l2 Hs2 Hall2].
    + symmetry in HP. apply Permutation_nil in HP. discriminate.
    + assert (a = b) as ->.
      { assert (In a (b :: l2)) as Ha
          by (eapply Permutation_in; [exact HP | now left]).
        assert (In b (a :: l1)) as Hb
          by (eapply Permutation_in; [symmetry; exact HP | now left]).
        rewrite Forall_forall in Hall1, Hall2.
        destruct Ha as [->|Ha]; [reflexivity|].
        destruct Hb as [->|Hb]; [reflexivity|].
        apply le_antisym; auto. }
      f_equal. apply IH; [exact Hs2|].
      eapply Permutation_cons_inv; exact HP.
Qed.

(* ================================================================== *)
(** ** Facts about objects and sets *)
(* ================================================================== *)

Section ObjectFacts.
Context {V : Type}.
Implicit Types (o : obj V) (k : jsstring) (v : V).

Lemma get_Some_In o k v : get o k = Some v -> In (k, v) o.
Proof.
  induction o as [|[k' v'] o IH]; simpl; [discriminate|].
  destruct (eqb k' k) eqn:E.
  - apply eqb_eq in E. intros [= ->]. subst. now left.
  - intros H. right. auto.
Qed.

Lemma In_keys_get o k : In k (keys o) <-> exists v, get o k = Some v.
Proof.
  induction o as [|[k' v'] o IH]; simpl.
  - split; [tauto | intros [v Hv]; discriminate].
  - destruct (eqb k' k) eqn:E.
    + apply eqb_eq in E. split; eauto.
    + apply eqb_neq in E. rewrite <- IH. tauto.
Qed.

Lemma get_None_keys o k : get o k = None <-> ~ In k (keys o).
Proof.
  rewrite In_keys_get. split.
  - intros H [v Hv]. congruence.
  - intros H. destruct (get o k) eqn:E; [|reflexivity].
    exfalso. eauto.
Qed.

Lemma has_own_In o k : has_own o k = true <-> In k (keys o).
Proof.
  unfold has_own. rewrite In_keys_get.
  destruct (get o k); split; eauto; try discriminate.
  intros [v Hv]. discriminate.
Qed.

Lemma has_own_false o k : has_own o k = false <-> get o k = None.
Proof. unfold has_own. destruct (get o k); split; congruence. Qed.

Lemma keys_update o k v : keys (update o k v) = keys o.
Proof.
  induction o as [|[k' v'] o IH]; simpl; [reflexivity|].
  destruct (eqb k' k); simpl; [reflexivity|]. now rewrite IH.
Qed.

Lemma get_update o k v k' :
  get (update o k v) k' =
  if eqb k k' then match get o k with Some _ => Some v | None => None end
  else get o k'.
Proof.
  induction o as [|[k0 v0] o IH]; simpl.
  - now destruct (eqb k k').
  - destruct (eqb k0 k) eqn:E0; simpl.
    + apply eqb_eq in E0. subst k0. now destruct (eqb k k').
    + rewrite IH. destruct (eqb k k') eqn:E.
      * apply eqb_eq in E. subst k'. now rewrite E0.
      * reflexivity.
Qed.

Lemma update_same o k v : get o k = Some v -> update o k v = o.
Proof.
  induction o as [|[k0 v0] o IH]; simpl; [reflexivity|].
  destruct (eqb k0 k).
  - now intros [= ->].
  - intros H. now rewrite IH.
Qed.

Lemma update_update o k v v' :
  update (update o k v) k v' = update o k v'.
Proof.
  induction o as [|[k0 v0] o IH]; simpl; [reflexivity|].
  destruct (eqb k0 k) eqn:E; simpl; rewrite E; [reflexivity|].
  now rewrite IH.
Qed.

Lemma get_app o1 o2 k :
  get (o1 ++ o2) k =
  match get o1 k with Some v => Some v | None => get o2 k end.
Proof.
  induction o1 as [|[k0 v0] o1 IH]; simpl; [reflexivity|].
  now destruct (eqb k0 k).
Qed.

Lemma get_insert_index n o k v k' :
  get o k = None ->
  get (insert_index n k v o) k' = if eqb k k' then Some v else get o k'.
Proof.
  induction o as [|[k0 v0] o IH]; simpl; [reflexivity|].
  destruct (eqb k0 k) eqn:E0; [discriminate|]. intros Hn.
  destruct (array_index k0) as [n0|]; [destruct (n0 <? n)%N|]; simpl;
    try reflexivity.
  rewrite (IH Hn).
  destruct (eqb k0 k') eqn:E1; [|reflexivity].
  apply eqb_eq in E1. subst k'.
  rewrite eqb_sym in E0. now rewrite E0.
Qed.

Lemma insert_index_perm n o k v :
  Permutation (insert_index n k v o) ((k, v) :: o).
Proof.
  induction o as [|[k0 v0] o IH]; simpl; [reflexivity|].
  destruct (array_index k0) as [n0|]; [destruct (n0 <? n)%N|];
    try reflexivity.
  rewrite IH. apply perm_swap.
Qed.

(** The own properties after [{ ...o, [k]: v }]. *)
Lemma get_set o k v k' :
  get (set o k v) k' = if eqb k k' then Some v else get o k'.
Proof.
  unfold set. destruct (has_own o k) eqn:H.
  - rewrite get_update. unfold has_own in H.
    destruct (get o k); [reflexivity | discriminate].
  - apply has_own_false in H.
    destruct (array_index k).
    + now apply get_insert_index.
    + rewrite get_app. simpl.
      destruct (eqb k k') eqn:E.
      * apply eqb_eq in E. subst k'. now rewrite H.
      * now destruct (get o k').
Qed.

Lemma get_set_eq o k v : get (set o k v) k = Some v.
Proof. rewrite get_set. now rewrite eqb_refl. Qed.

Lemma get_set_neq o k v k' : k <> k' -> get (set o k v) k' = get o k'.
Proof. intros H. rewrite get_set. apply eqb_neq in H. now rewrite H. Qed.

Lemma set_same o k v : get o k = Some v -> set o k v = o.
Proof.
  intros H. unfold set, has_own. rewrite H. now apply update_same.
Qed.

Lemma In_keys_set o k v k' :
  In k' (keys (set o k v)) <-> k' = k \/ In k' (keys o).
Proof.
  rewrite !In_keys_get, get_set.
  destruct (eqb k k') eqn:E.
  - apply eqb_eq in E. subst. split; eauto.
  - apply eqb_neq in E. split; [now right|].
    intros [->|H]; [contradiction | exact H].
Qed.

(** A property that is not yet there is added, the others stay. *)
Lemma keys_set_new_perm o k v :
  has_own o k = false -> Permutation (keys (set o k v)) (k :: keys o).
Proof.
  intros H. unfold set. rewrite H. unfold keys.
  destruct (array_index k).
  - change (k :: map fst o) with (map fst ((k, v) :: o)).
    apply Permutation_map, insert_index_perm.
  - rewrite map_app. simpl. symmetry. apply Permutation_cons_append.
Qed.

Lemma NoDup_keys_set o k v : NoDup (keys o) -> NoDup (keys (set o k v)).
Proof.
  intros Hnd. destruct (has_own o k) eqn:H.
  - unfold set. rewrite H. now rewrite keys_update.
  - eapply Permutation_NoDup; [symmetry; now apply keys_set_new_perm|].
    constructor; [|exact Hnd].
    rewrite <- has_own_In. congruence.
Qed.

Lemma get_delete o k k' :
  get (delete o k) k' = if eqb k k' then None else get o k'.
Proof.
  induction o as [|[k0 v0] o IH]; simpl.
  - now destruct (eqb k k').
  - destruct (eqb k0 k) eqn:E0; simpl.
    + rewrite IH. apply eqb_eq in E0. subst k0.
      now destruct (eqb k k').
    + rewrite IH. destruct (eqb k0 k') eqn:E1; [|reflexivity].
      apply eqb_eq in E1. subst k'.
      rewrite eqb_sym in E0. now rewrite E0.
Qed.

Lemma In_delete o k k' v :
  In (k', v) (delete o k) <-> In (k', v) o /\ k' <> k.
Proof.
  unfold delete. rewrite filter_In. simpl.
  rewrite negb_true_iff, eqb_neq. tauto.
Qed.

(** The own properties after [o[k] = v]. *)
Lemma get_assign o k v k' :
  get (assign o k v) k' =
  if eqb k k' && (has_own o k || negb (eqb k PROTO))
  then Some v else get o k'.
Proof.
  unfold assign. destruct (has_own o k) eqn:H.
  - rewrite get_update, orb_true_l, andb_true_r. unfold has_own in H.
    destruct (get o k); [reflexivity | discriminate].
  - destruct (eqb k PROTO); simpl.
    + now rewrite andb_false_r.
    + rewrite andb_true_r. apply get_set.
Qed.

Lemma assign_new_proto o v : has_own o PROTO = false -> assign o PROTO v = o.
Proof. intros H. unfold assign. now rewrite H, eqb_refl. Qed.

Lemma lookup_own o k v : get o k = Some v -> lookup o k = own_value v.
Proof. intros H. unfold lookup. now rewrite H. Qed.

Lemma lookup_own_inv o k v : lookup o k = own_value v -> get o k = Some v.
Proof.
  unfold lookup. destruct (get o k); [congruence|].
  destruct (inherited k); discriminate.
Qed.

Lemma lookup_undefined o k :
  lookup o k = undefined <-> get o k = None /\ inherited k = false.
Proof.
  unfold lookup. destruct (get o k); [intuition discriminate|].
  destruct (inherited k); intuition discriminate.
Qed.

Lemma lookup_inherited o k :
  lookup o k = inherited_member <-> get o k = None /\ inherited k = true.
Proof.
  unfold lookup. destruct (get o k); [intuition discriminate|].
  destruct (inherited k); intuition discriminate.
Qed.

End ObjectFacts.

Lemma has_In (s : jsset) (k : jsstring) : has s k = true <-> In k s.
Proof.
  unfold has. rewrite existsb_exists. split.
  - intros [x [Hx E]]. apply eqb_eq in E. now subst.
  - intros H. exists k. split; [exact H | apply eqb_refl].
Qed.

Lemma has_false (s : jsset) (k : jsstring) : has s k = false <-> ~ In k s.
Proof.
  rewrite <- has_In. destruct (has s k); split; congruence.
Qed.

Lemma In_fold_add (ks : list jsstring) (s : jsset) (k : jsstring) :
  In k (fold_left add ks s) <-> In k s \/ In k ks.
Proof.
  revert s; induction ks as [|h t IH]; intros s; simpl; [tauto|].
  rewrite IH. unfold add. destruct (has s h) eqn:E.
  - apply has_In in E. split; [tauto|].
    intros [H|[->|H]]; auto.
  - rewrite in_app_iff. simpl. tauto.
Qed.

Lemma has_of_keys (ks : list jsstring) (k : jsstring) :
  has (of_keys ks) k = true <-> In k ks.
Proof.
  rewrite has_In. unfold of_keys. rewrite In_fold_add. simpl. tauto.
Qed.

(* ================================================================== *)
(** ** Cleaning a value *)
(* ================================================================== *)

Lemma startsWith_one (s : jsstring) (c : code_unit) :
  startsWith s [c] = head_is (fun x => N.eqb x c) s.
Proof.
  destruct s as [|x s]; simpl; [reflexivity|]. now rewrite andb_true_r.
Qed.

Lemma endsWith_one (s : jsstring) (c : code_unit) :
  endsWith s [c] = head_is (fun x => N.eqb x c) (rev s).
Proof. unfold endsWith. simpl. apply startsWith_one. Qed.

Lemma includes_one (s : jsstring) (c : code_unit) :
  includes s [c] = true <-> In c s.
Proof.
  induction s as [|x s IH]; simpl; [split; [discriminate | tauto]|].
  rewrite andb_true_r, orb_true_iff, IH, N.eqb_eq. tauto.
Qed.

Lemma includes_one_false (s : jsstring) (c : code_unit) :
  includes s [c] = false <-> ~ In c s.
Proof.
  rewrite <- includes_one. destruct (includes s [c]); split; congruence.
Qed.

Lemma replace_tab_runs_no_tab (b : bool) (by_ s : jsstring) :
  ~ In TAB s -> replace_tab_runs b by_ s = s.
Proof.
  revert b; induction s as [|c s IH]; intros b H; simpl; [reflexivity|].
  destruct (N.eqb c TAB) eqn:E.
  - apply N.eqb_eq in E. subst. exfalso. apply H. now left.
  - f_equal. apply IH. intros Hin. apply H. now right.
Qed.

Lemma replace_tab_runs_clean (b : bool) (s : jsstring) :
  ~ In TAB (replace_tab_runs b [SPACE] s).
Proof.
  revert b; induction s as [|c s IH]; intros b; simpl; [tauto|].
  destruct (N.eqb c TAB) eqn:E.
  - destruct b; [apply IH|].
    simpl. intros [H|H]; [discriminate | now apply IH in H].
  - simpl. intros [H|H]; [|now apply IH in H].
    subst c. discriminate.
Qed.

(** The test [value.includes("\t")] only spares a replacement that would
    change nothing. *)
Lemma tab_guard_redundant (value : jsstring) :
  (if includes value [TAB] then replace_TAB_REGEX value [SPACE] else value)
  = replace_TAB_REGEX value [SPACE].
Proof.
  destruct (includes value [TAB]) eqn:E; [reflexivity|].
  apply includes_one_false in E. unfold replace_TAB_REGEX.
  now rewrite replace_tab_runs_no_tab.
Qed.

Lemma cleanValue_guarded (value : jsstring) :
  cleanValue value = normalize_value_guarded value.
Proof.
  unfold cleanValue, normalize_value_guarded.
  rewrite tab_guard_redundant.
  set (t := replace_TAB_REGEX value [SPACE]).
  rewrite startsWith_one.
  assert ((if head_is (fun x => N.eqb x SPACE) t
           then replace_LEADING_SPACE_REGEX t else t)
          = match t with
            | c :: _ => if N.eqb c SPACE then replace_LEADING_SPACE_REGEX t
                        else t
            | [] => t
            end) as -> by (destruct t; reflexivity).
  match goal with |- context [endsWith ?l _] => set (l0 := l) end.
  rewrite endsWith_one. destruct (rev l0); reflexivity.
Qed.

Lemma drop_while_In (p : code_unit -> bool) (s : jsstring) (c : code_unit) :
  In c (drop_while p s) -> In c s.
Proof.
  induction s as [|x s IH]; simpl; [tauto|].
  destruct (p x); simpl; tauto.
Qed.

Lemma drop_while_head (p : code_unit -> bool) (s : jsstring) :
  head_is p (drop_while p s) = false.
Proof.
  induction s as [|x s IH]; simpl; [reflexivity|].
  destruct (p x) eqn:E; [exact IH | simpl; exact E].
Qed.

Lemma drop_while_id (p : code_unit -> bool) (s : jsstring) :
  head_is p s = false -> drop_while p s = s.
Proof. destruct s as [|x s]; simpl; [reflexivity|]. now intros ->. Qed.

Lemma head_is_weaken (p q : code_unit -> bool) (s : jsstring) :
  (forall c, q c = true -> p c = true) ->
  head_is p s = false -> head_is q s = false.
Proof.
  intros H. destruct s as [|c s]; simpl; [reflexivity|].
  intros Hp. destruct (q c) eqn:E; [|reflexivity].
  apply H in E. congruence.
Qed.

Lemma space_is_whitespace (c : code_unit) :
  N.eqb c SPACE = true -> is_whitespace c = true.
Proof. intros H. apply N.eqb_eq in H. now subst. Qed.

(** Dropping code units at the end keeps the first one, if any is left. *)
Lemma head_is_trailing (q p : code_unit -> bool) (s : jsstring) :
  head_is q s = false ->
  head_is q (rev (drop_while p (rev s))) = false.
Proof.
  destruct s as [|c s]; simpl; [reflexivity|]. intros Hq.
  induction (rev s) as [|x r IH]; simpl.
  - destruct (p c); simpl; [reflexivity | exact Hq].
  - destruct (p x); [exact IH|].
    simpl. rewrite rev_app_distr. simpl. exact Hq.
Qed.

(** A cleaned value has no tab and neither starts nor ends with a space. *)
Lemma cleanValue_shape (value : jsstring) :
  let r := cleanValue value in
  ~ In TAB r /\
  head_is (fun x => N.eqb x SPACE) r = false /\
  head_is (fun x => N.eqb x SPACE) (rev r) = false.
Proof.
  rewrite cleanValue_guarded. unfold normalize_value_guarded.
  set (t := replace_TAB_REGEX value [SPACE]).
  assert (~ In TAB t) as Ht by apply replace_tab_runs_clean.
  set (l := match t with
            | c :: _ => if N.eqb c SPACE then replace_LEADING_SPACE_REGEX t
                        else t
            | [] => t
            end).
  assert (~ In TAB l /\ head_is (fun x => N.eqb x SPACE) l = false)
    as [Hl1 Hl2].
  { subst l. destruct t as [|c t']; [now split|].
    destruct (N.eqb c SPACE) eqn:E.
    - split.
      + intros H. apply Ht. eapply drop_while_In. exact H.
      + eapply head_is_weaken; [apply space_is_whitespace|].
        apply drop_while_head.
    - split; [exact Ht | simpl; exact E]. }
  clearbody l. clear t Ht.
  destruct (rev l) as [|c r] eqn:Er.
  - simpl. rewrite Er. auto.
  - destruct (N.eqb c SPACE) eqn:E.
    + unfold replace_TRAILING_SPACE_REGEX. rewrite Er.
      simpl. split; [|split].
      * intros H. apply Hl1. apply in_rev. rewrite Er.
        apply in_rev in H. eapply drop_while_In. simpl. exact H.
      * replace (if is_whitespace c then drop_while is_whitespace r
                 else c :: r)
          with (drop_while is_whitespace (rev l))
          by (rewrite Er; reflexivity).
        now apply head_is_trailing.
      * rewrite rev_involutive.
        eapply head_is_weaken; [apply space_is_whitespace|].
        replace (if is_whitespace c then drop_while is_whitespace r
                 else c :: r)
          with (drop_while is_whitespace (c :: r)) by reflexivity.
        apply drop_while_head.
    + simpl. rewrite Er. simpl. auto.
Qed.

Lemma cleanValue_fixed (r : jsstring) :
  ~ In TAB r ->
  head_is (fun x => N.eqb x SPACE) r = false ->
  head_is (fun x => N.eqb x SPACE) (rev r) = false ->
  cleanValue r = r.
Proof.
  intros H1 H2 H3. unfold cleanValue.
  apply includes_one_false in H1. rewrite H1.
  rewrite startsWith_one, H2, endsWith_one, H3. reflexivity.
Qed.

Lemma cleanValue_idempotent (value : jsstring) :
  cleanValue (cleanValue value) = cleanValue value.
Proof.
  destruct (cleanValue_shape value) as (H1 & H2 & H3).
  now apply cleanValue_fixed.
Qed.

(* ================================================================== *)
(** ** [cleanupJson] *)
(* ================================================================== *)

Section CleanupJson.
Variable json : obj jsstring.
Variable allowedKeys : jsset.

Let step := cleanupJson_step json allowedKeys.

Lemma get_cleanupJson_step (acc : obj jsstring) (key k : jsstring) :
  get (step acc key) k =
  if eqb key k && has allowedKeys k
  then match get json k with
       | Some v => Some (cleanValue v)
       | None => get acc k
       end
  else get acc k.
Proof.
  unfold step, cleanupJson_step.
  destruct (eqb key k) eqn:E; simpl.
  - apply eqb_eq in E. subst key.
    destruct (has allowedKeys k); simpl; [|reflexivity].
    destruct (get json k); [apply get_set_eq | reflexivity].
  - destruct (has allowedKeys key); simpl; [|reflexivity].
    destruct (get json key); [|reflexivity].
    apply get_set_neq. now apply eqb_neq.
Qed.

Lemma get_fold_cleanupJson_step (l : list jsstring) (acc : obj jsstring)
    (k : jsstring) :
  get (fold_left step l acc) k =
  if has l k && has allowedKeys k
  then match get json k with
       | Some v => Some (cleanValue v)
       | None => get acc k
       end
  else get acc k.
Proof.
  revert acc; induction l as [|h t IH]; intros acc; simpl; [reflexivity|].
  rewrite IH, get_cleanupJson_step. rewrite (eqb_sym k h).
  destruct (eqb h k), (has t k), (has allowedKeys k); simpl; try reflexivity;
    now destruct (get json k).
Qed.

(** The value stored under each key of the result. *)
Lemma get_cleanupJson (k : jsstring) :
  get (cleanupJson json allowedKeys) k =
  if has allowedKeys k then option_map cleanValue (get json k) else None.
Proof.
  unfold cleanupJson. fold step. rewrite get_fold_cleanupJson_step. simpl.
  destruct (has allowedKeys k); [|now rewrite andb_false_r].
  rewrite andb_true_r.
  destruct (has (sort (keys json)) k) eqn:E.
  - now destruct (get json k).
  - apply has_false in E.
    assert (get json k = None) as ->; [|reflexivity].
    apply get_None_keys. intros H. apply E.
    eapply Permutation_in; [symmetry; apply sort_perm | exact H].
Qed.

Lemma In_keys_cleanupJson (k : jsstring) :
  In k (keys (cleanupJson json allowedKeys)) <->
  In k (keys json) /\ has allowedKeys k = true.
Proof.
  rewrite !In_keys_get. rewrite get_cleanupJson.
  destruct (has allowedKeys k).
  - destruct (get json k); simpl; split; eauto.
    + intros [[v Hv] _]. discriminate.
  - split; [intros [v Hv]; discriminate | intros [_ H]; discriminate].
Qed.

Lemma NoDup_fold_cleanupJson_step (l : list jsstring) (acc : obj jsstring) :
  NoDup (keys acc) -> NoDup (keys (fold_left step l acc)).
Proof.
  revert acc; induction l as [|h t IH]; intros acc H; simpl; [exact H|].
  apply IH. unfold step, cleanupJson_step.
  destruct (negb (has allowedKeys h)); [exact H|].
  destruct (get json h); [now apply NoDup_keys_set | exact H].
Qed.

Lemma NoDup_keys_cleanupJson : NoDup (keys (cleanupJson json allowedKeys)).
Proof. apply NoDup_fold_cleanupJson_step. constructor. Qed.

(** *** Keys that are skipped or met again leave the accumulator alone *)

Let effective := effective_keys json allowedKeys.

Lemma fold_effective_keys (l seen : list jsstring) (acc : obj jsstring) :
  (forall k v, In k seen -> has allowedKeys k = true -> get json k = Some v ->
               get acc k = Some (cleanValue v)) ->
  fold_left step l acc = fold_left step (effective seen l) acc.
Proof.
  revert seen acc; induction l as [|h t IH]; intros seen acc Inv; simpl;
    [reflexivity|].
  unfold effective in *. simpl.
  destruct (has allowedKeys h) eqn:Ha; simpl.
  2:{ replace (step acc h) with acc
        by (unfold step, cleanupJson_step; now rewrite Ha).
      now apply IH. }
  unfold has_own. destruct (get json h) as [v|] eqn:Hg; simpl.
  2:{ replace (step acc h) with acc
        by (unfold step, cleanupJson_step; now rewrite Ha, Hg).
      now apply IH. }
  destruct (has seen h) eqn:Hs; simpl.
  - replace (step acc h) with acc; [now apply IH|].
    unfold step, cleanupJson_step. rewrite Ha, Hg. simpl.
    symmetry. apply set_same. apply Inv; auto. now apply has_In.
  - apply IH. intros k w [<-|Hk] Hka Hkg.
    + rewrite get_cleanupJson_step, eqb_refl, Hka, Hkg. reflexivity.
    + rewrite get_cleanupJson_step, Hka, Hkg.
      erewrite Inv by eauto. now destruct (eqb h k).
Qed.

Lemma In_effective_keys (l seen : list jsstring) (k : jsstring) :
  In k (effective seen l) <->
  In k l /\ has allowedKeys k = true /\ In k (keys json) /\ ~ In k seen.
Proof.
  unfold effective.
  revert seen; induction l as [|h t IH]; intros seen; simpl; [tauto|].
  destruct (has allowedKeys h) eqn:Ha; simpl.
  2:{ rewrite IH. split; [tauto|]. intros [[->|H] (H1 & H2 & H3)];
        [congruence | tauto]. }
  destruct (has_own json h) eqn:Ho; simpl.
  2:{ rewrite IH. split; [tauto|]. intros [[->|H] (H1 & H2 & H3)]; [|tauto].
      apply has_own_In in H2. congruence. }
  destruct (has seen h) eqn:Hs; simpl.
  - apply has_In in Hs. rewrite IH. split; [tauto|].
    intros [[->|H] (H1 & H2 & H3)]; [contradiction | tauto].
  - apply has_false in Hs. apply has_own_In in Ho. rewrite IH. simpl.
    split.
    + intros [<-|(H0 & H1 & H2 & H3)]; [tauto|]. tauto.
    + intros ([->|H0] & H1 & H2 & H3); [now left|].
      destruct (eqb h k) eqn:E.
      * apply eqb_eq in E. now left.
      * apply eqb_neq in E. right. tauto.
Qed.

Lemma NoDup_effective_keys (l seen : list jsstring) :
  NoDup (effective seen l).
Proof.
  unfold effective.
  revert seen; induction l as [|h t IH]; intros seen; simpl; [constructor|].
  destruct (has allowedKeys h && has_own json h && negb (has seen h));
    [|apply IH].
  constructor; [|apply IH].
  intros H. apply In_effective_keys in H. simpl in H. tauto.
Qed.

Lemma sorted_effective_keys (l seen : list jsstring) :
  StronglySorted le l -> StronglySorted le (effective seen l).
Proof.
  unfold effective.
  intros H; revert seen; induction H as [|h t Hs IH Hall]; intros seen;
    simpl; [constructor|].
  destruct (has allowedKeys h && has_own json h && negb (has seen h));
    [|apply IH].
  constructor; [apply IH|].
  rewrite Forall_forall in *. intros x Hx.
  apply In_effective_keys in Hx. apply Hall. tauto.
Qed.

(** Running the reducer over the sorted keys is running it over the sorted
    allowed keys of [json], each taken once. *)
Lemma cleanupJson_effective :
  cleanupJson json allowedKeys =
  fold_left step (effective [] (sort (keys json))) [].
Proof.
  unfold cleanupJson. fold step. apply fold_effective_keys.
  intros k v [].
Qed.

End CleanupJson.

Lemma cleanupJson_step_again (json : obj jsstring) (allowedKeys : jsset)
    (acc : obj jsstring) (k : jsstring) :
  cleanupJson_step (cleanupJson json allowedKeys) allowedKeys acc k =
  cleanupJson_step json allowedKeys acc k.
Proof.
  unfold cleanupJson_step at 1 2. rewrite get_cleanupJson.
  destruct (has allowedKeys k); simpl; [|reflexivity].
  destruct (get json k); simpl; [|reflexivity].
  now rewrite cleanValue_idempotent.
Qed.

Lemma fold_cleanupJson_step_again (json : obj jsstring) (allowedKeys : jsset)
    (l : list jsstring) (acc : obj jsstring) :
  fold_left (cleanupJson_step (cleanupJson json allowedKeys) allowedKeys) l acc
  = fold_left (cleanupJson_step json allowedKeys) l acc.
Proof.
  revert acc; induction l as [|h t IH]; intros acc; simpl; [reflexivity|].
  now rewrite cleanupJson_step_again, IH.
Qed.

Lemma sorted_keys_cleanupJson (json : obj jsstring) (allowedKeys : jsset) :
  sort (keys (cleanupJson json allowedKeys)) =
  effective_keys json allowedKeys [] (sort (keys json)).
Proof.
  apply sorted_perm_unique.
  - apply sort_sorted.
  - apply sorted_effective_keys, sort_sorted.
  - rewrite sort_perm. apply NoDup_Permutation.
    + apply NoDup_keys_cleanupJson.
    + apply NoDup_effective_keys.
    + intros k. rewrite In_keys_cleanupJson, In_effective_keys.
      split.
      * intros [H1 H2]. repeat split; auto.
        eapply Permutation_in; [symmetry; apply sort_perm | exact H1].
      * intros (H1 & H2 & H3 & _). auto.
Qed.

(** *** Key order *)

Lemma keys_fold_append (json : obj jsstring) (allowedKeys : jsset)
    (l : list jsstring) (acc : obj jsstring) :
  NoDup l ->
  (forall k, In k l ->
     has allowedKeys k = true /\ In k (keys json) /\
     array_index k = None /\ ~ In k (keys acc)) ->
  keys (fold_left (cleanupJson_step json allowedKeys) l acc) = keys acc ++ l.
Proof.
  revert acc; induction l as [|h t IH]; intros acc Hnd H; simpl.
  - now rewrite app_nil_r.
  - inversion Hnd as [|? ? Hh Ht]; subst.
    destruct (H h (or_introl eq_refl)) as (Ha & Hj & Hi & Hacc).
    apply In_keys_get in Hj as [v Hv].
    assert (cleanupJson_step json allowedKeys acc h
            = acc ++ [(h, cleanValue v)]) as ->.
    { unfold cleanupJson_step. rewrite Ha, Hv. simpl. unfold set.
      rewrite <- has_own_In in Hacc.
      destruct (has_own acc h); [congruence|]. now rewrite Hi. }
    rewrite IH; [|exact Ht|].
    + unfold keys. rewrite map_app, <- app_assoc. reflexivity.
    + intros k Hk. destruct (H k (or_intror Hk)) as (H1 & H2 & H3 & H4).
      repeat split; auto.
      unfold keys. rewrite map_app, in_app_iff. simpl.
      intros [H5|[<-|[]]]; [now apply H4 | contradiction].
Qed.

Lemma sorted_NoDup_strict (l : list jsstring) :
  StronglySorted le l -> NoDup l -> StronglySorted lt l.
Proof.
  induction 1 as [|h t Hs IH Hall]; intros Hnd; [constructor|].
  inversion Hnd as [|? ? Hh Ht]; subst.
  constructor; [auto|].
  rewrite Forall_forall in *. intros x Hx.
  destruct (proj1 (le_lt_or_eq h x) (Hall x Hx)) as [Hlt | ->];
    [exact Hlt | contradiction].
Qed.

(** Without array-index keys among the kept ones, the result lists its keys
    in strictly ascending order. *)
Lemma keys_cleanupJson_ascending (json : obj jsstring) (allowedKeys : jsset) :
  (forall k, In k (keys json) -> has allowedKeys k = true ->
             array_index k = None) ->
  StronglySorted lt (keys (cleanupJson json allowedKeys)).
Proof.
  intros H. rewrite cleanupJson_effective.
  rewrite keys_fold_append.
  - simpl. apply sorted_NoDup_strict.
    + apply sorted_effective_keys, sort_sorted.
    + apply NoDup_effective_keys.
  - apply NoDup_effective_keys.
  - intros k Hk. apply In_effective_keys in Hk as (H1 & H2 & H3 & _).
    repeat split; auto.
Qed.

(* ================================================================== *)
(** ** Normalizer: the claims *)
(* ================================================================== *)


Lemma drop_while_suffix (p : code_unit -> bool) (s : jsstring) :
  exists pre, s = pre ++ drop_while p s.
Proof.
  induction s as [|c s [pre IH]]; simpl; [now exists []|].
  destruct (p c); [|now exists []].
  exists (c :: pre). simpl. now f_equal.
Qed.

Lemma not_whitespace_of_plain (c : code_unit) :
  is_other_whitespace c = false -> N.eqb c SPACE = false -> c <> TAB ->
  is_whitespace c = false.
Proof.
  unfold is_other_whitespace. intros H1 H2 H3.
  apply N.eqb_neq in H3. rewrite H2, H3 in H1. simpl in H1.
  now rewrite !andb_true_r in H1.
Qed.

Lemma guarded_agrees_with_spec (value : jsstring) :
  let collapsed := replace_TAB_REGEX value [SPACE] in
  head_is is_other_whitespace collapsed = false ->
  head_is is_other_whitespace (rev collapsed) = false ->
  normalize_value_guarded value = normalize_value_spec value.
Proof.
  unfold normalize_value_guarded, normalize_value_spec.
  set (t := replace_TAB_REGEX value [SPACE]). simpl.
  assert (~ In TAB t) as Ht by apply replace_tab_runs_clean.
  intros Hh Hl.
  assert (match t with
          | c :: _ => if N.eqb c SPACE then replace_LEADING_SPACE_REGEX t
                      else t
          | [] => t
          end = replace_LEADING_SPACE_REGEX t) as ->.
  { destruct t as [|c t']; [reflexivity|].
    destruct (N.eqb c SPACE) eqn:E; [reflexivity|].
    unfold replace_LEADING_SPACE_REGEX. rewrite drop_while_id; [reflexivity|].
    simpl. apply not_whitespace_of_plain; auto.
    intros ->. apply Ht. now left. }
  unfold replace_LEADING_SPACE_REGEX.
  destruct (drop_while_suffix is_whitespace t) as [pre Hpre].
  set (l := drop_while is_whitespace t) in *. clearbody l.
  destruct (rev l) as [|c r] eqn:Er.
  { unfold replace_TRAILING_SPACE_REGEX. rewrite Er. simpl.
    rewrite <- (rev_involutive l), Er. reflexivity. }
  destruct (N.eqb c SPACE) eqn:E; [reflexivity|].
  unfold replace_TRAILING_SPACE_REGEX. rewrite Er. simpl.
  assert (is_whitespace c = false) as ->.
  { apply not_whitespace_of_plain; auto.
    - rewrite Hpre, rev_app_distr, Er in Hl. exact Hl.
    - intros ->. apply Ht. rewrite Hpre. apply in_or_app. right.
      apply in_rev. rewrite Er. now left. }
  rewrite <- Er. now rewrite rev_involutive.
Qed.



(** C4: normalising a normalised map with the same allowed keys changes
    nothing. *)
Theorem cleanupJson_idempotent (m : obj jsstring) (K : jsset) :
  cleanupJson (cleanupJson m K) K = cleanupJson m K.
Proof.
  unfold cleanupJson at 1.
  rewrite fold_cleanupJson_step_again, sorted_keys_cleanupJson.
  symmetry. apply cleanupJson_effective.
Qed.

(** C5 at a map with the keys 9 and 10: both are kept, and the result lists
    9 before 10 although the string 10 sorts before the string 9. *)
Theorem cleanupJson_index_keys_order :
  keys nine_and_ten = [lit "9"; lit "10"] /\
  sort (keys nine_and_ten) = [lit "10"; lit "9"] /\
  keys (cleanupJson nine_and_ten [lit "9"; lit "10"]) = [lit "9"; lit "10"] /\
  lt (lit "10") (lit "9") /\
  ~ StronglySorted le (keys (cleanupJson nine_and_ten [lit "9"; lit "10"])).
Proof.
  repeat split; try reflexivity.
  intros H. vm_compute in H.
  inversion H as [|? ? _ Hall]; subst.
  inversion Hall as [|? ? Hle _]; subst.
  vm_compute in Hle. discriminate.
Qed.

(* ================================================================== *)
(** ** Reconciler *)
(* ================================================================== *)

Lemma In_locallyAddedKeys (local pulled : obj jsstring) (k : jsstring) :
  In k (locallyAddedKeys local pulled) <->
  In k (keys local) /\ ~ In k (keys pulled).
Proof.
  unfold locallyAddedKeys. rewrite filter_In, negb_true_iff.
  rewrite <- (has_of_keys (keys pulled) k).
  destruct (has (of_keys (keys pulled)) k); intuition congruence.
Qed.

Lemma In_locallyRemovedKeys (local pulled : obj jsstring) (k : jsstring) :
  In k (locallyRemovedKeys local pulled) <->
  In k (keys pulled) /\ ~ In k (keys local).
Proof.
  unfold locallyRemovedKeys. rewrite filter_In, negb_true_iff.
  rewrite <- (has_of_keys (keys local) k), <- (has_of_keys (keys pulled) k).
  rewrite has_In.
  destruct (has (of_keys (keys local)) k); intuition congruence.
Qed.

Section Reconcile.
Variable defaultLocale : jsstring.
Variable localTranslations : obj jsstring.

Lemma fold_assign_added (added : list jsstring) (pulledLocales : bundle)
    (pulledDefaultLocale : obj jsstring) :
  get pulledLocales defaultLocale = Some pulledDefaultLocale ->
  fold_left (assign_added defaultLocale localTranslations) added pulledLocales
  = update pulledLocales defaultLocale
           (fold_left (seed_added localTranslations) added pulledDefaultLocale).
Proof.
  revert pulledLocales pulledDefaultLocale.
  induction added as [|h t IH]; intros b d Hd; simpl.
  - symmetry. now apply update_same.
  - unfold assign_added at 2, seed_added at 2. rewrite Hd.
    destruct (get localTranslations h) as [v|]; [|now apply IH].
    rewrite (IH _ (assign d h v)).
    + apply update_update.
    + rewrite get_update, eqb_refl, Hd. reflexivity.
Qed.

Lemma has_own_seed_added (json : obj jsstring) (h k : jsstring) :
  has_own (seed_added localTranslations json h) k =
  has_own json k
  || match get localTranslations h with
     | Some _ => eqb h k && negb (eqb h PROTO)
     | None => false
     end.
Proof.
  unfold seed_added, has_own at 1 2.
  destruct (get localTranslations h) as [v|];
    [|now rewrite orb_false_r].
  rewrite get_assign.
  destruct (eqb h k) eqn:E; simpl; [|now rewrite orb_false_r].
  apply eqb_eq in E. subst h.
  unfold has_own. now destruct (get json k), (eqb k PROTO).
Qed.

(** A key of [added] ends with the local value, except a [__proto__] that
    the map did not have. *)
Lemma get_fold_seed_added (added : list jsstring) (json : obj jsstring)
    (k : jsstring) :
  get (fold_left (seed_added localTranslations) added json) k =
  if has added k && (has_own json k || negb (eqb k PROTO))
  then match get localTranslations k with
       | Some v => Some v
       | None => get json k
       end
  else get json k.
Proof.
  revert json; induction added as [|h t IH]; intros json; simpl;
    [reflexivity|].
  rewrite IH, has_own_seed_added. rewrite (eqb_sym k h).
  unfold seed_added.
  destruct (get localTranslations h) as [v|] eqn:Hh.
  - rewrite get_assign.
    destruct (eqb h k) eqn:E.
    + apply eqb_eq in E. subst h. rewrite Hh. simpl.
      destruct (has_own json k) eqn:Ho; simpl.
      * now rewrite andb_true_r; destruct (has t k).
      * destruct (eqb k PROTO); simpl.
        -- now rewrite andb_false_r.
        -- now rewrite andb_true_r; destruct (has t k).
    + simpl. now rewrite orb_false_r.
  - rewrite orb_false_r.
    destruct (eqb h k) eqn:E; simpl; [|reflexivity].
    apply eqb_eq in E. subst h. rewrite Hh.
    now destruct (has t k), (has_own json k), (eqb k PROTO).
Qed.

End Reconcile.

Lemma fold_delete_everywhere (removed : list jsstring) (b : bundle) :
  fold_left delete_everywhere removed b
  = map (fun entry => (fst entry, fold_left delete removed (snd entry))) b.
Proof.
  revert b; induction removed as [|h t IH]; intros b; simpl.
  - induction b as [|[n j] b IHb]; simpl; [reflexivity|]. now f_equal.
  - rewrite IH. unfold delete_everywhere. rewrite map_map. reflexivity.
Qed.

Lemma get_fold_delete (removed : list jsstring) (json : obj jsstring)
    (k : jsstring) :
  get (fold_left delete removed json) k =
  if has removed k then None else get json k.
Proof.
  revert json; induction removed as [|h t IH]; intros json; simpl;
    [reflexivity|].
  rewrite IH, get_delete, (eqb_sym k h).
  destruct (eqb h k), (has t k); reflexivity.
Qed.

Lemma get_map_values {A B : Type} (f : A -> B) (o : obj A) (k : jsstring) :
  get (map (fun entry => (fst entry, f (snd entry))) o) k
  = option_map f (get o k).
Proof.
  induction o as [|[n j] o IH]; simpl; [reflexivity|].
  now destruct (eqb n k).
Qed.

Lemma keys_map_values {A B : Type} (f : A -> B) (o : obj A) :
  keys (map (fun entry => (fst entry, f (snd entry))) o) = keys o.
Proof. unfold keys. rewrite map_map. reflexivity. Qed.

(** The bundle [reconcile] returns, in closed form. *)
Lemma reconcile_closed_form (defaultLocale : jsstring)
    (localTranslations : obj jsstring) (pulledLocales : bundle)
    (pulledDefaultLocale : obj jsstring) :
  get pulledLocales defaultLocale = Some pulledDefaultLocale ->
  reconcile defaultLocale localTranslations pulledLocales =
  Some (map (fun entry =>
               (fst entry,
                fold_left delete
                  (locallyRemovedKeys localTranslations pulledDefaultLocale)
                  (snd entry)))
            (update pulledLocales defaultLocale
               (fold_left (seed_added localTranslations)
                  (locallyAddedKeys localTranslations pulledDefaultLocale)
                  pulledDefaultLocale))).
Proof.
  intros H. unfold reconcile, merge. rewrite (lookup_own _ _ H).
  rewrite (fold_assign_added _ _ _ _ H), fold_delete_everywhere.
  reflexivity.
Qed.

Lemma reconcile_Some_inv (defaultLocale : jsstring)
    (localTranslations : obj jsstring) (pulledLocales result : bundle) :
  reconcile defaultLocale localTranslations pulledLocales = Some result ->
  exists pulledDefaultLocale,
    get pulledLocales defaultLocale = Some pulledDefaultLocale /\
    result = merge defaultLocale localTranslations pulledLocales
                   pulledDefaultLocale.
Proof.
  unfold reconcile.
  destruct (lookup pulledLocales defaultLocale) as [d| |] eqn:E;
    try discriminate.
  intros [= <-]. exists d. split; [now apply lookup_own_inv | reflexivity].
Qed.

(** What a key of a locale map holds after [reconcile]. *)
Lemma get_reconcile (defaultLocale : jsstring)
    (localTranslations : obj jsstring) (pulledLocales : bundle)
    (pulledDefaultLocale json : obj jsstring) (locale k : jsstring) :
  get pulledLocales defaultLocale = Some pulledDefaultLocale ->
  get pulledLocales locale = Some json ->
  exists result json',
    reconcile defaultLocale localTranslations pulledLocales = Some result /\
    get result locale = Some json' /\
    get json' k =
      if has (locallyRemovedKeys localTranslations pulledDefaultLocale) k
      then None
      else if eqb defaultLocale locale
              && has (locallyAddedKeys localTranslations pulledDefaultLocale) k
              && negb (eqb k PROTO)
           then get localTranslations k
           else get json k.
Proof.
  intros Hd Hl.
  rewrite (reconcile_closed_form _ localTranslations _ Hd).
  destruct (eqb defaultLocale locale) eqn:E; simpl;
    (eexists; eexists; split; [reflexivity|]);
    rewrite get_map_values, get_update, Hd, E, ?Hl; simpl;
    (split; [reflexivity|]).
  - apply eqb_eq in E. subst locale. rewrite Hd in Hl. injection Hl as ->.
    rewrite get_fold_delete, get_fold_seed_added.
    destruct (has (locallyRemovedKeys _ _) k); [reflexivity|].
    destruct (has (locallyAddedKeys localTranslations json) k) eqn:Ha;
      [|reflexivity].
    apply has_In, In_locallyAddedKeys in Ha as [Ha Hn].
    apply In_keys_get in Ha as [v Hv].
    apply get_None_keys, has_own_false in Hn. rewrite Hn, Hv. simpl.
    now destruct (eqb k PROTO).
  - rewrite get_fold_delete. reflexivity.
Qed.

(** C1 fails on a local key named [__proto__] that the remote map of the
    default locale lacks. With the local reference [{a, __proto__}] and the
    remote bundle [{en: {a}}] the key is in [L - R], yet the assignment
    stores nothing: [reconcile] returns the bundle as it was, and its
    default-locale map is still [{a}]. *)
Theorem reconcile_drops_new_proto_key :
  get proto_local PROTO = Some (lit "P") /\
  get proto_bundle (lit "en") = Some [(lit "a", lit "A")] /\
  ~ In PROTO (keys [(lit "a", lit "A")]) /\
  reconcile (lit "en") proto_local proto_bundle = Some proto_bundle /\
  (forall json, get proto_bundle (lit "en") = Some json ->
                get json PROTO = None).
Proof.
  split; [reflexivity|]. split; [reflexivity|]. split.
  - vm_compute. intros [E|[]]. congruence.
  - split; [reflexivity|]. intros json E. vm_compute in E.
    injection E as <-. reflexivity.
Qed.

(** X22: when the bundle has a map [R] for the default locale, [reconcile]
    returns a bundle with the same locales in which no key of [R] that the
    local reference lacks is left in any locale map, every local key that
    [R] lacks, [__proto__] apart, is in the default-locale map with the
    local value, and every other key of every locale map, a new [__proto__]
    of the default locale among them, holds what the remote bundle held. *)
Theorem reconcile_merge_by_key (defaultLocale : jsstring)
    (localTranslations : obj jsstring) (pulledLocales : bundle)
    (R : obj jsstring) :
  get pulledLocales defaultLocale = Some R ->
  exists result,
    reconcile defaultLocale localTranslations pulledLocales = Some result /\
    keys result = keys pulledLocales /\
    (forall locale json k,
       In (locale, json) result ->
       In k (keys R) -> ~ In k (keys localTranslations) ->
       ~ In k (keys json)) /\
    (forall k v,
       get localTranslations k = Some v -> ~ In k (keys R) -> k <> PROTO ->
       exists json, get result defaultLocale = Some json /\
                    get json k = Some v) /\
    (forall locale json k,
       get pulledLocales locale = Some json ->
       ~ (In k (keys R) /\ ~ In k (keys localTranslations)) ->
       ~ (locale = defaultLocale /\ k <> PROTO /\
          In k (keys localTranslations) /\ ~ In k (keys R)) ->
       exists json', get result locale = Some json' /\
                     get json' k = get json k).
Proof.
  intros Hd. eexists.
  split; [exact (reconcile_closed_form _ localTranslations _ Hd)|].
  split; [|split; [|split]].
  - now rewrite keys_map_values, keys_update.
  - intros locale json k Hin HR HL.
    apply in_map_iff in Hin as [[n j] [E _]]. simpl in E.
    injection E as _ <-.
    apply get_None_keys. rewrite get_fold_delete.
    assert (has (locallyRemovedKeys localTranslations R) k = true) as ->;
      [|reflexivity].
    apply has_In, In_locallyRemovedKeys. now split.
  - intros k v Hv HR Hp.
    destruct (@get_reconcile _ localTranslations _ _ _ _ k Hd Hd)
      as (result & json' & Hres & Hget & Hk).
    rewrite (reconcile_closed_form _ localTranslations _ Hd) in Hres.
    injection Hres as <-.
    exists json'. split; [exact Hget|]. rewrite Hk, eqb_refl. simpl.
    assert (In k (keys localTranslations)) as HL
      by (apply In_keys_get; eauto).
    assert (has (locallyRemovedKeys localTranslations R) k = false) as ->.
    { apply has_false. rewrite In_locallyRemovedKeys. tauto. }
    assert (has (locallyAddedKeys localTranslations R) k = true) as ->.
    { apply has_In, In_locallyAddedKeys. now split. }
    apply eqb_neq in Hp. rewrite Hp. exact Hv.
  - intros locale json k Hl Hrem Hadd.
    destruct (@get_reconcile _ localTranslations _ _ _ _ k Hd Hl)
      as (result & json' & Hres & Hget & Hk).
    rewrite (reconcile_closed_form _ localTranslations _ Hd) in Hres.
    injection Hres as <-.
    exists json'. split; [exact Hget|]. rewrite Hk.
    assert (has (locallyRemovedKeys localTranslations R) k = false) as ->.
    { apply has_false. now rewrite In_locallyRemovedKeys. }
    destruct (eqb defaultLocale locale) eqn:E; simpl; [|reflexivity].
    apply eqb_eq in E. subst locale.
    destruct (eqb k PROTO) eqn:Ep;
      [now rewrite andb_false_r|rewrite andb_true_r].
    apply eqb_neq in Ep.
    assert (has (locallyAddedKeys localTranslations R) k = false) as ->;
      [|reflexivity].
    apply has_false. rewrite In_locallyAddedKeys. tauto.
Qed.

Lemma reconcile_merge_by_key_witness :
  exists result,
    reconcile (lit "en") mixed_local mixed_bundle = Some result /\
    get result (lit "en") =
      Some [(lit "a", lit "A"); (lit "c", lit "C")] /\
    get result (lit "fr") = Some [(lit "a", lit "A2")].
Proof.
  destruct (@reconcile_merge_by_key (lit "en") mixed_local mixed_bundle
              [(lit "a", lit "A"); (lit "b", lit "B")] eq_refl)
    as (result & Hres & _).
  exists result. split; [exact Hres|].
  vm_compute in Hres. injection Hres as <-. split; reflexivity.
Defined.

(** C2, as the claim words it, does not hold: with the local reference
    [{a, b}] and the remote bundle [{en: {a}, fr: {a}}], the newly born key
    [b] is seeded into [en] only; the map of [fr] is left without it. *)
Lemma reconcile_leaves_other_locales_unseeded :
  ~ (forall (defaultLocale : jsstring) (localTranslations : obj jsstring)
            (pulledLocales result : bundle) (R json : obj jsstring)
            (locale k v : jsstring),
       get pulledLocales defaultLocale = Some R ->
       reconcile defaultLocale localTranslations pulledLocales = Some result ->
       get localTranslations k = Some v -> ~ In k (keys R) ->
       locale <> defaultLocale ->
       get result locale = Some json ->
       get json k = Some v).
Proof.
  intros H.
  specialize (H (lit "en") added_local added_bundle
                [(lit "en", [(lit "a", lit "A"); (lit "b", lit "B")]);
                 (lit "fr", [(lit "a", lit "A2")])]
                [(lit "a", lit "A")] [(lit "a", lit "A2")]
                (lit "fr") (lit "b") (lit "B")
                eq_refl eq_refl eq_refl).
  assert (get [(lit "a", lit "A2")] (lit "b") = Some (lit "B")) as E.
  { apply H.
    - simpl. intros [E|[]]. discriminate.
    - discriminate.
    - reflexivity. }
  discriminate.
Qed.

(** C2 (amended): the value of a newly born key is stored in the
    default-locale map only, which is stated here for a key other than
    [__proto__]; in every other locale map of the result a newly born key
    holds exactly what the remote bundle held for it, which is nothing when
    the remote map did not have the key. *)
Theorem reconcile_new_key_default_locale_only (defaultLocale : jsstring)
    (localTranslations : obj jsstring) (pulledLocales : bundle)
    (R : obj jsstring) (k v : jsstring) :
  get pulledLocales defaultLocale = Some R ->
  get localTranslations k = Some v -> ~ In k (keys R) ->
  exists result,
    reconcile defaultLocale localTranslations pulledLocales = Some result /\
    (k <> PROTO ->
     exists json, get result defaultLocale = Some json /\
                  get json k = Some v) /\
    (forall locale json,
       locale <> defaultLocale ->
       get pulledLocales locale = Some json ->
       exists json', get result locale = Some json' /\
                     get json' k = get json k).
Proof.
  intros Hd Hv HR.
  assert (has (locallyRemovedKeys localTranslations R) k = false) as Hrem.
  { apply has_false. rewrite In_locallyRemovedKeys. tauto. }
  assert (has (locallyAddedKeys localTranslations R) k = true) as Hadd.
  { apply has_In, In_locallyAddedKeys. split; [|exact HR].
    apply In_keys_get. eauto. }
  eexists. split; [exact (reconcile_closed_form _ localTranslations _ Hd)|].
  split.
  - intros Hp.
    destruct (@get_reconcile _ localTranslations _ _ _ _ k Hd Hd)
      as (result & json' & Hres & Hget & Hk).
    rewrite (reconcile_closed_form _ localTranslations _ Hd) in Hres.
    injection Hres as <-.
    exists json'. split; [exact Hget|].
    apply eqb_neq in Hp. rewrite Hk, Hrem, eqb_refl, Hadd, Hp. exact Hv.
  - intros locale json Hne Hl.
    destruct (@get_reconcile _ localTranslations _ _ _ _ k Hd Hl)
      as (result & json' & Hres & Hget & Hk).
    rewrite (reconcile_closed_form _ localTranslations _ Hd) in Hres.
    injection Hres as <-.
    exists json'. split; [exact Hget|].
    rewrite Hk, Hrem.
    assert (eqb defaultLocale locale = false) as ->; [|reflexivity].
    apply eqb_neq. congruence.
Qed.

Lemma reconcile_new_key_default_locale_only_witness :
  exists result,
    reconcile (lit "en") added_local added_bundle = Some result /\
    (exists json, get result (lit "en") = Some json /\
                  get json (lit "b") = Some (lit "B")) /\
    (exists json, get result (lit "fr") = Some json /\
                  get json (lit "b") = None).
Proof.
  destruct (@reconcile_new_key_default_locale_only
              (lit "en") added_local added_bundle [(lit "a", lit "A")]
              (lit "b") (lit "B") eq_refl eq_refl)
    as (result & Hres & Hen & Hother).
  - simpl. intros [E|[]]. discriminate.
  - exists result. split; [exact Hres|]. split.
    { apply Hen. vm_compute. congruence. }
    destruct (Hother (lit "fr") [(lit "a", lit "A2")]) as (json & H1 & H2);
      [discriminate | reflexivity |].
    exists json. split; [exact H1 | exact H2].
Defined.

(* ================================================================== *)
(** ** Usage scanner *)
(* ================================================================== *)

Lemma startsWith_prefix (s p : jsstring) :
  startsWith s p = true <-> exists rest, s = p ++ rest.
Proof.
  revert s; induction p as [|y p IH]; intros s; simpl.
  - split; [intros _; now exists s | reflexivity].
  - destruct s as [|x s].
    + split; [discriminate | intros [rest H]; discriminate].
    + rewrite andb_true_iff, N.eqb_eq, IH. split.
      * intros [-> [rest ->]]. now exists rest.
      * intros [rest [= -> ->]]. split; [reflexivity | now exists rest].
Qed.

Lemma includes_Contains (code needle : jsstring) :
  includes code needle = true <-> Contains code needle.
Proof.
  unfold Contains. induction code as [|c code IH]; simpl.
  - rewrite orb_false_r, startsWith_prefix. split.
    + intros [rest H]. now exists [], rest.
    + intros [[|b before] [after H]]; [now exists after|discriminate].
  - rewrite orb_true_iff, startsWith_prefix, IH. split.
    + intros [[rest H] | [before [after H]]].
      * now exists [], rest.
      * exists (c :: before), after. simpl. now f_equal.
    + intros [[|b before] [after H]].
      * left. now exists after.
      * right. injection H as _ H. now exists before, after.
Qed.

Lemma includes_not_Contains (code needle : jsstring) :
  includes code needle = false <-> ~ Contains code needle.
Proof.
  rewrite <- includes_Contains.
  destruct (includes code needle); split; congruence.
Qed.

Lemma split_nonempty (sep : code_unit) (s : jsstring) : split sep s <> [].
Proof.
  destruct s as [|c s]; simpl; [discriminate|].
  destruct (N.eqb c sep); [discriminate|].
  destruct (split sep s); discriminate.
Qed.

(** Joining dot-free segments and splitting at the dots gives the segments
    back. *)
Lemma split_join (segments : list jsstring) :
  segments <> [] -> Forall (fun s => ~ In DOT s) segments ->
  split DOT (join [DOT] segments) = segments.
Proof.
  induction segments as [|seg rest IH]; intros Hne Hall; [contradiction|].
  inversion Hall as [|? ? Hseg Hrest]; subst.
  destruct rest as [|seg' rest'].
  - simpl. clear IH Hall Hrest Hne.
    induction seg as [|c seg IHs]; simpl; [reflexivity|].
    destruct (N.eqb c DOT) eqn:E.
    + apply N.eqb_eq in E. subst. exfalso. apply Hseg. now left.
    + rewrite IHs; [reflexivity|]. intros H. apply Hseg. now right.
  - change (join [DOT] (seg :: seg' :: rest'))
      with (seg ++ [DOT] ++ join [DOT] (seg' :: rest')).
    specialize (IH ltac:(discriminate) Hrest).
    clear Hall Hrest Hne.
    induction seg as [|c seg IHs]; simpl.
    + simpl in IH. now rewrite IH.
    + destruct (N.eqb c DOT) eqn:E.
      * apply N.eqb_eq in E. subst. exfalso. apply Hseg. now left.
      * simpl in IHs. rewrite IHs; [reflexivity|].
        intros H. apply Hseg. now right.
Qed.

(** Every string is the join of its segments, and they are dot-free. *)
Lemma join_split (s : jsstring) : join [DOT] (split DOT s) = s.
Proof.
  induction s as [|c s IH]; simpl; [reflexivity|].
  destruct (N.eqb c DOT) eqn:E.
  - apply N.eqb_eq in E. subst c.
    pose proof (split_nonempty DOT s) as Hne.
    destruct (split DOT s) as [|seg segs]; [contradiction|].
    change (join [DOT] ([] :: seg :: segs))
      with ([DOT] ++ join [DOT] (seg :: segs)).
    now rewrite IH.
  - pose proof (split_nonempty DOT s) as Hne.
    destruct (split DOT s) as [|seg segs]; [contradiction|].
    destruct segs as [|seg' segs'].
    + simpl in *. now f_equal.
    + change (join [DOT] ((c :: seg) :: seg' :: segs'))
        with (c :: (seg ++ [DOT] ++ join [DOT] (seg' :: segs'))).
      f_equal. exact IH.
Qed.

Lemma split_dot_free (s : jsstring) :
  Forall (fun seg => ~ In DOT seg) (split DOT s).
Proof.
  induction s as [|c s IH]; simpl; [repeat constructor; tauto|].
  destruct (N.eqb c DOT) eqn:E; [constructor; [tauto | exact IH]|].
  destruct (split DOT s) as [|seg segs]; [repeat constructor|].
  - simpl. intros [H|[]]. subst. discriminate.
  - inversion IH; subst. constructor; [|assumption].
    simpl. intros [H|H]; [subst; discriminate | contradiction].
Qed.

Lemma slice_0_neg_1 {A} (l : list A) : slice_0_neg 1 l = removelast l.
Proof.
  unfold slice_0_neg. rewrite removelast_firstn_len.
  f_equal. lia.
Qed.

Lemma slice_0_neg_2 {A} (l : list A) :
  slice_0_neg 2 l = removelast (removelast l).
Proof.
  unfold slice_0_neg. rewrite !removelast_firstn_len, length_firstn.
  rewrite firstn_firstn. f_equal. lia.
Qed.

Lemma is_unused_Used (code key : jsstring) :
  is_unused code key = false <->
  Used code key (variantKey 1 key) (variantKey 2 key).
Proof.
  unfold is_unused, Used. rewrite <- !includes_Contains.
  destruct (includes code (DQUOTE :: key ++ [DQUOTE])),
           (includes code (BACKTICK :: key ++ [BACKTICK])),
           (includes code (SQUOTE :: key ++ [SQUOTE])),
           (includes code (BACKTICK :: variantKey 1 key)),
           (includes code (BACKTICK :: variantKey 2 key)); simpl;
    intuition congruence.
Qed.

Lemma In_unusedKeys (code : jsstring) (refrenceKeys : list jsstring)
    (k : jsstring) :
  In k (unusedKeys (findUnused code refrenceKeys)) <->
  In k refrenceKeys /\ is_unused code k = true.
Proof. simpl. apply filter_In. Qed.

Lemma has_keptKeys (code : jsstring) (refrenceKeys : list jsstring)
    (k : jsstring) :
  has (keptKeys (findUnused code refrenceKeys)) k = true <->
  In k refrenceKeys /\ is_unused code k = false.
Proof.
  simpl. rewrite has_of_keys, filter_In, negb_true_iff, has_false, filter_In.
  destruct (is_unused code k); intuition congruence.
Qed.

(** C9: a key of the reference locale, made of dot-free segments joined by
    dots, is kept as used exactly when the source text has the key between
    double quotes, backticks or single quotes, or has a backtick followed by
    the segments but the last, or but the last two, joined by dots and
    followed by [.${]; it is reported unused exactly when none of these
    occurs. *)
Theorem findUnused_used_iff (code : jsstring) (refrenceKeys : list jsstring)
    (segments : list jsstring) (k : jsstring) :
  In k refrenceKeys ->
  segments <> [] -> Forall (fun s => ~ In DOT s) segments ->
  k = join [DOT] segments ->
  let k1 := join [DOT] (removelast segments) ++ lit ".${" in
  let k2 := join [DOT] (removelast (removelast segments)) ++ lit ".${" in
  (has (keptKeys (findUnused code refrenceKeys)) k = true <->
   Used code k k1 k2) /\
  (In k (unusedKeys (findUnused code refrenceKeys)) <->
   ~ Used code k k1 k2).
Proof.
  intros Hin Hne Hall -> k1 k2.
  assert (variantKey 1 (join [DOT] segments) = k1) as E1.
  { unfold variantKey. now rewrite split_join, slice_0_neg_1. }
  assert (variantKey 2 (join [DOT] segments) = k2) as E2.
  { unfold variantKey. now rewrite split_join, slice_0_neg_2. }
  rewrite has_keptKeys, In_unusedKeys, <- E1, <- E2, <- is_unused_Used.
  destruct (is_unused code (join [DOT] segments)); intuition congruence.
Qed.

Lemma findUnused_used_iff_witness :
  has (keptKeys (findUnused template_code
                   [lit "home.count"; lit "items.price"]))
      (lit "items.price") = true.
Proof.
  destruct (@findUnused_used_iff template_code
              [lit "home.count"; lit "items.price"]
              [lit "items"; lit "price"] (lit "items.price")) as [H _].
  - simpl. right. left. reflexivity.
  - discriminate.
  - repeat constructor; simpl; intuition discriminate.
  - reflexivity.
  - apply H. right. right. right. left.
    exists (lit "t("), (lit "field}`)"). reflexivity.
Defined.

(** C10: for a key of at most two dot-delimited segments the second suffix
    variant is the bare string [.${], and so is the first one when the key
    has a single segment; hence any backtick followed by [.${] in the source
    text makes the scanner keep the key as used. *)
Theorem short_key_matches_bare_variant (code : jsstring)
    (refrenceKeys : list jsstring) (k : jsstring) :
  In k refrenceKeys ->
  length (split DOT k) <= 2 ->
  variantKey 2 k = lit ".${" /\
  (length (split DOT k) = 1 -> variantKey 1 k = lit ".${") /\
  (Contains code (BACKTICK :: lit ".${") ->
   has (keptKeys (findUnused code refrenceKeys)) k = true /\
   ~ In k (unusedKeys (findUnused code refrenceKeys))).
Proof.
  intros Hin Hlen.
  assert (variantKey 2 k = lit ".${") as E2.
  { unfold variantKey, slice_0_neg.
    replace (length (split DOT k) - 2) with 0 by lia. reflexivity. }
  split; [exact E2|]. split.
  - intros H1. unfold variantKey, slice_0_neg. rewrite H1. reflexivity.
  - intros Hc.
    assert (is_unused code k = false) as Hu.
    { apply is_unused_Used. unfold Used. rewrite E2. tauto. }
    rewrite has_keptKeys, In_unusedKeys. rewrite Hu.
    split; [now split | intros [_ H]; discriminate].
Qed.

Lemma short_key_matches_bare_variant_witness :
  variantKey 1 (lit "title") = lit ".${" /\
  variantKey 2 (lit "title") = lit ".${" /\
  unusedKeys (findUnused bare_variant_code [lit "title"; lit "home.title"])
  = [].
Proof.
  destruct (@short_key_matches_bare_variant bare_variant_code
              [lit "title"; lit "home.title"] (lit "title"))
    as (H2 & H1 & _).
  - simpl. left. reflexivity.
  - simpl. lia.
  - split; [apply H1; reflexivity|]. split; [exact H2 | reflexivity].
Defined.

(* ================================================================== *)
(** ** Running the program *)
(* ================================================================== *)

Lemma console_log_printed (o : output) (w : world) :
  console_log o w = Returned tt (printed w [o]).
Proof. reflexivity. Qed.

Lemma printed_printed (w : world) (l1 l2 : list output) :
  printed (printed w l1) l2 = printed w (l1 ++ l2).
Proof. unfold printed. simpl. now rewrite app_assoc. Qed.

Lemma forEach_app {A} (l1 l2 : list A) (f : A -> M unit) (w : world) :
  forEach (l1 ++ l2) f w = (forEach l1 f ;; forEach l2 f) w.
Proof.
  revert w; induction l1 as [|x l1 IH]; intros w; simpl; [reflexivity|].
  unfold bind in *. destruct (f x w); try reflexivity. apply IH.
Qed.

(** *** Missing default locale *)

Lemma pullProject_without_default_locale (platform : Platform)
    (project : Project) (w : world) (dir : directory)
    (text : jsstring) (localTranslations : obj jsstring)
    (pulledLocales : bundle) :
  get (locale_dirs w) (name project) = Some dir ->
  get dir (lit "en.json") = Some text ->
  JSON_parse platform text = Some localTranslations ->
  download platform project = Some pulledLocales ->
  lookup pulledLocales (defaultLocale project) = undefined ->
  pullProject platform project w =
  Returned tt (printed w [error_missing_default_locale (name project)]).
Proof.
  intros Hdir Hfile Hparse Hdl Hnone.
  unfold pullProject, bind, readFileSync, parse_json.
  rewrite Hdir, Hfile, Hparse. unfold ret.
  rewrite Hdl, Hnone.
  reflexivity.
Qed.

(** With a default locale that names a member of [Object.prototype] and is
    not a locale of the bundle, the test [pulledDefaultLocale == null] does
    not hold and [pullProject] goes past it. *)
Lemma pullProject_inherited_default_locale (platform : Platform)
    (project : Project) (w : world) (dir : directory)
    (text : jsstring) (localTranslations : obj jsstring)
    (pulledLocales : bundle) :
  get (locale_dirs w) (name project) = Some dir ->
  get dir (lit "en.json") = Some text ->
  JSON_parse platform text = Some localTranslations ->
  download platform project = Some pulledLocales ->
  lookup pulledLocales (defaultLocale project) = inherited_member ->
  pullProject platform project w = Astray w.
Proof.
  intros Hdir Hfile Hparse Hdl Hin.
  unfold pullProject, bind, readFileSync, parse_json.
  rewrite Hdir, Hfile, Hparse. unfold ret.
  rewrite Hdl, Hin.
  reflexivity.
Qed.


(** X23: when the lookup of the default locale in the downloaded bundle is
    [undefined], that is, the bundle has no map for it and it is not the
    name of a member of [Object.prototype], [pullProject] prints the error
    and returns; no file is written or changed, and the pull command goes on
    with the projects that follow. *)
Theorem pull_undefined_default_locale (platform : Platform)
    (project : Project) (rest : list Project) (w : world) (dir : directory)
    (text : jsstring) (localTranslations : obj jsstring)
    (pulledLocales : bundle) :
  get (locale_dirs w) (name project) = Some dir ->
  get dir (lit "en.json") = Some text ->
  JSON_parse platform text = Some localTranslations ->
  download platform project = Some pulledLocales ->
  get pulledLocales (defaultLocale project) = None ->
  inherited (defaultLocale project) = false ->
  (exists w',
     pullProject platform project w = Returned tt w' /\
     console w' = console w ++ [error_missing_default_locale (name project)] /\
     writes w' = writes w /\
     locale_dirs w' = locale_dirs w) /\
  pull_command platform (project :: rest) w =
  pull_command platform rest
    (printed w [log_project_name (name project); log_separator;
                error_missing_default_locale (name project);
                log_blank; log_blank]).
Proof.
  intros Hdir Hfile Hparse Hdl Hnone Hplain.
  assert (lookup pulledLocales (defaultLocale project) = undefined) as Hu
    by (apply lookup_undefined; now split).
  split.
  - eexists. split.
    + eapply pullProject_without_default_locale; eassumption.
    + repeat split.
  - unfold pull_command. simpl. unfold with_heading.
    unfold bind at 1 2 3 4. rewrite !console_log_printed.
    erewrite pullProject_without_default_locale; try eassumption.
    unfold bind. rewrite !console_log_printed, !printed_printed. reflexivity.
Qed.

Lemma pull_undefined_default_locale_witness :
  exists w',
    pull_command sample_platform [admin; web] admin_world = Returned tt w' /\
    firstn 5 (console w') =
      [log_project_name (lit "admin"); log_separator;
       error_missing_default_locale (lit "admin"); log_blank; log_blank] /\
    In (log_pulled (lit "web") (lit "fr.json")) (console w') /\
    Forall (fun entry => fst (fst entry) = lit "web") (writes w').
Proof.
  destruct (@pull_undefined_default_locale sample_platform admin [web]
              admin_world
              [(lit "en.json", file_of [(lit "a", lit "A")])]
              (file_of [(lit "a", lit "A")]) [(lit "a", lit "A")]
              [(lit "fr", [(lit "a", lit "A2")])]
              eq_refl eq_refl eq_refl eq_refl eq_refl eq_refl) as [_ H].
  rewrite H. vm_compute. eexists. split; [reflexivity|].
  split; [reflexivity|]. split.
  - do 8 right. left. reflexivity.
  - repeat constructor.
Defined.

(** *** Computations that never exit *)

Lemma bind_Exited_inv {A B} (m : M A) (f : A -> M B) (w w1 : world)
    (code : N) :
  bind m f w = Exited code w1 ->
  m w = Exited code w1 \/
  exists a w', m w = Returned a w' /\ f a w' = Exited code w1.
Proof.
  unfold bind. destruct (m w) as [a w'|c w'|w'|w'] eqn:E; intros H.
  - right. eauto.
  - left. injection H as -> ->. reflexivity.
  - discriminate.
  - discriminate.
Qed.

Lemma bind_Returned_inv {A B} (m : M A) (f : A -> M B) (w w1 : world)
    (b : B) :
  bind m f w = Returned b w1 ->
  exists a w', m w = Returned a w' /\ f a w' = Returned b w1.
Proof.
  unfold bind. destruct (m w) as [a w'|c w'|w'|w'] eqn:E; intros H;
    try discriminate. eauto.
Qed.

Lemma never_exits_ret {A} (a : A) : never_exits (ret a).
Proof. intros w c w'. discriminate. Qed.

Lemma never_exits_throw {A} : never_exits (@throw A).
Proof. intros w c w'. discriminate. Qed.

Lemma never_exits_astray {A} : never_exits (@astray A).
Proof. intros w c w'. discriminate. Qed.

Lemma never_exits_bind {A B} (m : M A) (f : A -> M B) :
  never_exits m -> (forall a, never_exits (f a)) -> never_exits (bind m f).
Proof.
  intros Hm Hf w c w1 H.
  apply bind_Exited_inv in H as [H | (a & w' & _ & H)].
  - exact (Hm _ _ _ H).
  - exact (Hf _ _ _ _ H).
Qed.

Lemma never_exits_forEach {A} (l : list A) (f : A -> M unit) :
  (forall x, never_exits (f x)) -> never_exits (forEach l f).
Proof.
  intros Hf. induction l as [|x l IH]; simpl.
  - apply never_exits_ret.
  - apply never_exits_bind; auto.
Qed.

Lemma never_exits_console_log (o : output) : never_exits (console_log o).
Proof. intros w c w'. discriminate. Qed.

Lemma never_exits_readFileSync (project file : jsstring) :
  never_exits (readFileSync project file).
Proof.
  intros w c w'. unfold readFileSync.
  destruct (get (locale_dirs w) project) as [dir|]; [|discriminate].
  destruct (get dir file); discriminate.
Qed.

Lemma never_exits_readdirSync (project : jsstring) :
  never_exits (readdirSync project).
Proof.
  intros w c w'. unfold readdirSync.
  destruct (get (locale_dirs w) project); discriminate.
Qed.

Lemma never_exits_writeFileSync (project file content : jsstring) :
  never_exits (writeFileSync project file content).
Proof.
  intros w c w'. unfold writeFileSync.
  destruct (get (locale_dirs w) project); discriminate.
Qed.

Lemma never_exits_parse_json (platform : Platform) (text : jsstring) :
  never_exits (parse_json platform text).
Proof.
  unfold parse_json. destruct (JSON_parse platform text).
  - apply never_exits_ret.
  - apply never_exits_throw.
Qed.

Create HintDb exits.

#[local] Hint Resolve never_exits_ret never_exits_throw never_exits_bind
  never_exits_forEach never_exits_console_log never_exits_readFileSync
  never_exits_readdirSync never_exits_writeFileSync never_exits_parse_json
  : exits.

Lemma never_exits_lint_files (platform : Platform) (project : jsstring)
    (files : list jsstring) (isOk : bool) :
  never_exits (lint_files platform project files isOk).
Proof.
  revert isOk; induction files as [|f files IH]; intros isOk; simpl.
  - auto with exits.
  - apply never_exits_bind; [auto with exits|]. intros text.
    apply never_exits_bind; [auto with exits|]. intros json.
    destruct (lintLocalesFile platform json); [|apply IH].
    apply never_exits_bind; [auto with exits|]. intros _.
    apply never_exits_bind; [|intros _; apply IH].
    apply never_exits_forEach. auto with exits.
Qed.

Lemma never_exits_lintProject (platform : Platform) (project : Project) :
  never_exits (lintProject platform project).
Proof.
  unfold lintProject. apply never_exits_bind; [auto with exits|].
  intros files. apply never_exits_lint_files.
Qed.

Lemma never_exits_cleanup_file (platform : Platform) (project : jsstring)
    (allowedKeys : jsset) (locale : jsstring) :
  never_exits (cleanup_file platform project allowedKeys locale).
Proof.
  unfold cleanup_file.
  apply never_exits_bind; [auto with exits|]. intros text.
  apply never_exits_bind; [auto with exits|]. intros json.
  apply never_exits_bind; [auto with exits|]. intros _.
  destruct (negb _); auto with exits.
Qed.

Lemma never_exits_cleanupProject (platform : Platform) (project : Project) :
  never_exits (cleanupProject platform project).
Proof.
  unfold cleanupProject.
  apply never_exits_bind; [auto with exits|]. intros text.
  apply never_exits_bind; [auto with exits|]. intros json.
  apply never_exits_bind; [auto with exits|]. intros files.
  apply never_exits_forEach. intros x. apply never_exits_cleanup_file.
Qed.

Lemma never_exits_write_pulled (platform : Platform) (project : jsstring)
    (entry : jsstring * obj jsstring) :
  never_exits (write_pulled platform project entry).
Proof. unfold write_pulled. auto with exits. Qed.

Lemma never_exits_upload_file (platform : Platform) (project : Project)
    (file : jsstring) :
  never_exits (upload_file platform project file).
Proof.
  unfold upload_file.
  apply never_exits_bind; [auto with exits|]. intros text.
  apply never_exits_bind; [|auto with exits].
  intros w c w'. destruct (upload platform _ _ _); discriminate.
Qed.

Lemma never_exits_lint_projects (platform : Platform)
    (projects : list Project) (hasError : bool) :
  never_exits (lint_projects platform projects hasError).
Proof.
  revert hasError; induction projects as [|p rest IH]; intros h; simpl.
  - auto with exits.
  - apply never_exits_bind; [apply never_exits_lintProject|].
    intros isOk. destruct (negb isOk); [|apply IH].
    apply never_exits_bind; [auto with exits|]. intros _.
    apply never_exits_bind; [auto with exits|]. intros _. apply IH.
Qed.

(** *** What a computation leaves in place *)

Lemma grows_refl (w : world) : grows w w.
Proof. exists []. now rewrite app_nil_r. Qed.

Lemma grows_trans (w1 w2 w3 : world) : grows w1 w2 -> grows w2 w3 -> grows w1 w3.
Proof.
  intros [m1 H1] [m2 H2]. exists (m1 ++ m2).
  now rewrite H2, H1, app_assoc.
Qed.

Lemma untouched_refl (w : world) : untouched w w.
Proof. now split. Qed.

Lemma untouched_trans (w1 w2 w3 : world) :
  untouched w1 w2 -> untouched w2 w3 -> untouched w1 w3.
Proof. intros [H1 H2] [H3 H4]. split; congruence. Qed.

Lemma untouched_grows (w w' : world) : untouched w w' -> grows w w'.
Proof. intros [H _]. exists []. now rewrite app_nil_r. Qed.

Section Preserves.
Variable R : world -> world -> Prop.
Hypothesis R_refl : forall w, R w w.
Hypothesis R_trans : forall w1 w2 w3, R w1 w2 -> R w2 w3 -> R w1 w3.
Hypothesis R_console_log : forall o, preserves R (console_log o).
Variable platform : Platform.

Lemma preserves_ret {A} (a : A) : preserves R (ret a).
Proof. intros w. apply R_refl. Qed.

Lemma preserves_throw {A} : preserves R (@throw A).
Proof. intros w. apply R_refl. Qed.

Lemma preserves_astray {A} : preserves R (@astray A).
Proof. intros w. apply R_refl. Qed.

Lemma preserves_process_exit {A} (code : N) :
  preserves R (@process_exit A code).
Proof. intros w. apply R_refl. Qed.

Lemma preserves_bind {A B} (m : M A) (f : A -> M B) :
  preserves R m -> (forall a, preserves R (f a)) -> preserves R (bind m f).
Proof.
  intros Hm Hf w. specialize (Hm w). unfold bind.
  destruct (m w) as [a w'|c w'|w'|w']; simpl in *; try exact Hm.
  eapply R_trans; [exact Hm | apply Hf].
Qed.

Lemma preserves_forEach {A} (l : list A) (f : A -> M unit) :
  (forall x, preserves R (f x)) -> preserves R (forEach l f).
Proof.
  intros Hf. induction l as [|x l IH]; simpl.
  - apply preserves_ret.
  - apply preserves_bind; auto.
Qed.

Lemma preserves_parse_json (text : jsstring) :
  preserves R (parse_json platform text).
Proof.
  unfold parse_json. destruct (JSON_parse platform text).
  - apply preserves_ret.
  - apply preserves_throw.
Qed.

Lemma preserves_readFileSync (project file : jsstring) :
  preserves R (readFileSync project file).
Proof.
  intros w. unfold readFileSync.
  destruct (get (locale_dirs w) project) as [dir|]; [|apply R_refl].
  destruct (get dir file); apply R_refl.
Qed.

Lemma preserves_readdirSync (project : jsstring) :
  preserves R (readdirSync project).
Proof.
  intros w. unfold readdirSync.
  destruct (get (locale_dirs w) project); apply R_refl.
Qed.

Ltac kept :=
  first [ apply preserves_ret | apply preserves_throw
        | apply preserves_astray
        | apply preserves_process_exit | apply preserves_parse_json
        | apply preserves_readFileSync | apply preserves_readdirSync
        | apply R_console_log | assumption ].

Ltac kept_bind := apply preserves_bind; [try kept | intros ?].

Lemma preserves_lint_files (project : jsstring) (files : list jsstring)
    (isOk : bool) :
  preserves R (lint_files platform project files isOk).
Proof.
  revert isOk; induction files as [|f files IH]; intros isOk; simpl.
  - kept.
  - kept_bind. kept_bind.
    destruct (lintLocalesFile platform _); [|apply IH].
    kept_bind. kept_bind; [|apply IH].
    apply preserves_forEach. intros e. kept.
Qed.

Lemma preserves_lintProject (project : Project) :
  preserves R (lintProject platform project).
Proof. unfold lintProject. kept_bind. apply preserves_lint_files. Qed.

Lemma preserves_lint_projects (projects : list Project) (hasError : bool) :
  preserves R (lint_projects platform projects hasError).
Proof.
  revert hasError; induction projects as [|p rest IH]; intros h; simpl.
  - kept.
  - kept_bind; [apply preserves_lintProject|].
    destruct (negb _); [|apply IH].
    kept_bind. kept_bind. apply IH.
Qed.

Hypothesis R_writeFileSync :
  forall project file content,
    preserves R (writeFileSync project file content).

Hypothesis R_uploads :
  forall w more,
    R w {| locale_dirs := locale_dirs w; writes := writes w;
           console := console w; uploads := uploads w ++ more |}.

Lemma preserves_cleanup_file (project : jsstring) (allowedKeys : jsset)
    (locale : jsstring) :
  preserves R (cleanup_file platform project allowedKeys locale).
Proof.
  unfold cleanup_file. kept_bind. kept_bind. kept_bind.
  destruct (negb _); [apply R_writeFileSync | kept].
Qed.

Lemma preserves_cleanupProject (project : Project) :
  preserves R (cleanupProject platform project).
Proof.
  unfold cleanupProject. kept_bind. kept_bind. kept_bind.
  apply preserves_forEach. intros x. apply preserves_cleanup_file.
Qed.

Lemma preserves_write_pulled (project : jsstring)
    (entry : jsstring * obj jsstring) :
  preserves R (write_pulled platform project entry).
Proof. unfold write_pulled. kept_bind. apply R_writeFileSync. Qed.

Lemma preserves_pullProject (project : Project) :
  preserves R (pullProject platform project).
Proof.
  unfold pullProject. kept_bind. kept_bind.
  destruct (download platform project); [|kept].
  destruct (lookup _ _).
  - kept_bind.
    { apply preserves_forEach. intros x. apply preserves_write_pulled. }
    kept_bind. kept_bind; [apply preserves_cleanupProject|].
    kept_bind. kept_bind; [apply preserves_lintProject|].
    destruct (negb _); kept.
  - kept.
  - kept_bind. kept.
Qed.

Lemma preserves_upload_file (project : Project) (file : jsstring) :
  preserves R (upload_file platform project file).
Proof.
  unfold upload_file. kept_bind. kept_bind; [|kept].
  intros w. destruct (upload platform _ _ _); simpl;
    [apply R_uploads | apply R_refl].
Qed.

Lemma preserves_pushProject (project : Project) :
  preserves R (pushProject platform project).
Proof.
  unfold pushProject. kept_bind; [apply preserves_cleanupProject|].
  kept_bind. kept_bind; [apply preserves_lintProject|].
  kept_bind; [destruct (negb _); kept|].
  kept_bind. kept_bind.
  apply preserves_forEach. intros x. apply preserves_upload_file.
Qed.

Lemma preserves_with_heading (work : Project -> M unit) (project : Project) :
  preserves R (work project) ->
  preserves R (with_heading work project).
Proof.
  intros H. unfold with_heading.
  kept_bind. kept_bind. kept_bind. kept_bind. kept.
Qed.

End Preserves.

Lemma untouched_console_log (o : output) : preserves untouched (console_log o).
Proof. intros w. now split. Qed.

Lemma grows_console_log (o : output) : preserves grows (console_log o).
Proof. intros w. apply untouched_grows, untouched_console_log. Qed.

Lemma grows_writeFileSync (project file content : jsstring) :
  preserves grows (writeFileSync project file content).
Proof.
  intros w. unfold writeFileSync.
  destruct (get (locale_dirs w) project); simpl; [|apply grows_refl].
  now exists [(project, file, content)].
Qed.

Lemma grows_uploads (w : world) (more : list (jsstring * jsstring * jsstring)) :
  grows w {| locale_dirs := locale_dirs w; writes := writes w;
             console := console w; uploads := uploads w ++ more |}.
Proof. exists []. simpl. now rewrite app_nil_r. Qed.

(** Linting reads and prints; it writes nothing. *)
Lemma untouched_lintProject (platform : Platform) (project : Project) :
  preserves untouched (lintProject platform project).
Proof.
  apply preserves_lintProject;
    first [apply untouched_refl | apply untouched_trans
          | apply untouched_console_log].
Qed.

Lemma untouched_lint_projects (platform : Platform) (projects : list Project)
    (hasError : bool) :
  preserves untouched (lint_projects platform projects hasError).
Proof.
  apply preserves_lint_projects;
    first [apply untouched_refl | apply untouched_trans
          | apply untouched_console_log].
Qed.

(** Pulling and pushing only add to the calls of [writeFileSync]. *)
Lemma grows_pullProject (platform : Platform) (project : Project) :
  preserves grows (pullProject platform project).
Proof.
  apply preserves_pullProject;
    first [apply grows_refl | apply grows_trans | apply grows_console_log
          | apply grows_writeFileSync | apply grows_uploads].
Qed.

Lemma grows_pushProject (platform : Platform) (project : Project) :
  preserves grows (pushProject platform project).
Proof.
  apply preserves_pushProject;
    first [apply grows_refl | apply grows_trans | apply grows_console_log
          | apply grows_writeFileSync | apply grows_uploads].
Qed.

Lemma grows_with_heading (work : Project -> M unit) (project : Project) :
  preserves grows (work project) ->
  preserves grows (with_heading work project).
Proof.
  apply preserves_with_heading;
    first [apply grows_refl | apply grows_trans | apply grows_console_log
          | apply grows_writeFileSync | apply grows_uploads].
Qed.

(** *** Where the process exits *)

Lemma reference_of_None_read (platform : Platform) (project : Project)
    (w : world) {B} (k : obj jsstring -> M B) :
  reference_of platform project w = None ->
  (text <- readFileSync (name project) (lit "en.json") ;;
   json <- parse_json platform text ;; k json) w = Thrown w.
Proof.
  unfold reference_of, bind, readFileSync, parse_json.
  destruct (get (locale_dirs w) (name project)) as [dir|]; [|reflexivity].
  destruct (get dir (lit "en.json")) as [text|]; [|reflexivity].
  now intros ->.
Qed.

Lemma reference_of_Some_read (platform : Platform) (project : Project)
    (w : world) (json : obj jsstring) {B} (k : obj jsstring -> M B) :
  reference_of platform project w = Some json ->
  (text <- readFileSync (name project) (lit "en.json") ;;
   json <- parse_json platform text ;; k json) w = k json w.
Proof.
  unfold reference_of, bind, readFileSync, parse_json.
  destruct (get (locale_dirs w) (name project)) as [dir|]; [|discriminate].
  destruct (get dir (lit "en.json")) as [text|]; [|discriminate].
  now intros ->.
Qed.


Lemma pullProject_Exited (platform : Platform) (project : Project)
    (w w1 : world) (code : N) :
  pullProject platform project w = Exited code w1 ->
  code = 1%N /\
  exists w', lintProject platform project w' = Returned false w1.
Proof.
  unfold pullProject. intros H.
  apply bind_Exited_inv in H as [H | (text & w2 & _ & H)];
    [now apply never_exits_readFileSync in H|].
  apply bind_Exited_inv in H as [H | (json & w3 & _ & H)];
    [now apply never_exits_parse_json in H|].
  destruct (download platform project); [|discriminate].
  destruct (lookup _ _); [|discriminate|].
  - apply bind_Exited_inv in H as [H | (? & w4 & _ & H)].
    { apply never_exits_forEach in H; [contradiction|].
      intros e. apply never_exits_write_pulled. }
    apply bind_Exited_inv in H as [H | (? & w5 & _ & H)]; [discriminate|].
    apply bind_Exited_inv in H as [H | (? & w6 & _ & H)];
      [now apply never_exits_cleanupProject in H|].
    apply bind_Exited_inv in H as [H | (? & w7 & _ & H)]; [discriminate|].
    apply bind_Exited_inv in H as [H | (isOk & w8 & Hlint & H)];
      [now apply never_exits_lintProject in H|].
    destruct isOk; simpl in H; [discriminate|].
    injection H as <- <-. split; [reflexivity|]. now exists w7.
  - apply bind_Exited_inv in H as [H | (? & w4 & _ & H)]; discriminate.
Qed.

Lemma pushProject_Exited (platform : Platform) (project : Project)
    (w w1 : world) (code : N) :
  pushProject platform project w = Exited code w1 ->
  code = 1%N /\
  exists w', lintProject platform project w' = Returned false w1.
Proof.
  unfold pushProject. intros H.
  apply bind_Exited_inv in H as [H | (? & w2 & _ & H)];
    [now apply never_exits_cleanupProject in H|].
  apply bind_Exited_inv in H as [H | (? & w3 & _ & H)]; [discriminate|].
  apply bind_Exited_inv in H as [H | (isOk & w4 & Hlint & H)];
    [now apply never_exits_lintProject in H|].
  apply bind_Exited_inv in H as [H | (? & w5 & Hret & H)].
  - destruct isOk; simpl in H; [discriminate|].
    injection H as <- <-. split; [reflexivity|]. now exists w3.
  - apply bind_Exited_inv in H as [H | (? & w6 & _ & H)]; [discriminate|].
    apply bind_Exited_inv in H as [H | (files & w7 & _ & H)];
      [now apply never_exits_readdirSync in H|].
    apply never_exits_forEach in H; [contradiction|].
    intros e. apply never_exits_upload_file.
Qed.

Lemma with_heading_Exited (work : Project -> M unit) (project : Project)
    (w w1 : world) (code : N) :
  with_heading work project w = Exited code w1 ->
  work project
    (printed w [log_project_name (name project); log_separator])
  = Exited code w1.
Proof.
  unfold with_heading. intros H.
  apply bind_Exited_inv in H as [H | (? & w2 & E2 & H)]; [discriminate|].
  rewrite console_log_printed in E2. injection E2 as E2. subst w2.
  apply bind_Exited_inv in H as [H | (? & w3 & E3 & H)]; [discriminate|].
  rewrite console_log_printed in E3. injection E3 as E3. subst w3.
  rewrite printed_printed in H. simpl in H.
  apply bind_Exited_inv in H as [H | (? & w4 & _ & H)]; [exact H|].
  apply bind_Exited_inv in H as [H | (? & w5 & _ & H)]; discriminate.
Qed.

(** Past the lookup of the default locale, [pullProject] is the write loop
    over the merged bundle, the clean-up and the lint. *)
Lemma pullProject_merged (platform : Platform) (project : Project)
    (w : world) (localTranslations : obj jsstring)
    (pulledLocales result : bundle) :
  reference_of platform project w = Some localTranslations ->
  download platform project = Some pulledLocales ->
  reconcile (defaultLocale project) localTranslations pulledLocales
    = Some result ->
  pullProject platform project w =
  (forEach result (write_pulled platform (name project)) ;;
   console_log log_blank ;;
   cleanupProject platform project ;;
   console_log log_blank ;;
   isOk <- lintProject platform project ;;
   if negb isOk then process_exit 1 else ret tt) w.
Proof.
  intros Href Hdl Hrec.
  destruct (reconcile_Some_inv _ _ _ Hrec) as (d & Hd & ->).
  unfold pullProject.
  rewrite (reference_of_Some_read _ _ _ _ Href). rewrite Hdl.
  now rewrite (lookup_own _ _ Hd).
Qed.

(** A failing lint ends [pullProject] with status 1, right there. *)
Lemma pullProject_lint_failure (platform : Platform) (project : Project)
    (w w1 w2 w3 : world) (localTranslations : obj jsstring)
    (pulledLocales result : bundle) :
  reference_of platform project w = Some localTranslations ->
  download platform project = Some pulledLocales ->
  reconcile (defaultLocale project) localTranslations pulledLocales
    = Some result ->
  forEach result (write_pulled platform (name project)) w = Returned tt w1 ->
  cleanupProject platform project (printed w1 [log_blank]) = Returned tt w2 ->
  lintProject platform project (printed w2 [log_blank]) = Returned false w3 ->
  pullProject platform project w = Exited 1 w3.
Proof.
  intros Href Hdl Hrec Hwrite Hclean Hlint.
  rewrite (pullProject_merged _ _ _ Href Hdl Hrec).
  unfold bind. rewrite Hwrite, console_log_printed, Hclean,
    console_log_printed, Hlint. reflexivity.
Qed.

(** A failing lint ends [pushProject] with status 1, right there. *)
Lemma pushProject_lint_failure (platform : Platform) (project : Project)
    (w w1 w2 : world) :
  cleanupProject platform project w = Returned tt w1 ->
  lintProject platform project (printed w1 [log_blank]) = Returned false w2 ->
  pushProject platform project w = Exited 1 w2.
Proof.
  intros Hclean Hlint. unfold pushProject, bind.
  rewrite Hclean, console_log_printed, Hlint. reflexivity.
Qed.

Lemma with_heading_Exited_intro (work : Project -> M unit)
    (project : Project) (w w1 : world) (code : N) :
  work project
    (printed w [log_project_name (name project); log_separator])
  = Exited code w1 ->
  with_heading work project w = Exited code w1.
Proof.
  intros H. unfold with_heading, bind.
  rewrite !console_log_printed, printed_printed. simpl. now rewrite H.
Qed.

(** A loop that exits in one round never starts the rounds that follow. *)
Lemma forEach_Exited {A} (before after : list A) (x : A) (f : A -> M unit)
    (w w0 w1 : world) (code : N) :
  forEach before f w = Returned tt w0 ->
  f x w0 = Exited code w1 ->
  forEach (before ++ x :: after) f w = Exited code w1.
Proof.
  intros Hb Hx. rewrite forEach_app. unfold bind. rewrite Hb. simpl.
  unfold bind. now rewrite Hx.
Qed.

Lemma grows_forEach_Returned {A} (l : list A) (f : A -> M unit)
    (w w0 : world) :
  (forall x, preserves grows (f x)) ->
  forEach l f w = Returned tt w0 -> grows w w0.
Proof.
  intros Hf H.
  pose proof (@preserves_forEach grows grows_refl grows_trans _ l f Hf w) as G.
  now rewrite H in G.
Qed.

Lemma lint_projects_app (platform : Platform) (l1 l2 : list Project)
    (hasError : bool) (w : world) :
  lint_projects platform (l1 ++ l2) hasError w =
  (h <- lint_projects platform l1 hasError ;; lint_projects platform l2 h) w.
Proof.
  revert hasError w; induction l1 as [|p l1 IH]; intros h w; simpl;
    [reflexivity|].
  unfold bind in *. destruct (lintProject platform p w) as [isOk w'| | |];
    try reflexivity.
  destruct (negb isOk); simpl; apply IH.
Qed.

Lemma lint_projects_sticky (platform : Platform) (projects : list Project)
    (w w' : world) (h : bool) :
  lint_projects platform projects true w = Returned h w' -> h = true.
Proof.
  revert w; induction projects as [|p rest IH]; intros w; simpl.
  - now intros [= <- _].
  - intros H. apply bind_Returned_inv in H as (isOk & w1 & _ & H).
    destruct (negb isOk); [|now apply IH in H].
    apply bind_Returned_inv in H as (? & w2 & _ & H).
    apply bind_Returned_inv in H as (? & w3 & _ & H).
    now apply IH in H.
Qed.

(** *** Validation errors and the exit status *)




(* ================================================================== *)
(** ** Writing locale files *)
(* ================================================================== *)

Lemma join_indented (gap sep : jsstring) (x : jsstring) (l : list jsstring) :
  gap ++ join (sep ++ gap) (x :: l) = join sep (map (app gap) (x :: l)).
Proof.
  revert x; induction l as [|y l IH]; intros x; [reflexivity|].
  change (join (sep ++ gap) (x :: y :: l))
    with (x ++ (sep ++ gap) ++ join (sep ++ gap) (y :: l)).
  change (join sep (map (app gap) (x :: y :: l)))
    with ((gap ++ x) ++ sep ++ join sep (map (app gap) (y :: l))).
  rewrite <- IH. now rewrite <- !app_assoc.
Qed.

(** With [space = 2] every member of a non-empty object stands on a line
    of its own, behind two spaces. *)
Lemma JSON_stringify_indent_2 (entry : jsstring * jsstring)
    (rest : obj jsstring) :
  JSON_stringify (entry :: rest) 2 =
  lit "{" ++ [LF]
  ++ join (lit "," ++ [LF])
       (map (fun e => [SPACE; SPACE] ++ quote (fst e) ++ lit ": "
                      ++ quote (snd e))
            (entry :: rest))
  ++ [LF] ++ lit "}".
Proof.
  unfold JSON_stringify.
  change (repeat SPACE (Nat.min 10 2)) with [SPACE; SPACE].
  cbv iota. f_equal. f_equal.
  rewrite app_assoc. f_equal.
  change (lit "," ++ [LF] ++ [SPACE; SPACE])
    with ((lit "," ++ [LF]) ++ [SPACE; SPACE]).
  destruct entry as [k v]. simpl map at 1.
  rewrite join_indented.
  change (member [SPACE; SPACE] (k, v) :: map (member [SPACE; SPACE]) rest)
    with (map (member [SPACE; SPACE]) ((k, v) :: rest)).
  rewrite map_map. reflexivity.
Qed.

(** The loop of [pullProject] writes the file whatever it holds. *)
Lemma write_pulled_always_writes (platform : Platform) (project : jsstring)
    (entry : jsstring * obj jsstring) (w : world) (dir : directory) :
  get (locale_dirs w) project = Some dir ->
  exists w',
    write_pulled platform project entry w = Returned tt w' /\
    writes w' =
      writes w ++ [(project, fst entry ++ lit ".json",
                    serialize platform (snd entry))].
Proof.
  intros Hdir. unfold write_pulled, bind, console_log, writeFileSync.
  simpl. rewrite Hdir. eexists. split; reflexivity.
Qed.

(** The loop of [cleanupProject] writes the file only when the text
    changes. *)
Lemma cleanup_file_writes_when_changed (platform : Platform)
    (project : jsstring) (allowedKeys : jsset) (locale : jsstring)
    (w : world) (dir : directory) (rawFile : jsstring)
    (json : obj jsstring) :
  get (locale_dirs w) project = Some dir ->
  get dir locale = Some rawFile ->
  JSON_parse platform rawFile = Some json ->
  exists w',
    cleanup_file platform project allowedKeys locale w = Returned tt w' /\
    writes w' =
      if eqb rawFile (serialize platform (cleanupJson json allowedKeys))
      then writes w
      else writes w ++ [(project, locale,
                         serialize platform (cleanupJson json allowedKeys))].
Proof.
  intros Hdir Hfile Hparse.
  unfold cleanup_file, bind, readFileSync, parse_json.
  rewrite Hdir, Hfile, Hparse. unfold ret, console_log.
  destruct (eqb rawFile _); simpl.
  - eexists. split; reflexivity.
  - unfold writeFileSync. simpl. rewrite Hdir.
    eexists. split; reflexivity.
Qed.

(** [onlyKeepKeysInJson] writes the file whatever it holds. *)
Lemma onlyKeepKeysInJson_always_writes (platform : Platform)
    (project file : jsstring) (keysToKeep : jsset) (w : world)
    (dir : directory) (text : jsstring) (json : obj jsstring) :
  get (locale_dirs w) project = Some dir ->
  get dir file = Some text ->
  JSON_parse platform text = Some json ->
  exists w' kept,
    onlyKeepKeysInJson platform project file keysToKeep w = Returned tt w' /\
    writes w' = writes w ++ [(project, file, serialize platform kept)].
Proof.
  intros Hdir Hfile Hparse.
  unfold onlyKeepKeysInJson, bind, readFileSync, parse_json.
  rewrite Hdir, Hfile, Hparse. unfold ret, writeFileSync.
  rewrite Hdir. unfold console_log. simpl.
  eexists. eexists. split; reflexivity.
Qed.

(** C7 at a project whose files already hold what the remote has: the
    files are serialised with two spaces of indentation and one line feed at
    the end; [lokalise clean] leaves them alone, but [lokalise pull] writes
    both of them again with the very text they hold, and so does
    [onlyKeepKeysInJson] when it keeps every key. *)
Theorem pull_rewrites_identical_files :
  let en := lit "{" ++ [LF; SPACE; SPACE; DQUOTE] ++ lit "a"
            ++ [DQUOTE] ++ lit ": " ++ [DQUOTE] ++ lit "A" ++ [DQUOTE; LF]
            ++ lit "}" ++ [LF] in
  let fr := lit "{" ++ [LF; SPACE; SPACE; DQUOTE] ++ lit "a"
            ++ [DQUOTE] ++ lit ": " ++ [DQUOTE] ++ lit "A2" ++ [DQUOTE; LF]
            ++ lit "}" ++ [LF] in
  locale_dirs up_to_date_world =
    [(lit "web", [(lit "en.json", en); (lit "fr.json", fr)])] /\
  (exists w',
     clean_command sample_platform [web] up_to_date_world = Returned tt w' /\
     writes w' = []) /\
  (exists w',
     pull_command sample_platform [web] up_to_date_world = Returned tt w' /\
     locale_dirs w' = locale_dirs up_to_date_world /\
     writes w' = [(lit "web", lit "en.json", en);
                  (lit "web", lit "fr.json", fr)]) /\
  (exists w',
     onlyKeepKeysInJson sample_platform (lit "web") (lit "fr.json")
       [lit "a"] up_to_date_world = Returned tt w' /\
     locale_dirs w' = locale_dirs up_to_date_world /\
     writes w' = [(lit "web", lit "fr.json", fr)]).
Proof.
  cbv zeta. split; [reflexivity|].
  split; [|split]; eexists; vm_compute; repeat split.
Qed.

(* ================================================================== *)
(** ** More on the normalizer *)
(* ================================================================== *)

Lemma In_get_NoDup {V : Type} (o : obj V) (k : jsstring) (v : V) :
  NoDup (keys o) -> In (k, v) o -> get o k = Some v.
Proof.
  induction o as [|[k0 v0] o IH]; simpl; [tauto|].
  intros Hnd [E|Hin].
  - injection E as -> ->. now rewrite eqb_refl.
  - inversion Hnd as [|? ? Hk Hrest]; subst.
    destruct (eqb k0 k) eqn:E.
    + apply eqb_eq in E. subst k0. exfalso. apply Hk.
      change (In (fst (k, v)) (map fst o)). now apply in_map.
    + auto.
Qed.

(** X1: the result of [cleanupJson] has exactly the keys of the input that
    the allowed set has, each of them once. *)
Theorem cleanupJson_keeps_allowed_keys (json : obj jsstring)
    (allowedKeys : jsset) :
  (forall k, In k (keys (cleanupJson json allowedKeys)) <->
             In k (keys json) /\ has allowedKeys k = true) /\
  NoDup (keys (cleanupJson json allowedKeys)).
Proof.
  split.
  - intros k. apply In_keys_cleanupJson.
  - apply NoDup_keys_cleanupJson.
Qed.

(** X2: when no kept key is an array index, the result of [cleanupJson]
    lists its keys in strictly ascending order of their code units. *)
Theorem cleanupJson_ascending_without_index_keys (json : obj jsstring)
    (allowedKeys : jsset) :
  (forall k, In k (keys json) -> has allowedKeys k = true ->
             array_index k = None) ->
  StronglySorted lt (keys (cleanupJson json allowedKeys)).
Proof. apply keys_cleanupJson_ascending. Qed.

Lemma cleanupJson_ascending_without_index_keys_witness :
  keys (cleanupJson unsorted_map
          [lit "home.title"; lit "home.count"; lit "about"])
  = [lit "about"; lit "home.count"; lit "home.title"] /\
  StronglySorted lt
    (keys (cleanupJson unsorted_map
             [lit "home.title"; lit "home.count"; lit "about"])).
Proof.
  split; [reflexivity|].
  apply cleanupJson_ascending_without_index_keys.
  intros k Hk _. simpl in Hk.
  destruct Hk as [<-|[<-|[<-|[]]]]; reflexivity.
Defined.

Lemma is_clean_head (value : jsstring) :
  is_clean value <->
  ~ In TAB value /\
  head_is (fun x => N.eqb x SPACE) value = false /\
  head_is (fun x => N.eqb x SPACE) (rev value) = false.
Proof.
  unfold is_clean. now rewrite startsWith_one, endsWith_one.
Qed.

(** X3: every value of the result of [cleanupJson] is free of tabs and has
    no space at its start or at its end. *)
Theorem cleanupJson_values_clean (json : obj jsstring) (allowedKeys : jsset) :
  Forall is_clean (values (cleanupJson json allowedKeys)).
Proof.
  apply Forall_forall. intros v Hv.
  apply in_map_iff in Hv as [[k v'] [E Hin]]. simpl in E. subst v'.
  apply In_get_NoDup in Hin; [|apply NoDup_keys_cleanupJson].
  rewrite get_cleanupJson in Hin.
  destruct (has allowedKeys k); [|discriminate].
  destruct (get json k) as [v0|]; [|discriminate].
  injection Hin as <-. apply is_clean_head, cleanValue_shape.
Qed.

(** X4: the clean-up of [cleanupJson] leaves a value as it is exactly when
    the value has no tab and no space at either end. *)
Theorem cleanValue_identity_iff (value : jsstring) :
  cleanValue value = value <-> is_clean value.
Proof.
  rewrite is_clean_head. split.
  - intros E. rewrite <- E. apply cleanValue_shape.
  - intros (H1 & H2 & H3). now apply cleanValue_fixed.
Qed.

(* ================================================================== *)
(** ** More on the reconciler *)
(* ================================================================== *)

Lemma locallyAddedKeys_nil (local pulled : obj jsstring) :
  (forall k, In k (keys local) -> In k (keys pulled)) ->
  locallyAddedKeys local pulled = [].
Proof.
  intros H. destruct (locallyAddedKeys local pulled) as [|k l] eqn:E;
    [reflexivity|].
  assert (In k (locallyAddedKeys local pulled)) as Hin
    by (rewrite E; now left).
  apply In_locallyAddedKeys in Hin as [H1 H2]. exfalso. auto.
Qed.

Lemma locallyRemovedKeys_nil (local pulled : obj jsstring) :
  (forall k, In k (keys pulled) -> In k (keys local)) ->
  locallyRemovedKeys local pulled = [].
Proof.
  intros H. destruct (locallyRemovedKeys local pulled) as [|k l] eqn:E;
    [reflexivity|].
  assert (In k (locallyRemovedKeys local pulled)) as Hin
    by (rewrite E; now left).
  apply In_locallyRemovedKeys in Hin as [H1 H2]. exfalso. auto.
Qed.

Lemma reconcile_same_keys (defaultLocale : jsstring)
    (localTranslations : obj jsstring) (pulledLocales : bundle)
    (R : obj jsstring) :
  get pulledLocales defaultLocale = Some R ->
  (forall k, In k (keys R) <-> In k (keys localTranslations)) ->
  reconcile defaultLocale localTranslations pulledLocales
  = Some pulledLocales.
Proof.
  intros Hd Hk. unfold reconcile, merge. rewrite (lookup_own _ _ Hd).
  rewrite locallyAddedKeys_nil by (intros k; apply Hk).
  rewrite locallyRemovedKeys_nil by (intros k; apply Hk).
  reflexivity.
Qed.

(** The keys of the default-locale map after [reconcile]: those of the
    local reference, without a [__proto__] that the remote map lacked. *)
Lemma reconcile_default_keys (defaultLocale : jsstring)
    (localTranslations : obj jsstring) (pulledLocales : bundle)
    (R : obj jsstring) :
  get pulledLocales defaultLocale = Some R ->
  exists result R',
    reconcile defaultLocale localTranslations pulledLocales = Some result /\
    get result defaultLocale = Some R' /\
    forall k, In k (keys R') <->
              In k (keys localTranslations) /\ (k = PROTO -> In k (keys R)).
Proof.
  intros Hd.
  destruct (@get_reconcile _ localTranslations _ _ _ _ [] Hd Hd)
    as (result & R' & Hres & Hget & _).
  exists result, R'. split; [exact Hres|]. split; [exact Hget|].
  intros k.
  destruct (@get_reconcile _ localTranslations _ _ _ _ k Hd Hd)
    as (result2 & R2 & Hres2 & Hget2 & Hk).
  rewrite Hres in Hres2. injection Hres2 as <-.
  rewrite Hget in Hget2. injection Hget2 as <-.
  rewrite (In_keys_get R'), Hk, eqb_refl. simpl.
  destruct (has (locallyRemovedKeys localTranslations R) k) eqn:Hrem.
  - apply has_In, In_locallyRemovedKeys in Hrem as [_ Hn].
    split; [intros [v Hv]; discriminate | tauto].
  - apply has_false in Hrem. rewrite In_locallyRemovedKeys in Hrem.
    destruct (has (locallyAddedKeys localTranslations R) k) eqn:Hadd.
    + apply has_In, In_locallyAddedKeys in Hadd as [Hl Hn].
      destruct (eqb k PROTO) eqn:Ep; simpl.
      * apply eqb_eq in Ep. rewrite <- In_keys_get. tauto.
      * apply eqb_neq in Ep. rewrite <- In_keys_get. tauto.
    + apply has_false in Hadd. rewrite In_locallyAddedKeys in Hadd.
      simpl. rewrite <- In_keys_get. split.
      * intros HR. destruct (in_dec (list_eq_dec N.eq_dec) k
                               (keys localTranslations)); tauto.
      * intros [HL _]. destruct (in_dec (list_eq_dec N.eq_dec) k (keys R));
          tauto.
Qed.

(** Assigning a [__proto__] that the map does not have, any number of
    times, leaves the map as it is. *)
Lemma fold_seed_added_new_proto (localTranslations json : obj jsstring)
    (added : list jsstring) :
  (forall k, In k added -> k = PROTO /\ has_own json PROTO = false) ->
  fold_left (seed_added localTranslations) added json = json.
Proof.
  induction added as [|h t IH]; intros Hall; simpl; [reflexivity|].
  assert (seed_added localTranslations json h = json) as ->.
  { destruct (Hall h) as [-> Hn]; [now left|]. unfold seed_added.
    destruct (get localTranslations PROTO); [|reflexivity].
    now apply assign_new_proto. }
  apply IH. intros k Hk. apply Hall. now right.
Qed.

(** X5: after [reconcile] the map of the default locale has exactly the
    keys of the local reference, without the key [__proto__] when the remote
    map of the default locale did not have it. *)
Theorem reconcile_default_locale_keys (defaultLocale : jsstring)
    (localTranslations : obj jsstring) (pulledLocales : bundle)
    (R : obj jsstring) :
  get pulledLocales defaultLocale = Some R ->
  exists result R',
    reconcile defaultLocale localTranslations pulledLocales = Some result /\
    get result defaultLocale = Some R' /\
    forall k, In k (keys R') <->
              In k (keys localTranslations) /\ (k = PROTO -> In k (keys R)).
Proof. apply reconcile_default_keys. Qed.

Lemma reconcile_default_locale_keys_witness :
  (exists result R',
     reconcile (lit "en") mixed_local mixed_bundle = Some result /\
     get result (lit "en") = Some R' /\
     keys R' = [lit "a"; lit "c"]) /\
  (exists result R',
     reconcile (lit "en") proto_local proto_bundle = Some result /\
     get result (lit "en") = Some R' /\
     (In PROTO (keys R') <->
      In PROTO (keys proto_local) /\
      (PROTO = PROTO -> In PROTO (keys [(lit "a", lit "A")])))).
Proof.
  split.
  - destruct (@reconcile_default_locale_keys (lit "en") mixed_local
                mixed_bundle [(lit "a", lit "A"); (lit "b", lit "B")] eq_refl)
      as (result & R' & Hres & Hget & _).
    exists result, R'. split; [exact Hres|]. split; [exact Hget|].
    vm_compute in Hres. injection Hres as <-.
    vm_compute in Hget. injection Hget as <-. reflexivity.
  - destruct (@reconcile_default_locale_keys (lit "en") proto_local
                proto_bundle [(lit "a", lit "A")] eq_refl)
      as (result & R' & Hres & Hget & Hk).
    exists result, R'. split; [exact Hres|]. split; [exact Hget|].
    apply Hk.
Defined.

(** X6: when the remote map of the default locale and the local reference
    have the same keys, [reconcile] returns the bundle as it came, whatever
    the values are. *)
Theorem reconcile_unchanged_when_keys_agree (defaultLocale : jsstring)
    (localTranslations : obj jsstring) (pulledLocales : bundle)
    (R : obj jsstring) :
  get pulledLocales defaultLocale = Some R ->
  (forall k, In k (keys R) <-> In k (keys localTranslations)) ->
  reconcile defaultLocale localTranslations pulledLocales
  = Some pulledLocales.
Proof. apply reconcile_same_keys. Qed.

Lemma reconcile_unchanged_when_keys_agree_witness :
  reconcile (lit "en") [(lit "a", lit "local text")] added_bundle
  = Some added_bundle.
Proof.
  apply (@reconcile_unchanged_when_keys_agree (lit "en")
           [(lit "a", lit "local text")] added_bundle
           [(lit "a", lit "A")] eq_refl).
  intros k. simpl. tauto.
Defined.

(** X7: reconciling the result of [reconcile] once more with the same local
    reference changes nothing. *)
Theorem reconcile_idempotent (defaultLocale : jsstring)
    (localTranslations : obj jsstring) (pulledLocales result : bundle) :
  reconcile defaultLocale localTranslations pulledLocales = Some result ->
  reconcile defaultLocale localTranslations result = Some result.
Proof.
  intros Hres.
  destruct (reconcile_Some_inv _ _ _ Hres) as (R & Hd & _).
  destruct (@reconcile_default_keys _ localTranslations _ _ Hd)
    as (result' & R' & Hres' & Hget & Hk).
  rewrite Hres in Hres'. injection Hres' as <-.
  unfold reconcile, merge. rewrite (lookup_own _ _ Hget).
  rewrite (locallyRemovedKeys_nil localTranslations R')
    by (intros k H; now apply Hk in H).
  simpl. rewrite (fold_assign_added _ _ _ _ Hget).
  rewrite fold_seed_added_new_proto.
  - now rewrite (update_same _ _ Hget).
  - intros k Hadd. apply In_locallyAddedKeys in Hadd as [HL Hn].
    assert (k = PROTO) as ->.
    { destruct (list_eq_dec N.eq_dec k PROTO) as [E|E]; [exact E|].
      exfalso. apply Hn, Hk. split; [exact HL | intros; contradiction]. }
    split; [reflexivity|]. now apply has_own_false, get_None_keys.
Qed.

Lemma reconcile_idempotent_witness :
  exists result,
    reconcile (lit "en") mixed_local mixed_bundle = Some result /\
    reconcile (lit "en") mixed_local result = Some result.
Proof.
  eexists. split; [vm_compute; reflexivity|].
  apply (@reconcile_idempotent (lit "en") mixed_local mixed_bundle).
  vm_compute. reflexivity.
Defined.

(* ================================================================== *)
(** ** More on the usage scanner *)
(* ================================================================== *)

(** X8: the scanner splits the keys of the reference locale in two: every
    one of them is either kept or reported unused, never both, and nothing
    else is kept or reported. *)
Theorem findUnused_partition (code : jsstring) (refrenceKeys : list jsstring) :
  (forall k, In k refrenceKeys <->
             has (keptKeys (findUnused code refrenceKeys)) k = true \/
             In k (unusedKeys (findUnused code refrenceKeys))) /\
  (forall k, ~ (has (keptKeys (findUnused code refrenceKeys)) k = true /\
                In k (unusedKeys (findUnused code refrenceKeys)))).
Proof.
  split; intros k; rewrite has_keptKeys, In_unusedKeys.
  - destruct (is_unused code k); intuition congruence.
  - intros [[_ H1] [_ H2]]. congruence.
Qed.

Lemma Contains_inside (before code after needle : jsstring) :
  Contains code needle -> Contains (before ++ code ++ after) needle.
Proof.
  intros [b [a ->]]. exists (before ++ b), (a ++ after).
  now rewrite <- !app_assoc.
Qed.

Lemma Used_inside (before code after k k1 k2 : jsstring) :
  Used code k k1 k2 -> Used (before ++ code ++ after) k k1 k2.
Proof.
  unfold Used. intros [H|[H|[H|[H|H]]]];
    eauto 6 using Contains_inside.
Qed.

(** X9: source text around the text already searched never turns a used
    key into an unused one. *)
Theorem findUnused_more_code (before code after : jsstring)
    (refrenceKeys : list jsstring) :
  incl (unusedKeys (findUnused (before ++ code ++ after) refrenceKeys))
       (unusedKeys (findUnused code refrenceKeys)).
Proof.
  intros k. rewrite !In_unusedKeys. intros [Hin Hu]. split; [exact Hin|].
  destruct (is_unused code k) eqn:E; [reflexivity|].
  apply is_unused_Used in E.
  apply (Used_inside before after), is_unused_Used in E. congruence.
Qed.

Lemma fold_source_text (EOL : jsstring) (files : list jsstring)
    (acc : jsstring) :
  fold_left (fun acc file => acc ++ file ++ EOL) files acc
  = acc ++ source_text EOL files.
Proof.
  unfold source_text.
  revert acc; induction files as [|f files IH]; intros acc; simpl.
  - now rewrite app_nil_r.
  - rewrite IH, (IH (f ++ EOL)). now rewrite <- !app_assoc.
Qed.

Lemma source_text_file (EOL : jsstring) (files : list jsstring)
    (file : jsstring) :
  In file files ->
  exists before after, source_text EOL files = before ++ file ++ after.
Proof.
  induction files as [|f files IH]; [contradiction|].
  intros [->|Hin].
  - exists [], (EOL ++ source_text EOL files).
    unfold source_text at 1. simpl. rewrite fold_source_text.
    now rewrite <- app_assoc.
  - destruct (IH Hin) as (b & a & E).
    exists (f ++ EOL ++ b), a.
    unfold source_text at 1. simpl. rewrite fold_source_text, E.
    now rewrite <- !app_assoc.
Qed.

(** X10: a key of the reference locale that one of the source files shows
    in one of the five searched forms is kept, whatever the other files
    hold. *)
Theorem findUnused_used_in_one_file (EOL : jsstring) (files : list jsstring)
    (file : jsstring) (refrenceKeys : list jsstring) (k : jsstring) :
  In file files -> In k refrenceKeys ->
  Used file k (variantKey 1 k) (variantKey 2 k) ->
  has (keptKeys (findUnused (source_text EOL files) refrenceKeys)) k = true /\
  ~ In k (unusedKeys (findUnused (source_text EOL files) refrenceKeys)).
Proof.
  intros Hf Hk Hu.
  destruct (source_text_file EOL files file Hf) as (b & a & E).
  rewrite E, has_keptKeys, In_unusedKeys.
  apply (Used_inside b a), is_unused_Used in Hu. rewrite Hu.
  split; [now split | intros [_ H]; discriminate].
Qed.

Lemma findUnused_used_in_one_file_witness :
  unusedKeys
    (findUnused
       (source_text [LF] [lit "export const a = 1"; template_code;
                          lit "t('home.title')"])
       [lit "home.title"; lit "items.price"; lit "home.count"])
  = [lit "home.count"] /\
  has (keptKeys
         (findUnused
            (source_text [LF] [lit "export const a = 1"; template_code;
                               lit "t('home.title')"])
            [lit "home.title"; lit "items.price"; lit "home.count"]))
      (lit "home.title") = true.
Proof.
  split; [reflexivity|].
  apply (@findUnused_used_in_one_file [LF]
           [lit "export const a = 1"; template_code; lit "t('home.title')"]
           (lit "t('home.title')")
           [lit "home.title"; lit "items.price"; lit "home.count"]
           (lit "home.title")).
  - simpl. right. right. left. reflexivity.
  - simpl. left. reflexivity.
  - right. right. left. exists (lit "t("), (lit ")"). reflexivity.
Defined.

(* ================================================================== *)
(** ** More on validation *)
(* ================================================================== *)

Lemma In_lint_errors (platform : Platform) (json : obj jsstring)
    (k e : jsstring) :
  In (k, e)
     (flat_map (fun entry =>
                  match icu_parse platform (snd entry) with
                  | Some error => [(fst entry, error)]
                  | None => []
                  end) json) <->
  exists v, In (k, v) json /\ icu_parse platform v = Some e.
Proof.
  rewrite in_flat_map. split.
  - intros [[k0 v0] [Hin H]]. simpl in H.
    destruct (icu_parse platform v0) as [e0|] eqn:E; [|contradiction].
    destruct H as [[= -> ->]|[]]. eauto.
  - intros [v [Hin E]]. exists (k, v). split; [exact Hin|].
    simpl. rewrite E. now left.
Qed.

(** X11: [lintLocalesFile] returns [null] exactly when every message of the
    map parses; otherwise it returns a non-empty list that pairs each key
    whose message fails with the error of the parser, and nothing else. *)
Theorem lintLocalesFile_reports_failures (platform : Platform)
    (json : obj jsstring) :
  match lintLocalesFile platform json with
  | None =>
      forall k v, In (k, v) json -> icu_parse platform v = None
  | Some errors =>
      errors <> [] /\
      forall k e,
        In (k, e) errors <->
        exists v, In (k, v) json /\ icu_parse platform v = Some e
  end.
Proof.
  unfold lintLocalesFile.
  pose proof (In_lint_errors platform json) as H.
  destruct (flat_map _ json) as [|x errors].
  - intros k v Hin.
    destruct (icu_parse platform v) as [e|] eqn:E; [|reflexivity].
    exfalso. apply (H k e). eauto.
  - split; [discriminate | exact H].
Qed.

Lemma forEach_console_log {A} (g : A -> output) (l : list A) (w : world) :
  exists w',
    forEach l (fun e => console_log (g e)) w = Returned tt w' /\
    untouched w w'.
Proof.
  revert w; induction l as [|x l IH]; intros w; simpl.
  - exists w. split; [reflexivity | apply untouched_refl].
  - unfold bind. rewrite console_log_printed.
    destruct (IH (printed w [g x])) as (w' & E & U).
    exists w'. split; [exact E|].
    eapply untouched_trans; [|exact U]. now split.
Qed.

Lemma lint_files_verdict (platform : Platform) (project : jsstring)
    (dir : directory) (files : list jsstring) (isOk : bool) (w : world) :
  get (locale_dirs w) project = Some dir ->
  (forall file, In file files ->
     exists text json,
       get dir file = Some text /\ JSON_parse platform text = Some json) ->
  exists w',
    lint_files platform project files isOk w =
      Returned (isOk && forallb (file_lints platform dir) files) w' /\
    untouched w w'.
Proof.
  revert isOk w; induction files as [|f files IH]; intros isOk w Hdir Hall.
  - simpl. exists w. rewrite andb_true_r.
    split; [reflexivity | apply untouched_refl].
  - destruct (Hall f (or_introl eq_refl)) as (text & json & Hf & Hp).
    assert (forall file, In file files ->
              exists text json,
                get dir file = Some text /\
                JSON_parse platform text = Some json) as Hall'
      by (intros file Hin; apply Hall; now right).
    simpl. unfold file_lints at 1. rewrite Hf, Hp.
    unfold bind at 1, readFileSync. rewrite Hdir, Hf.
    unfold bind at 1, parse_json. rewrite Hp. unfold ret at 1.
    destruct (lintLocalesFile platform json) as [errors|].
    + unfold bind at 1. rewrite console_log_printed.
      unfold bind at 1.
      destruct (forEach_console_log
                  (fun e => log_key_error (fst e) (snd e)) errors
                  (printed w [log_errors project f])) as (w2 & E2 & [U1 U2]).
      rewrite E2.
      destruct (IH false w2) as (w' & E & U); [|exact Hall'|].
      { rewrite U2. exact Hdir. }
      exists w'. simpl in E. rewrite andb_false_r. split; [exact E|].
      eapply untouched_trans; [|exact U]. split; assumption.
    + simpl. apply IH; assumption.
Qed.

(** X12: when every [.json] file of the locales directory parses,
    [lintProject] returns, and it returns [true] exactly when none of these
    files has a message in error; files with another extension are not
    looked at, and no file is written. *)
Theorem lintProject_verdict (platform : Platform) (project : Project)
    (dir : directory) (w : world) :
  get (locale_dirs w) (name project) = Some dir ->
  (forall file text,
     has_json_extname file = true -> get dir file = Some text ->
     JSON_parse platform text <> None) ->
  exists w',
    lintProject platform project w =
      Returned (forallb (file_lints platform dir)
                        (filter has_json_extname (keys dir))) w' /\
    untouched w w'.
Proof.
  intros Hdir Hparse.
  destruct (@lint_files_verdict platform (name project) dir
              (filter has_json_extname (keys dir)) true w Hdir)
    as (w' & E & U).
  { intros file Hin. apply filter_In in Hin as [Hk Hext].
    apply In_keys_get in Hk as [text Ht].
    specialize (Hparse file text Hext Ht).
    destruct (JSON_parse platform text) as [json|] eqn:Ep;
      [|contradiction].
    exists text, json. now split. }
  exists w'. split; [|exact U].
  unfold lintProject, bind, readdirSync. rewrite Hdir. exact E.
Qed.

Lemma lintProject_verdict_witness :
  exists w',
    lintProject sample_platform web french_error_world = Returned false w' /\
    untouched french_error_world w' /\
    console w' = [log_errors (lit "web") (lit "fr.json");
                  log_key_error (lit "b")
                    (lit "EXPECT_ARGUMENT_CLOSING_BRACE")].
Proof.
  destruct (@lintProject_verdict sample_platform web
              [(lit "en.json",
                file_of [(lit "a", lit "A"); (lit "b", lit "{n}")]);
               (lit "fr.json",
                file_of [(lit "a", lit "A2"); (lit "b", lit "{n")]);
               (lit "notes.txt", lit "not a locale file")]
              french_error_world eq_refl) as (w' & E & U).
  - intros file text Hext Hget. apply get_Some_In in Hget.
    destruct Hget as [E|[E|[E|[]]]]; injection E as <- <-.
    + vm_compute. congruence.
    + vm_compute. congruence.
    + vm_compute in Hext. discriminate.
  - exists w'. split; [exact E|]. split; [exact U|].
    vm_compute in E. injection E as <-. reflexivity.
Defined.

Lemma same_uploads_refl (w : world) : same_uploads w w.
Proof. reflexivity. Qed.

Lemma same_uploads_trans (w1 w2 w3 : world) :
  same_uploads w1 w2 -> same_uploads w2 w3 -> same_uploads w1 w3.
Proof. unfold same_uploads. congruence. Qed.

Lemma same_uploads_console_log (o : output) :
  preserves same_uploads (console_log o).
Proof. intros w. reflexivity. Qed.

Lemma same_uploads_writeFileSync (project file content : jsstring) :
  preserves same_uploads (writeFileSync project file content).
Proof.
  intros w. unfold writeFileSync.
  destruct (get (locale_dirs w) project); reflexivity.
Qed.

(** X13: [lokalise lint] never writes or changes a file and uploads
    nothing, however it ends, and the only status it exits with is 1. *)
Theorem lint_command_read_only (platform : Platform)
    (projects : list Project) (w : world) :
  untouched w (final_world (lint_command platform projects w)) /\
  same_uploads w (final_world (lint_command platform projects w)) /\
  (forall code w',
     lint_command platform projects w = Exited code w' -> code = 1%N).
Proof.
  split; [|split].
  - unfold lint_command.
    apply (preserves_bind untouched_trans).
    + apply untouched_lint_projects.
    + intros [|]; intros w0; apply untouched_refl.
  - unfold lint_command.
    apply (preserves_bind same_uploads_trans).
    + apply preserves_lint_projects;
        first [apply same_uploads_refl | apply same_uploads_trans
              | apply same_uploads_console_log].
    + intros [|]; intros w0; apply same_uploads_refl.
  - intros code w' H. unfold lint_command in H.
    apply bind_Exited_inv in H as [H | (h & w1 & _ & H)].
    + now apply never_exits_lint_projects in H.
    + destruct h; [now injection H as <- | discriminate].
Qed.

(* ================================================================== *)
(** ** More on the orchestrator *)
(* ================================================================== *)

(** X14: when the file [en.json] of a project is missing or does not parse,
    [pullProject], [cleanupProject] and [pushProject] throw before they
    print or write anything, and [lokalise pull] stops there: the projects
    that follow are not started. *)
Theorem missing_reference_file_aborts (platform : Platform)
    (project : Project) (rest : list Project) (w : world) :
  reference_of platform project w = None ->
  pullProject platform project w = Thrown w /\
  cleanupProject platform project w = Thrown w /\
  pushProject platform project w = Thrown w /\
  pull_command platform (project :: rest) w =
    Thrown (printed w [log_project_name (name project); log_separator]).
Proof.
  intros H.
  assert (pullProject platform project w = Thrown w) as Hpull
    by (unfold pullProject; now apply reference_of_None_read).
  assert (cleanupProject platform project w = Thrown w) as Hclean
    by (unfold cleanupProject; now apply reference_of_None_read).
  repeat split; try assumption.
  - unfold pushProject, bind at 1. now rewrite Hclean.
  - assert (pullProject platform project
              (printed w [log_project_name (name project); log_separator])
            = Thrown (printed w [log_project_name (name project);
                                 log_separator])) as Hp
      by (unfold pullProject; apply reference_of_None_read; exact H).
    unfold pull_command. simpl. unfold with_heading.
    unfold bind at 1 2 3. rewrite !console_log_printed, printed_printed.
    simpl app. unfold bind at 1. now rewrite Hp.
Qed.

Lemma missing_reference_file_aborts_witness :
  pull_command sample_platform [web; admin] no_reference_world =
  Thrown (printed no_reference_world
            [log_project_name (lit "web"); log_separator]).
Proof.
  apply (@missing_reference_file_aborts sample_platform web [admin]
           no_reference_world eq_refl).
Defined.

Lemma preserves_Returned (R : world -> world -> Prop) {A} (m : M A)
    (w w' : world) (a : A) :
  preserves R m -> m w = Returned a w' -> R w w'.
Proof. intros H E. specialize (H w). now rewrite E in H. Qed.

Lemma same_uploads_cleanupProject (platform : Platform) (project : Project) :
  preserves same_uploads (cleanupProject platform project).
Proof.
  apply preserves_cleanupProject;
    first [apply same_uploads_refl | apply same_uploads_trans
          | apply same_uploads_console_log | apply same_uploads_writeFileSync].
Qed.

Lemma same_uploads_lintProject (platform : Platform) (project : Project) :
  preserves same_uploads (lintProject platform project).
Proof.
  apply preserves_lintProject;
    first [apply same_uploads_refl | apply same_uploads_trans
          | apply same_uploads_console_log].
Qed.

(** X15: when [pushProject] ends the process, nothing of the project has
    been uploaded: the exit comes before the upload loop. *)
Theorem push_exit_uploads_nothing (platform : Platform) (project : Project)
    (w w1 : world) (code : N) :
  pushProject platform project w = Exited code w1 ->
  uploads w1 = uploads w.
Proof.
  unfold pushProject. intros H.
  apply bind_Exited_inv in H as [H | (? & w2 & E2 & H)];
    [now apply never_exits_cleanupProject in H|].
  apply (@preserves_Returned same_uploads _ _ _ _ _
           (same_uploads_cleanupProject platform project)) in E2.
  apply bind_Exited_inv in H as [H | (? & w3 & E3 & H)]; [discriminate|].
  apply (@preserves_Returned same_uploads _ _ _ _ _
           (same_uploads_console_log log_blank)) in E3.
  apply bind_Exited_inv in H as [H | (isOk & w4 & E4 & H)];
    [now apply never_exits_lintProject in H|].
  apply (@preserves_Returned same_uploads _ _ _ _ _
           (same_uploads_lintProject platform project)) in E4.
  apply bind_Exited_inv in H as [H | (? & w5 & Hret & H)].
  - destruct isOk; simpl in H; [discriminate|].
    injection H as _ <-. unfold same_uploads in *. congruence.
  - apply bind_Exited_inv in H as [H | (? & w6 & _ & H)]; [discriminate|].
    apply bind_Exited_inv in H as [H | (files & w7 & _ & H)];
      [now apply never_exits_readdirSync in H|].
    apply never_exits_forEach in H; [contradiction|].
    intros e. apply never_exits_upload_file.
Qed.

Lemma push_exit_uploads_nothing_witness :
  exists w1,
    pushProject sample_platform web broken_message_world = Exited 1 w1 /\
    uploads w1 = [].
Proof.
  pose (o := pushProject sample_platform web broken_message_world).
  assert (o = Exited 1 (final_world o)) as E by (vm_compute; reflexivity).
  exists (final_world o). split; [exact E|].
  exact (@push_exit_uploads_nothing _ _ _ _ _ E).
Defined.

Lemma get_put_file (dir : directory) (file content other : jsstring) :
  get (put_file dir file content) other =
  if eqb file other then Some content else get dir other.
Proof.
  unfold put_file. destruct (has_own dir file) eqn:H.
  - rewrite get_update. unfold has_own in H.
    destruct (get dir file); [reflexivity | discriminate].
  - apply has_own_false in H. rewrite get_app. simpl.
    destruct (eqb file other) eqn:E.
    + apply eqb_eq in E. subst other. now rewrite H.
    + now destruct (get dir other).
Qed.

Lemma file_text_written (w : world) (dir : directory)
    (project file content other : jsstring) :
  get (locale_dirs w) project = Some dir ->
  match get (update (locale_dirs w) project (put_file dir file content))
            project with
  | Some dir' => get dir' other
  | None => None
  end = if eqb file other then Some content else get dir other.
Proof.
  intros Hdir. rewrite get_update, eqb_refl, Hdir. apply get_put_file.
Qed.

(** X16: after the loop body of [cleanupProject] has run on a file that
    parses, the file holds the serialised normal form of what it held, be it
    rewritten or left alone, and the other files of the directory are as
    before. *)
Theorem cleanup_file_normalizes (platform : Platform) (project : jsstring)
    (allowedKeys : jsset) (locale : jsstring) (w : world) (dir : directory)
    (rawFile : jsstring) (json : obj jsstring) :
  get (locale_dirs w) project = Some dir ->
  get dir locale = Some rawFile ->
  JSON_parse platform rawFile = Some json ->
  exists w',
    cleanup_file platform project allowedKeys locale w = Returned tt w' /\
    file_text w' project locale =
      Some (serialize platform (cleanupJson json allowedKeys)) /\
    (forall other, other <> locale ->
       file_text w' project other = file_text w project other) /\
    console w' = console w ++ [log_cleaned project locale].
Proof.
  intros Hdir Hfile Hparse.
  unfold cleanup_file, bind, readFileSync, parse_json.
  rewrite Hdir, Hfile, Hparse. unfold ret, console_log.
  destruct (eqb rawFile (serialize platform (cleanupJson json allowedKeys)))
    eqn:E; simpl.
  - apply eqb_eq in E. eexists. split; [reflexivity|].
    unfold file_text. simpl. rewrite Hdir. repeat split.
    now rewrite Hfile, E.
  - unfold writeFileSync. simpl. rewrite Hdir.
    eexists. split; [reflexivity|].
    unfold file_text. simpl. rewrite Hdir. repeat split.
    + erewrite file_text_written by exact Hdir. now rewrite eqb_refl.
    + intros other Hne. erewrite file_text_written by exact Hdir.
      assert (eqb locale other = false) as ->; [|reflexivity].
      apply eqb_neq. congruence.
Qed.

Lemma cleanup_file_normalizes_witness :
  exists w',
    cleanup_file sample_platform (lit "web") [lit "a"; lit "b"]
      (lit "fr.json") untidy_world = Returned tt w' /\
    file_text w' (lit "web") (lit "fr.json") =
      Some (file_of [(lit "a", lit "A2"); (lit "b", lit "B2")]).
Proof.
  destruct (@cleanup_file_normalizes sample_platform (lit "web")
              [lit "a"; lit "b"] (lit "fr.json") untidy_world
              [(lit "en.json", file_of [(lit "a", lit "A"); (lit "b", lit "B")]);
               (lit "fr.json",
                file_of [(lit "old", lit "x"); (lit "b", lit " B2 ");
                         (lit "a", lit "A2")])]
              (file_of [(lit "old", lit "x"); (lit "b", lit " B2 ");
                        (lit "a", lit "A2")])
              [(lit "old", lit "x"); (lit "b", lit " B2 ");
               (lit "a", lit "A2")]
              eq_refl eq_refl eq_refl) as (w' & E & Hf & _).
  exists w'. split; [exact E | exact Hf].
Defined.

Lemma get_keep_step (json : obj jsstring) (keysToKeep : jsset)
    (acc : obj jsstring) (h k : jsstring) :
  get (if has keysToKeep h
       then match get json h with
            | Some value => assign acc h value
            | None => acc
            end
       else acc) k =
  if eqb h k && has keysToKeep h && (has_own acc h || negb (eqb h PROTO))
  then match get json h with
       | Some v => Some v
       | None => get acc k
       end
  else get acc k.
Proof.
  destruct (has keysToKeep h); [|now rewrite andb_false_r].
  rewrite andb_true_r.
  destruct (get json h) as [v|].
  - apply get_assign.
  - now destruct (eqb h k && (has_own acc h || negb (eqb h PROTO))).
Qed.

(** A kept key ends with the value of [json], except a [__proto__] that
    the accumulator did not have. *)
Lemma get_fold_keep (json : obj jsstring) (keysToKeep : jsset)
    (l : list jsstring) (acc : obj jsstring) (k : jsstring) :
  get (fold_left (fun acc key =>
                    if has keysToKeep key
                    then match get json key with
                         | Some value => assign acc key value
                         | None => acc
                         end
                    else acc) l acc) k =
  if has l k && has keysToKeep k && (has_own acc k || negb (eqb k PROTO))
  then match get json k with
       | Some v => Some v
       | None => get acc k
       end
  else get acc k.
Proof.
  revert acc; induction l as [|h t IH]; intros acc; simpl; [reflexivity|].
  rewrite IH. unfold has_own at 1. rewrite !get_keep_step.
  rewrite (eqb_sym k h). destruct (eqb h k) eqn:E; simpl.
  - apply eqb_eq in E. subst h. unfold has_own.
    destruct (has keysToKeep k), (get acc k), (eqb k PROTO), (get json k),
      (has t k); reflexivity.
  - reflexivity.
Qed.

Lemma get_jsonWithoutKeys (json : obj jsstring) (keysToKeep : jsset)
    (k : jsstring) :
  get (jsonWithoutKeys json keysToKeep) k =
  if has keysToKeep k && negb (eqb k PROTO) then get json k else None.
Proof.
  unfold jsonWithoutKeys. rewrite get_fold_keep. simpl.
  destruct (has keysToKeep k); [|now rewrite andb_false_r].
  rewrite andb_true_r. simpl.
  destruct (eqb k PROTO); [now rewrite andb_false_r|].
  rewrite andb_true_r. destruct (has (keys json) k) eqn:E.
  - now destruct (get json k).
  - apply has_false in E. apply get_None_keys in E. now rewrite E.
Qed.

(** X17: [onlyKeepKeysInJson] leaves in the file the serialised map of the
    keys to keep, each with the value it had, untouched by any clean-up;
    the other keys are gone, and so is a key named [__proto__], kept or
    not. *)
Theorem onlyKeepKeysInJson_keeps_values (platform : Platform)
    (project file : jsstring) (keysToKeep : jsset) (w : world)
    (dir : directory) (text : jsstring) (json : obj jsstring) :
  get (locale_dirs w) project = Some dir ->
  get dir file = Some text ->
  JSON_parse platform text = Some json ->
  exists w' kept,
    onlyKeepKeysInJson platform project file keysToKeep w = Returned tt w' /\
    file_text w' project file = Some (serialize platform kept) /\
    (forall k, get kept k = if has keysToKeep k && negb (eqb k PROTO)
                            then get json k else None) /\
    console w' = console w ++ [log_cleaned project file].
Proof.
  intros Hdir Hfile Hparse.
  exists (printed
            {| locale_dirs :=
                 update (locale_dirs w) project
                   (put_file dir file
                      (serialize platform (jsonWithoutKeys json keysToKeep)));
               writes := writes w ++
                 [(project, file,
                   serialize platform (jsonWithoutKeys json keysToKeep))];
               console := console w; uploads := uploads w |}
            [log_cleaned project file]),
         (jsonWithoutKeys json keysToKeep).
  split; [|split; [|split]].
  - unfold onlyKeepKeysInJson, bind, readFileSync, parse_json.
    rewrite Hdir, Hfile, Hparse. unfold ret, writeFileSync.
    rewrite Hdir. reflexivity.
  - unfold file_text. simpl.
    erewrite file_text_written by exact Hdir. now rewrite eqb_refl.
  - apply get_jsonWithoutKeys.
  - reflexivity.
Qed.

Lemma onlyKeepKeysInJson_keeps_values_witness :
  exists w',
    onlyKeepKeysInJson sample_platform (lit "web") (lit "fr.json")
      [lit "b"] untidy_world = Returned tt w' /\
    file_text w' (lit "web") (lit "fr.json") =
      Some (file_of [(lit "b", lit " B2 ")]).
Proof.
  destruct (@onlyKeepKeysInJson_keeps_values sample_platform (lit "web")
              (lit "fr.json") [lit "b"] untidy_world
              [(lit "en.json", file_of [(lit "a", lit "A"); (lit "b", lit "B")]);
               (lit "fr.json",
                file_of [(lit "old", lit "x"); (lit "b", lit " B2 ");
                         (lit "a", lit "A2")])]
              (file_of [(lit "old", lit "x"); (lit "b", lit " B2 ");
                        (lit "a", lit "A2")])
              [(lit "old", lit "x"); (lit "b", lit " B2 ");
               (lit "a", lit "A2")]
              eq_refl eq_refl eq_refl) as (w' & kept & E & _).
  exists w'. split; [exact E|].
  vm_compute in E. injection E as <-. reflexivity.
Defined.

(** *** One project at a time *)

Section PreservesOwn.
Variable R : world -> world -> Prop.
Hypothesis R_refl : forall w, R w w.
Hypothesis R_trans : forall w1 w2 w3, R w1 w2 -> R w2 w3 -> R w1 w3.
Hypothesis R_console_log : forall o, preserves R (console_log o).
Variable platform : Platform.
Variable p : jsstring.
Hypothesis R_write_own :
  forall file content, preserves R (writeFileSync p file content).
Hypothesis R_uploads :
  forall w more,
    R w {| locale_dirs := locale_dirs w; writes := writes w;
           console := console w; uploads := uploads w ++ more |}.

Ltac own :=
  first [ apply preserves_ret; exact R_refl
        | apply preserves_throw; exact R_refl
        | apply preserves_astray; exact R_refl
        | apply preserves_process_exit; exact R_refl
        | apply preserves_parse_json; exact R_refl
        | apply preserves_readFileSync; exact R_refl
        | apply preserves_readdirSync; exact R_refl
        | apply R_console_log | apply R_write_own | assumption ].

Ltac own_bind :=
  apply preserves_bind; [exact R_trans | try own | intros ?].

Ltac own_forEach :=
  apply preserves_forEach; [exact R_refl | exact R_trans | intros ?].

Lemma own_lintProject (project : Project) :
  preserves R (lintProject platform project).
Proof.
  apply preserves_lintProject;
    first [exact R_refl | exact R_trans | exact R_console_log].
Qed.

Lemma own_cleanup_file (allowedKeys : jsset) (locale : jsstring) :
  preserves R (cleanup_file platform p allowedKeys locale).
Proof.
  unfold cleanup_file. own_bind. own_bind. own_bind.
  destruct (negb _); own.
Qed.

Lemma own_cleanupProject (project : Project) :
  name project = p -> preserves R (cleanupProject platform project).
Proof.
  intros E. unfold cleanupProject. rewrite E.
  own_bind. own_bind. own_bind. own_forEach. apply own_cleanup_file.
Qed.

Lemma own_write_pulled (entry : jsstring * obj jsstring) :
  preserves R (write_pulled platform p entry).
Proof. unfold write_pulled. own_bind. own. Qed.

Lemma own_pull_tail (project : Project) :
  name project = p ->
  preserves R
    (console_log log_blank ;;
     cleanupProject platform project ;;
     console_log log_blank ;;
     isOk <- lintProject platform project ;;
     if negb isOk then process_exit 1 else ret tt).
Proof.
  intros E. own_bind. own_bind; [now apply own_cleanupProject|].
  own_bind. own_bind; [apply own_lintProject|].
  destruct (negb _); own.
Qed.

Lemma own_pullProject (project : Project) :
  name project = p -> preserves R (pullProject platform project).
Proof.
  intros E. unfold pullProject. own_bind. own_bind.
  destruct (download platform project); [|own].
  destruct (lookup _ _).
  - own_bind; [|now apply own_pull_tail].
    rewrite E. own_forEach. apply own_write_pulled.
  - own.
  - own_bind. own.
Qed.

Lemma own_upload_file (project : Project) (file : jsstring) :
  preserves R (upload_file platform project file).
Proof.
  unfold upload_file. own_bind. own_bind; [|own].
  intros w. destruct (upload platform _ _ _); simpl;
    [apply R_uploads | apply R_refl].
Qed.

Lemma own_pushProject (project : Project) :
  name project = p -> preserves R (pushProject platform project).
Proof.
  intros E. unfold pushProject.
  own_bind; [now apply own_cleanupProject|].
  own_bind. own_bind; [apply own_lintProject|].
  own_bind; [destruct (negb _); own|].
  own_bind. own_bind. own_forEach. apply own_upload_file.
Qed.

End PreservesOwn.

Lemma confined_to_refl (p : jsstring) (w : world) : confined_to p w w.
Proof.
  split; [reflexivity|]. exists []. split; [now rewrite app_nil_r|].
  constructor.
Qed.

Lemma confined_to_trans (p : jsstring) (w1 w2 w3 : world) :
  confined_to p w1 w2 -> confined_to p w2 w3 -> confined_to p w1 w3.
Proof.
  intros [D1 (m1 & W1 & F1)] [D2 (m2 & W2 & F2)]. split.
  - intros q Hq. now rewrite D2, D1.
  - exists (m1 ++ m2). split.
    + now rewrite W2, W1, app_assoc.
    + apply Forall_app. now split.
Qed.

Lemma confined_to_console_log (p : jsstring) (o : output) :
  preserves (confined_to p) (console_log o).
Proof.
  intros w. split; [reflexivity|].
  exists []. simpl. split; [now rewrite app_nil_r | constructor].
Qed.

Lemma confined_to_writeFileSync (p file content : jsstring) :
  preserves (confined_to p) (writeFileSync p file content).
Proof.
  intros w. unfold writeFileSync.
  destruct (get (locale_dirs w) p) as [dir|];
    [|apply confined_to_refl].
  split.
  - intros q Hq. cbn [final_world locale_dirs]. rewrite get_update.
    assert (eqb p q = false) as ->; [|reflexivity].
    apply eqb_neq. congruence.
  - exists [(p, file, content)]. split; [reflexivity|].
    repeat constructor.
Qed.

Lemma confined_to_uploads (p : jsstring) (w : world)
    (more : list (jsstring * jsstring * jsstring)) :
  confined_to p w
    {| locale_dirs := locale_dirs w; writes := writes w;
       console := console w; uploads := uploads w ++ more |}.
Proof.
  split; [reflexivity|].
  exists []. simpl. split; [now rewrite app_nil_r | constructor].
Qed.

Lemma confined_pullProject (platform : Platform) (project : Project) :
  preserves (confined_to (name project)) (pullProject platform project).
Proof.
  apply own_pullProject with (p := name project);
    first [ apply confined_to_refl | apply confined_to_trans
          | apply confined_to_console_log
          | apply confined_to_writeFileSync | reflexivity ].
Qed.

Lemma confined_pushProject (platform : Platform) (project : Project) :
  preserves (confined_to (name project)) (pushProject platform project).
Proof.
  apply own_pushProject with (p := name project);
    first [ apply confined_to_refl | apply confined_to_trans
          | apply confined_to_console_log
          | apply confined_to_writeFileSync | apply confined_to_uploads
          | reflexivity ].
Qed.

Lemma confined_cleanupProject (platform : Platform) (project : Project) :
  preserves (confined_to (name project)) (cleanupProject platform project).
Proof.
  apply own_cleanupProject with (p := name project);
    first [ apply confined_to_refl | apply confined_to_trans
          | apply confined_to_console_log
          | apply confined_to_writeFileSync | reflexivity ].
Qed.


(** *** What a pull writes and a push uploads *)

Lemma forEach_write_pulled (platform : Platform) (project : jsstring)
    (l : list (jsstring * obj jsstring)) (w : world) (dir : directory) :
  get (locale_dirs w) project = Some dir ->
  exists w',
    forEach l (write_pulled platform project) w = Returned tt w' /\
    writes w' =
      writes w ++ map (fun e => (project, fst e ++ lit ".json",
                                 serialize platform (snd e))) l /\
    exists dir', get (locale_dirs w') project = Some dir'.
Proof.
  revert w dir; induction l as [|e l IH]; intros w dir Hdir; simpl.
  - exists w. rewrite app_nil_r. eauto.
  - unfold bind at 1, write_pulled at 1, bind at 1, console_log,
      writeFileSync. cbn [locale_dirs writes console uploads].
    rewrite Hdir.
    match goal with
    | |- context [forEach l _ ?w1] =>
        destruct (IH w1 (put_file dir (fst e ++ lit ".json")
                           (serialize platform (snd e))))
          as (w' & E & W & D)
    end.
    { cbn [locale_dirs]. now rewrite get_update, eqb_refl, Hdir. }
    exists w'. split; [exact E|]. split; [|exact D].
    rewrite W. cbn [writes]. now rewrite <- app_assoc.
Qed.

Lemma grows_pull_tail (platform : Platform) (project : Project) :
  preserves grows
    (console_log log_blank ;;
     cleanupProject platform project ;;
     console_log log_blank ;;
     isOk <- lintProject platform project ;;
     if negb isOk then process_exit 1 else ret tt).
Proof.
  apply own_pull_tail with (p := name project);
    first [ apply grows_refl | apply grows_trans | apply grows_console_log
          | apply grows_writeFileSync | reflexivity ].
Qed.

(** X19: once the reference file is read, the download has succeeded and
    the default locale is there, [pullProject] writes every locale map of
    the reconciled bundle to the file named after its locale, and these
    writes are on record however the clean-up and the lint that follow
    end. *)
Theorem pullProject_writes_every_locale (platform : Platform)
    (project : Project) (w : world)
    (localTranslations : obj jsstring) (pulledLocales result : bundle) :
  reference_of platform project w = Some localTranslations ->
  download platform project = Some pulledLocales ->
  reconcile (defaultLocale project) localTranslations pulledLocales
    = Some result ->
  forall locale json,
    In (locale, json) result ->
    In (name project, locale ++ lit ".json", serialize platform json)
       (writes (final_world (pullProject platform project w))).
Proof.
  intros Href Hdl Hrec locale json Hin.
  assert (exists dir, get (locale_dirs w) (name project) = Some dir)
    as [dir Hdir].
  { unfold reference_of in Href.
    destruct (get (locale_dirs w) (name project)); [eauto | discriminate]. }
  rewrite (pullProject_merged _ _ _ Href Hdl Hrec).
  destruct (forEach_write_pulled platform (name project) result w Hdir)
    as (w' & E & W & _).
  unfold bind at 1. rewrite E.
  destruct (grows_pull_tail platform project w') as [more G].
  rewrite G, W. apply in_or_app. left. apply in_or_app. right.
  change (name project, locale ++ lit ".json", serialize platform json)
    with ((fun e : jsstring * obj jsstring =>
             (name project, fst e ++ lit ".json",
              serialize platform (snd e))) (locale, json)).
  now apply in_map.
Qed.

Lemma pullProject_writes_every_locale_witness :
  In (lit "web", lit "fr.json", file_of [(lit "a", lit "A2")])
     (writes (final_world
                (pullProject sample_platform web broken_message_world))).
Proof.
  apply (@pullProject_writes_every_locale sample_platform web
           broken_message_world
           [(lit "a", lit "A"); (lit "b", lit "Hello {name")]
           added_bundle
           [(lit "en", [(lit "a", lit "A"); (lit "b", lit "Hello {name")]);
            (lit "fr", [(lit "a", lit "A2")])]
           eq_refl eq_refl eq_refl (lit "fr") [(lit "a", lit "A2")]).
  right. left. reflexivity.
Defined.

Lemma startsWith_app (s p : jsstring) :
  startsWith s p = true -> s = p ++ skipn (length p) s.
Proof.
  revert s; induction p as [|y p IH]; intros s; simpl; [reflexivity|].
  destruct s as [|x s]; [discriminate|].
  intros H. apply andb_true_iff in H as [Hx Hs].
  apply N.eqb_eq in Hx. subst. f_equal. now apply IH.
Qed.

(** The file name comes back from its base name. *)
Lemma basename_json_extname (file : jsstring) :
  has_json_extname file = true ->
  basename_json file ++ lit ".json" = file.
Proof.
  unfold has_json_extname, basename_json, endsWith. intros H.
  apply andb_true_iff in H as [H _].
  apply startsWith_app in H.
  assert (file = rev (skipn 5 (rev file)) ++ lit ".json") as E.
  { rewrite <- (rev_involutive file) at 1. rewrite H at 1.
    rewrite rev_app_distr. reflexivity. }
  clear H. remember (rev (skipn 5 (rev file))) as r eqn:Hr. clear Hr.
  subst file. rewrite length_app.
  replace (length r + length (lit ".json") - 5) with (length r)
    by (simpl; lia).
  rewrite firstn_app, Nat.sub_diag, firstn_all. simpl firstn.
  now rewrite app_nil_r.
Qed.

Lemma forEach_upload_file (platform : Platform) (project : Project)
    (dir : directory) (files : list jsstring) (w : world) :
  get (locale_dirs w) (name project) = Some dir ->
  (forall file, In file files ->
     has_json_extname file = true /\ In file (keys dir)) ->
  (forall file text, upload platform (id project) file text = true) ->
  exists w',
    forEach files (upload_file platform project) w = Returned tt w' /\
    uploads w' =
      uploads w ++
      flat_map (fun file =>
                  match get dir file with
                  | Some text => [(id project, basename_json file, text)]
                  | None => []
                  end) files /\
    untouched w w'.
Proof.
  revert w; induction files as [|f files IH]; intros w Hdir Hall Hup; simpl.
  - exists w. rewrite app_nil_r. split; [reflexivity|].
    split; [reflexivity | apply untouched_refl].
  - destruct (Hall f (or_introl eq_refl)) as [Hext Hk].
    apply In_keys_get in Hk as [text Ht].
    unfold bind at 1, upload_file at 1, bind at 1, readFileSync.
    rewrite (basename_json_extname _ Hext), Hdir, Ht.
    unfold bind at 1. rewrite Hup.
    unfold console_log at 1. cbn [locale_dirs writes console uploads].
    match goal with
    | |- context [forEach files _ ?w1] =>
        destruct (IH w1) as (w' & E & U & [T1 T2])
    end; [exact Hdir | intros; apply Hall; now right | exact Hup |].
    exists w'. split; [exact E|]. split.
    + rewrite U. cbn [uploads]. now rewrite <- app_assoc.
    + split; [exact T1 | exact T2].
Qed.

(** X20: when the clean-up returns, the lint finds no error and every
    upload succeeds, [pushProject] uploads each [.json] file of the locales
    directory once, in the order of the directory, under its base name and
    with the text the file holds after the clean-up; it uploads nothing
    else and writes no file after the clean-up. *)
Theorem pushProject_uploads_every_file (platform : Platform)
    (project : Project) (w w1 w2 : world) (dir : directory) :
  cleanupProject platform project w = Returned tt w1 ->
  lintProject platform project (printed w1 [log_blank]) = Returned true w2 ->
  get (locale_dirs w2) (name project) = Some dir ->
  (forall file text, upload platform (id project) file text = true) ->
  exists w',
    pushProject platform project w = Returned tt w' /\
    uploads w' =
      uploads w ++
      flat_map (fun file =>
                  match get dir file with
                  | Some text => [(id project, basename_json file, text)]
                  | None => []
                  end) (filter has_json_extname (keys dir)) /\
    untouched w2 w'.
Proof.
  intros E1 E2 Hdir Hup.
  assert (uploads w2 = uploads w) as Hu.
  { pose proof (@preserves_Returned same_uploads _ _ _ _ _
                  (same_uploads_cleanupProject platform project) E1) as U1.
    pose proof (@preserves_Returned same_uploads _ _ _ _ _
                  (same_uploads_lintProject platform project) E2) as U2.
    unfold same_uploads in *. simpl in U2. congruence. }
  destruct (@forEach_upload_file platform project dir
              (filter has_json_extname (keys dir))
              (printed w2 [log_blank]) Hdir) as (w' & E & U & T).
  { intros file Hin. apply filter_In in Hin. tauto. }
  { exact Hup. }
  exists w'. split; [|split].
  - unfold pushProject, bind. rewrite E1. cbv beta iota.
    rewrite console_log_printed. cbv beta iota.
    rewrite E2. change (negb true) with false. cbv beta iota.
    unfold ret. rewrite console_log_printed. cbv beta iota.
    unfold readdirSync. cbn [locale_dirs printed].
    rewrite Hdir. exact E.
  - rewrite U. simpl. now rewrite Hu.
  - eapply untouched_trans; [|exact T]. now split.
Qed.

Lemma pushProject_uploads_every_file_witness :
  exists w',
    pushProject sample_platform web tidy_world = Returned tt w' /\
    uploads w' =
      [(lit "1234.web", lit "en", file_of [(lit "a", lit "A")]);
       (lit "1234.web", lit "fr", file_of [(lit "a", lit "A2")])].
Proof.
  pose (c := cleanupProject sample_platform web tidy_world).
  assert (c = Returned tt (final_world c)) as Ec by (vm_compute; reflexivity).
  pose (l := lintProject sample_platform web
               (printed (final_world c) [log_blank])).
  assert (l = Returned true (final_world l)) as El
    by (vm_compute; reflexivity).
  destruct (@pushProject_uploads_every_file sample_platform web tidy_world
              (final_world c) (final_world l)
              [(lit "en.json", file_of [(lit "a", lit "A")]);
               (lit "fr.json", file_of [(lit "a", lit "A2")]);
               (lit "README.md", lit "locale files")]
              Ec El eq_refl (fun _ _ => eq_refl)) as (w' & E & U & _).
  exists w'. split; [exact E|]. rewrite U. reflexivity.
Defined.

(** *** Cleaning twice *)

Lemma cleanupJson_same_members (json : obj jsstring) (K K' : jsset) :
  (forall k, has K k = has K' k) -> cleanupJson json K = cleanupJson json K'.
Proof.
  intros H. unfold cleanupJson.
  generalize (sort (keys json)) (@nil (jsstring * jsstring)).
  intros l; induction l as [|h t IH]; intros acc; simpl; [reflexivity|].
  unfold cleanupJson_step at 2 4. rewrite (H h). apply IH.
Qed.

Lemma cleanupJson_twice (json : obj jsstring) (K : jsset) :
  cleanupJson (cleanupJson json K) K = cleanupJson json K.
Proof.
  unfold cleanupJson at 1.
  rewrite fold_cleanupJson_step_again, sorted_keys_cleanupJson.
  symmetry. apply cleanupJson_effective.
Qed.

(** The allowed keys read from the cleaned reference file are those read
    from the reference file. *)
Lemma allowed_keys_of_cleaned (ref : obj jsstring) (k : jsstring) :
  has (of_keys (keys (cleanupJson ref (of_keys (keys ref))))) k
  = has (of_keys (keys ref)) k.
Proof.
  pose proof (has_of_keys (keys (cleanupJson ref (of_keys (keys ref)))) k)
    as H1.
  pose proof (has_of_keys (keys ref) k) as H2.
  rewrite In_keys_cleanupJson in H1.
  destruct (has (of_keys (keys ref)) k) eqn:E2;
    destruct (has (of_keys (keys (cleanupJson ref (of_keys (keys ref))))) k)
      eqn:E1; try reflexivity.
  - exfalso. assert (false = true); [|discriminate].
    apply H1. split; [now apply H2 | reflexivity].
  - exfalso. destruct (proj1 H1 eq_refl) as [_ H]. discriminate.
Qed.

Lemma keys_put_file_existing (dir : directory) (file content : jsstring) :
  In file (keys dir) -> keys (put_file dir file content) = keys dir.
Proof.
  intros H. unfold put_file. apply has_own_In in H. rewrite H.
  apply keys_update.
Qed.

Lemma cleanup_file_step (platform : Platform) (project : jsstring)
    (K : jsset) (locale : jsstring) (w : world) (dir : directory)
    (text : jsstring) (json : obj jsstring) :
  get (locale_dirs w) project = Some dir ->
  get dir locale = Some text ->
  JSON_parse platform text = Some json ->
  exists w' dir',
    cleanup_file platform project K locale w = Returned tt w' /\
    get (locale_dirs w') project = Some dir' /\
    keys dir' = keys dir /\
    (forall f, get dir' f =
               if eqb locale f
               then Some (serialize platform (cleanupJson json K))
               else get dir f) /\
    (eqb text (serialize platform (cleanupJson json K)) = true ->
     untouched w w').
Proof.
  intros Hdir Hfile Hparse.
  unfold cleanup_file, bind, readFileSync, parse_json.
  rewrite Hdir, Hfile, Hparse. unfold ret, console_log.
  destruct (eqb text (serialize platform (cleanupJson json K))) eqn:E;
    cbn [negb].
  - apply eqb_eq in E. eexists. exists dir.
    split; [reflexivity|]. cbn [locale_dirs writes].
    split; [exact Hdir|]. split; [reflexivity|]. split.
    + intros f. destruct (eqb locale f) eqn:Ef; [|reflexivity].
      apply eqb_eq in Ef. subst f. now rewrite Hfile, E.
    + intros _. now split.
  - unfold writeFileSync. cbn [locale_dirs writes console uploads].
    rewrite Hdir. eexists.
    exists (put_file dir locale (serialize platform (cleanupJson json K))).
    split; [reflexivity|]. cbn [locale_dirs].
    split; [now rewrite get_update, eqb_refl, Hdir|].
    split; [apply keys_put_file_existing; apply In_keys_get; eauto|].
    split; [intros f; apply get_put_file | discriminate].
Qed.

Lemma normal_text_Some (platform : Platform) (K : jsset) (dir : directory)
    (file text : jsstring) (json : obj jsstring) :
  get dir file = Some text -> JSON_parse platform text = Some json ->
  normal_text platform K dir file
  = Some (serialize platform (cleanupJson json K)).
Proof. unfold normal_text. now intros -> ->. Qed.

(** The first pass leaves every file it visits in normal form. *)
Lemma forEach_cleanup_file (platform : Platform) (project : jsstring)
    (K : jsset) (files : list jsstring) (w : world) (dir : directory) :
  get (locale_dirs w) project = Some dir ->
  NoDup files ->
  (forall file, In file files ->
     exists text json,
       get dir file = Some text /\ JSON_parse platform text = Some json) ->
  exists w' dir',
    forEach files (cleanup_file platform project K) w = Returned tt w' /\
    get (locale_dirs w') project = Some dir' /\
    keys dir' = keys dir /\
    forall f, get dir' f =
              if has files f then normal_text platform K dir f
              else get dir f.
Proof.
  revert w dir; induction files as [|f0 files IH]; intros w dir Hdir Hnd Hall.
  - exists w, dir. simpl. auto.
  - inversion Hnd as [|? ? Hf0 Hnd']; subst.
    destruct (Hall f0 (or_introl eq_refl)) as (text & json & Ht & Hp).
    destruct (cleanup_file_step platform project K f0 w Hdir Ht Hp)
      as (w1 & dir1 & E1 & Hdir1 & Hk1 & Hg1 & _).
    destruct (IH w1 dir1 Hdir1 Hnd') as (w' & dir' & E & Hdir' & Hk & Hg).
    { intros file Hin. destruct (Hall file (or_intror Hin))
        as (t & j & Hft & Hfp).
      exists t, j. split; [|exact Hfp]. rewrite Hg1.
      assert (eqb f0 file = false) as ->; [|exact Hft].
      apply eqb_neq. intros ->. contradiction. }
    exists w', dir'. split; [|split; [exact Hdir'|split; [congruence|]]].
    + simpl. unfold bind. now rewrite E1.
    + intros f. rewrite Hg. simpl. rewrite (eqb_sym f f0).
      destruct (eqb f0 f) eqn:Ef.
      * apply eqb_eq in Ef. subst f. simpl.
        assert (has files f0 = false) as -> by now apply has_false.
        rewrite Hg1, eqb_refl.
        symmetry. eapply normal_text_Some; eassumption.
      * simpl. unfold normal_text. rewrite Hg1, Ef. reflexivity.
Qed.

(** A pass over files that are in normal form writes nothing. *)
Lemma forEach_cleanup_file_clean (platform : Platform) (project : jsstring)
    (K : jsset) (files : list jsstring) (w : world) (dir : directory) :
  get (locale_dirs w) project = Some dir ->
  (forall file, In file files ->
     exists json,
       get dir file = Some (serialize platform json) /\
       JSON_parse platform (serialize platform json) = Some json /\
       cleanupJson json K = json) ->
  exists w',
    forEach files (cleanup_file platform project K) w = Returned tt w' /\
    untouched w w'.
Proof.
  revert w; induction files as [|f0 files IH]; intros w Hdir Hall.
  - exists w. split; [reflexivity | apply untouched_refl].
  - destruct (Hall f0 (or_introl eq_refl)) as (json & Ht & Hp & Hc).
    destruct (cleanup_file_step platform project K f0 w Hdir Ht Hp)
      as (w1 & dir1 & E1 & Hdir1 & _ & _ & U1).
    rewrite Hc, eqb_refl in U1. specialize (U1 eq_refl).
    destruct (IH w1) as (w' & E & U).
    { destruct U1 as [_ D]. now rewrite D. }
    { intros file Hin. apply Hall. now right. }
    exists w'. split.
    + simpl. unfold bind. now rewrite E1.
    + eapply untouched_trans; eassumption.
Qed.

Lemma NoDup_filter {A} (f : A -> bool) (l : list A) :
  NoDup l -> NoDup (filter f l).
Proof.
  induction 1 as [|x l Hx Hnd IH]; simpl; [constructor|].
  destruct (f x); [|exact IH].
  constructor; [|exact IH]. rewrite filter_In. tauto.
Qed.

Lemma cleanupProject_second_pass (platform : Platform) (project : Project)
    (w : world) (dir : directory) (ref : obj jsstring) :
  get (locale_dirs w) (name project) = Some dir ->
  NoDup (keys dir) ->
  reference_of platform project w = Some ref ->
  normal_forms_parse_back platform (of_keys (keys ref)) dir ->
  exists w1 w2,
    cleanupProject platform project w = Returned tt w1 /\
    cleanupProject platform project w1 = Returned tt w2 /\
    untouched w1 w2.
Proof.
  intros Hdir Hnd Href Hback.
  set (K := of_keys (keys ref)) in *.
  set (files := filter has_json_extname (keys dir)).
  assert (forall file, In file files ->
            exists text json,
              get dir file = Some text /\
              JSON_parse platform text = Some json) as Hall.
  { intros file Hin. apply filter_In in Hin as [Hk Hext].
    apply In_keys_get in Hk as [text Ht].
    destruct (Hback file text Hext Ht) as (json & Hp & _). eauto. }
  destruct (@forEach_cleanup_file platform (name project) K files w dir
              Hdir)
    as (w1 & dir1 & E1 & Hdir1 & Hk1 & Hg1);
    [now apply NoDup_filter | exact Hall |].
  (* the reference file after the first pass *)
  assert (exists text, get dir (lit "en.json") = Some text /\
                       JSON_parse platform text = Some ref)
    as (rtext & Hrt & Hrp).
  { unfold reference_of in Href. rewrite Hdir in Href.
    destruct (get dir (lit "en.json")) as [t|]; [eauto | discriminate]. }
  assert (In (lit "en.json") files) as Hen.
  { apply filter_In. split; [apply In_keys_get; eauto | reflexivity]. }
  destruct (Hback (lit "en.json") rtext eq_refl Hrt) as (ref' & Hrp' & Hrb).
  rewrite Hrp in Hrp'. injection Hrp' as <-.
  assert (reference_of platform project w1 = Some (cleanupJson ref K))
    as Href1.
  { unfold reference_of. rewrite Hdir1, Hg1.
    apply has_In in Hen. rewrite Hen.
    rewrite (@normal_text_Some platform K dir _ _ _ Hrt Hrp). exact Hrb. }
  set (K1 := of_keys (keys (cleanupJson ref K))).
  assert (forall json, cleanupJson json K1 = cleanupJson json K) as HK.
  { intros json. apply cleanupJson_same_members.
    intros k. apply allowed_keys_of_cleaned. }
  destruct (@forEach_cleanup_file_clean platform (name project) K1 files
              w1 dir1 Hdir1) as (w2 & E2 & U2).
  { intros file Hin. destruct (Hall file Hin) as (text & json & Ht & Hp).
    apply filter_In in Hin as [Hk Hext].
    destruct (Hback file text Hext Ht) as (json' & Hp' & Hb).
    rewrite Hp in Hp'. injection Hp' as <-.
    exists (cleanupJson json K). split; [|split].
    - rewrite Hg1.
      assert (has files file = true) as ->
        by (apply has_In, filter_In; now split).
      eapply normal_text_Some; eassumption.
    - exact Hb.
    - rewrite HK. apply cleanupJson_twice. }
  exists w1, w2. split; [|split; [|exact U2]].
  - unfold cleanupProject.
    rewrite (reference_of_Some_read _ _ _ _ Href).
    unfold bind at 1, readdirSync. rewrite Hdir. exact E1.
  - unfold cleanupProject.
    rewrite (reference_of_Some_read _ _ _ _ Href1).
    unfold bind at 1, readdirSync. rewrite Hdir1, Hk1. exact E2.
Qed.

(** X21: when the files of the locales directory have distinct names, the
    [.json] files parse, and parsing undoes serialising on their normal
    forms, a second [cleanupProject] right after the first one returns
    without writing or changing any file. *)
Theorem cleanupProject_twice_writes_nothing (platform : Platform)
    (project : Project) (w : world) (dir : directory) (ref : obj jsstring) :
  get (locale_dirs w) (name project) = Some dir ->
  NoDup (keys dir) ->
  reference_of platform project w = Some ref ->
  normal_forms_parse_back platform (of_keys (keys ref)) dir ->
  exists w1 w2,
    cleanupProject platform project w = Returned tt w1 /\
    cleanupProject platform project w1 = Returned tt w2 /\
    untouched w1 w2.
Proof. apply cleanupProject_second_pass. Qed.

Lemma cleanupProject_twice_writes_nothing_witness :
  exists w1 w2,
    cleanupProject sample_platform web untidy_world = Returned tt w1 /\
    file_text w1 (lit "web") (lit "fr.json") =
      Some (file_of [(lit "a", lit "A2"); (lit "b", lit "B2")]) /\
    cleanupProject sample_platform web w1 = Returned tt w2 /\
    untouched w1 w2.
Proof.
  destruct (@cleanupProject_twice_writes_nothing sample_platform web
              untidy_world
              [(lit "en.json",
                file_of [(lit "a", lit "A"); (lit "b", lit "B")]);
               (lit "fr.json",
                file_of [(lit "old", lit "x"); (lit "b", lit " B2 ");
                         (lit "a", lit "A2")])]
              [(lit "a", lit "A"); (lit "b", lit "B")] eq_refl)
    as (w1 & w2 & E1 & E2 & U).
  - unfold keys. simpl map.
    constructor; [simpl; intros [E|[]]; vm_compute in E; congruence|].
    constructor; [simpl; tauto | constructor].
  - reflexivity.
  - intros file text Hext Hget. apply get_Some_In in Hget.
    destruct Hget as [E|[E|[]]]; injection E as <- <-.
    + exists [(lit "a", lit "A"); (lit "b", lit "B")].
      split; vm_compute; reflexivity.
    + exists [(lit "old", lit "x"); (lit "b", lit " B2 ");
              (lit "a", lit "A2")].
      split; vm_compute; reflexivity.
  - exists w1, w2. split; [exact E1|]. split; [|split; [exact E2 | exact U]].
    vm_compute in E1. injection E1 as <-. reflexivity.
Defined.
